(** * kiskord: the connection orchestrator of [src/hooks/useWebRTC.ts]

    A shallow embedding of the [useWebRTC] hook: the signaling listeners
    (roster, offers, answers, ICE candidates), [createPeerConnection] with
    its connectivity callback and grace timer, the audio-graph builder
    [initLocalStream], [join], [toggleMute], and the level computed by
    [detectSpeaking].

    - State.  The hook keeps its state in React refs that are mutated from
      asynchronous callbacks.  The embedding threads one record, [World],
      through a state-and-exception monad.  Connection objects live in a
      heap ([pcs]) and [peerConnections.current] maps an id to an index of
      that heap, because the callbacks of a connection close over the
      object, not over the map entry.  Tracks live in a store for the same
      reason: one track object is shared by the local stream and by every
      connection it was added to.
    - Effects.  A rejected promise that is awaited is [Throw]; what was
      written before stays written.  Every call on an outside object is
      appended to the call log [calls].
    - The outside world.  Whatever the hook only talks to (the methods of
      [RTCPeerConnection], [getUserMedia], the worklet constructor,
      Firestore, the wiring method of [utils/audioProcessor]) is a field
      of the record [Env]; the theorems hold for every [Env].
    - Granularity.  A listener runs to completion on the world before the
      next event is taken.  In the source a listener can be suspended at
      an [await]; the presence check on [peerConnections.current] and the
      registration by [createPeerConnection] are in one synchronous
      stretch, so no suspension separates them.
    - Left out: logging, the [<audio>] elements, the loading of the
      worklet module and of the WASM file (their failures are caught and
      only logged), the setters of node parameters, the VAD interval, the
      effect that applies changed options to a running graph, and the
      teardown of the audio nodes in the cleanup of the join effect.
    - Beside the hook: what [src/components/ConnectionMonitor.tsx]
      renders, and the props [src/pages/Room.tsx] gives it, in the module
      [ConnectionMonitor].
    - Ids are strings of code units below 256. *)

From Stdlib Require Import Reals Lra Ascii QArith.
From Stdlib Require Lqa.
From stdpp Require Import gmap strings list.

(** ** Participant ids and the comparison [user.uid < doc.id] *)

Module JsString.

(** The code unit of a character.  Ids are sequences of code units; the
    embedding keeps the units below 256 (Firebase uids are ASCII). *)
Definition code (c : ascii) : N := N_of_ascii c.

(** [x < y] on two JavaScript strings: [false] when [y] is a prefix of
    [x], [true] when [x] is a proper prefix of [y], and otherwise decided
    by the code units at the first index where the two differ. *)
Fixpoint lt (x y : string) : bool :=
  match x, y with
  | _, EmptyString => false
  | EmptyString, String _ _ => true
  | String a x', String b y' =>
      if (code a <? code b)%N then true
      else if (code b <? code a)%N then false
      else lt x' y'
  end.

End JsString.

(** ** Data model *)

(** [RTCPeerConnection.signalingState] and [.connectionState]. *)
Inductive RTCSignalingState :=
  | sig_stable | have_local_offer | have_remote_offer
  | have_local_pranswer | have_remote_pranswer | sig_closed.

Inductive RTCPeerConnectionState :=
  | conn_new | conn_connecting | conn_connected
  | conn_disconnected | conn_failed | conn_closed.

Global Instance RTCSignalingState_eq_dec : EqDecision RTCSignalingState.
Proof. solve_decision. Defined.
Global Instance RTCPeerConnectionState_eq_dec : EqDecision RTCPeerConnectionState.
Proof. solve_decision. Defined.

(** Media tracks live in a store ([tracks] of the world) and are named by
    their index there: the processed track is one object, shared by
    [localStreamRef.current] and by every connection it was added to. *)
Inductive TrackKind := audio | video.
Global Instance TrackKind_eq_dec : EqDecision TrackKind.
Proof. solve_decision. Defined.

Record MediaStreamTrack := {
  kind : TrackKind;
  enabled : bool;
  ended : bool;
}.

(** A [MediaStream] is the list of its tracks (indices into the store). *)
Abbreviation MediaStream := (list nat).

(** The fields of an [RTCPeerConnection] the hook reads or the browser
    changes.  Descriptions and candidates are kept as their JSON text. *)
Record RTCPeerConnection := {
  signalingState : RTCSignalingState;
  connectionState : RTCPeerConnectionState;
  localDescription : option string;
  remoteDescription : option string;
  remoteCandidates : list string;
  senders : list nat;
}.

(** One object made by [createPeerConnection]: the connection together
    with the [targetUserId] its callbacks close over. *)
Record PeerLink := {
  targetUserId : string;
  pc : RTCPeerConnection;
}.

Record User := { uid : string; displayName : string }.

Record Participant := {
  p_id : string;
  p_displayName : string;
  p_isMuted : bool;
}.

(** Firestore paths used by the hook. *)
Inductive Mailbox := incoming_offers | incoming_answers | incoming_ice.

Inductive Ref :=
  | participantsCollection (room : string)
  | participantRef (room uid : string)
  | mailboxCollection (room owner : string) (box : Mailbox)
  | mailboxDoc (room owner : string) (box : Mailbox) (docId : string).

(** Every call the hook makes on an outside object, in the order made. *)
Inductive Call :=
  | getUserMedia_call
  | alert (msg : string)
  | setDoc (ref : Ref) (name : string) (muted : bool)
  | updateDoc (ref : Ref) (muted : bool)
  | deleteDoc (ref : Ref)
  | addDoc (ref : Ref) (payload from : string)
  | onSnapshot (ref : Ref)
  | pc_createOffer (h : nat)
  | pc_createAnswer (h : nat)
  | pc_setLocalDescription (h : nat) (sdp : string)
  | pc_setRemoteDescription (h : nat) (sdp : string)
  | pc_addIceCandidate (h : nat) (candidate : string)
  | pc_close (h : nat)
  | setTimeout_call (delay : Z) (h : nat).

Global Instance Mailbox_eq_dec : EqDecision Mailbox.
Proof. solve_decision. Defined.
Global Instance Ref_eq_dec : EqDecision Ref.
Proof. solve_decision. Defined.
Global Instance Call_eq_dec : EqDecision Call.
Proof. solve_decision. Defined.

(** A pending [setTimeout] of [onconnectionstatechange]: when it is due
    and the connection object (heap index) and id its callback captured. *)
Record Timer := {
  due : Z;
  timer_pc : nat;
  timer_target : string;
}.

(** A document of a mailbox and a change reported by [docChanges()]. *)
Record MessageDoc := {
  docId : string;
  from : string;
  payload : string;
}.

Inductive ChangeType := added | modified | removed.
Global Instance ChangeType_eq_dec : EqDecision ChangeType.
Proof. solve_decision. Defined.

Record DocChange := { change_type : ChangeType; change_doc : MessageDoc }.

Record RosterDoc := {
  r_id : string;
  r_displayName : string;
  r_isMuted : bool;
}.

(** Audio options read by [initLocalStream].  A field the TypeScript type
    leaves optional is an [option]; [useRNNoise] is only ever tested for
    truthiness, so it is a [bool]. *)
Inductive AudioQuality := basic | balanced | professional | ultra.
Global Instance AudioQuality_eq_dec : EqDecision AudioQuality.
Proof. solve_decision. Defined.

Record AudioProcessingOptions := {
  useRNNoise : bool;
  audioQuality : option AudioQuality;
  highPassFilter : option bool;
  vadEnabled : option bool;
}.

(** Nodes of the Web Audio graph built by [initLocalStream].  [Speakers]
    is [audioContext.destination]; [ChainNode] names the stages that the
    professional chain creates for itself. *)
Inductive AudioNode :=
  | Source | Destination | Analyser | MonitorGain | StereoPanner | Speakers
  | RNNoiseNode | HighPassNode | Compressor | FallbackCompressor
  | ChainNode (n : nat).
Global Instance AudioNode_eq_dec : EqDecision AudioNode.
Proof. solve_decision. Defined.

Abbreviation Edge := (AudioNode * AudioNode)%type.

(** An [AnalyserNode] held in [analysersRef]: which stream it listens to
    ([None]: the microphone, [Some h]: the remote stream of connection
    [h]) and its [fftSize]. *)
Record AnalyserNode := {
  analyser_of : option nat;
  fftSize : nat;
}.

(** ** What the hook does not control

    Answers of the browser and of Firestore, and the one method of
    [utils/audioProcessor] (a module outside this source tree) that wires
    nodes.  [None] or [false] is a rejected promise or a thrown
    exception.  [connectWithRNNoise source rnnoise destination ultra]
    stands for [new ProfessionalAudioChain(audioContext, ultra)] followed
    by [connectWithRNNoise(source, rnnoiseNode, destination)] and the two
    optional setters: the connections made, or [None] if any of them
    throws.  [getUserMedia] answers with the tracks of the captured
    stream, [destinationTrack] with the first audio track of
    [destination.stream]. *)
Record Env := {
  getUserMedia : option (list MediaStreamTrack);
  destinationTrack : option MediaStreamTrack;
  newAudioWorkletNode : bool;
  newVoiceActivityDetector : bool;
  connectWithRNNoise :
    AudioNode → AudioNode → AudioNode → bool → option (list Edge);
  createOffer : RTCPeerConnection → option string;
  createAnswer : RTCPeerConnection → option string;
  setLocalDescription :
    RTCPeerConnection → string → option RTCPeerConnection;
  setRemoteDescription :
    RTCPeerConnection → string → option RTCPeerConnection;
  addIceCandidate :
    RTCPeerConnection → string → option RTCPeerConnection;
  rejects : Call → bool;
}.

(** ** The state of one client *)

(** A live [onSnapshot] listener: the collection it watches and the
    variables of [join] its callback closes over. *)
Record Subscription := {
  sub_ref : Ref;
  sub_room : string;
  sub_user : User;
  sub_stream : MediaStream;
}.

Record World := {
  audioOptions : AudioProcessingOptions;      (* currentAudioOptionsRef *)
  participants : list Participant;            (* React state *)
  isMuted : bool;                             (* React state *)
  localStreamRef : option MediaStream;
  tracks : list MediaStreamTrack;             (* store of track objects *)
  pcs : list PeerLink;                        (* heap of connections *)
  peerConnections : gmap string nat;          (* peerConnections.current *)
  analysers : gmap string AnalyserNode;       (* analysersRef.current *)
  audioEdges : list Edge;                     (* connect() calls so far *)
  audioContextRef : bool;                     (* is the ref set? *)
  subscriptions : list Subscription;
  timers : list Timer;
  clock : Z;                                  (* milliseconds *)
  calls : list Call;
}.

Definition set_participants (v : list Participant) (w : World) : World :=
  {| audioOptions := audioOptions w; participants := v; isMuted := isMuted w;
     localStreamRef := localStreamRef w; tracks := tracks w; pcs := pcs w;
     peerConnections := peerConnections w; analysers := analysers w;
     audioEdges := audioEdges w; audioContextRef := audioContextRef w;
     subscriptions := subscriptions w; timers := timers w; clock := clock w;
     calls := calls w |}.

Definition set_isMuted (v : bool) (w : World) : World :=
  {| audioOptions := audioOptions w; participants := participants w;
     isMuted := v;
     localStreamRef := localStreamRef w; tracks := tracks w; pcs := pcs w;
     peerConnections := peerConnections w; analysers := analysers w;
     audioEdges := audioEdges w; audioContextRef := audioContextRef w;
     subscriptions := subscriptions w; timers := timers w; clock := clock w;
     calls := calls w |}.

Definition set_localStreamRef (v : option MediaStream) (w : World) : World :=
  {| audioOptions := audioOptions w; participants := participants w;
     isMuted := isMuted w;
     localStreamRef := v; tracks := tracks w; pcs := pcs w;
     peerConnections := peerConnections w; analysers := analysers w;
     audioEdges := audioEdges w; audioContextRef := audioContextRef w;
     subscriptions := subscriptions w; timers := timers w; clock := clock w;
     calls := calls w |}.

Definition set_tracks (v : list MediaStreamTrack) (w : World) : World :=
  {| audioOptions := audioOptions w; participants := participants w;
     isMuted := isMuted w;
     localStreamRef := localStreamRef w; tracks := v; pcs := pcs w;
     peerConnections := peerConnections w; analysers := analysers w;
     audioEdges := audioEdges w; audioContextRef := audioContextRef w;
     subscriptions := subscriptions w; timers := timers w; clock := clock w;
     calls := calls w |}.

Definition set_pcs (v : list PeerLink) (w : World) : World :=
  {| audioOptions := audioOptions w; participants := participants w;
     isMuted := isMuted w;
     localStreamRef := localStreamRef w; tracks := tracks w; pcs := v;
     peerConnections := peerConnections w; analysers := analysers w;
     audioEdges := audioEdges w; audioContextRef := audioContextRef w;
     subscriptions := subscriptions w; timers := timers w; clock := clock w;
     calls := calls w |}.

Definition set_peerConnections (v : gmap string nat) (w : World) : World :=
  {| audioOptions := audioOptions w; participants := participants w;
     isMuted := isMuted w;
     localStreamRef := localStreamRef w; tracks := tracks w; pcs := pcs w;
     peerConnections := v; analysers := analysers w;
     audioEdges := audioEdges w; audioContextRef := audioContextRef w;
     subscriptions := subscriptions w; timers := timers w; clock := clock w;
     calls := calls w |}.

Definition set_analysers (v : gmap string AnalyserNode) (w : World) : World :=
  {| audioOptions := audioOptions w; participants := participants w;
     isMuted := isMuted w;
     localStreamRef := localStreamRef w; tracks := tracks w; pcs := pcs w;
     peerConnections := peerConnections w; analysers := v;
     audioEdges := audioEdges w; audioContextRef := audioContextRef w;
     subscriptions := subscriptions w; timers := timers w; clock := clock w;
     calls := calls w |}.

Definition set_audioEdges (v : list Edge) (w : World) : World :=
  {| audioOptions := audioOptions w; participants := participants w;
     isMuted := isMuted w;
     localStreamRef := localStreamRef w; tracks := tracks w; pcs := pcs w;
     peerConnections := peerConnections w; analysers := analysers w;
     audioEdges := v; audioContextRef := audioContextRef w;
     subscriptions := subscriptions w; timers := timers w; clock := clock w;
     calls := calls w |}.

Definition set_audioContextRef (v : bool) (w : World) : World :=
  {| audioOptions := audioOptions w; participants := participants w;
     isMuted := isMuted w;
     localStreamRef := localStreamRef w; tracks := tracks w; pcs := pcs w;
     peerConnections := peerConnections w; analysers := analysers w;
     audioEdges := audioEdges w; audioContextRef := v;
     subscriptions := subscriptions w; timers := timers w; clock := clock w;
     calls := calls w |}.

Definition set_subscriptions (v : list Subscription) (w : World) : World :=
  {| audioOptions := audioOptions w; participants := participants w;
     isMuted := isMuted w;
     localStreamRef := localStreamRef w; tracks := tracks w; pcs := pcs w;
     peerConnections := peerConnections w; analysers := analysers w;
     audioEdges := audioEdges w; audioContextRef := audioContextRef w;
     subscriptions := v; timers := timers w; clock := clock w;
     calls := calls w |}.

Definition set_timers (v : list Timer) (w : World) : World :=
  {| audioOptions := audioOptions w; participants := participants w;
     isMuted := isMuted w;
     localStreamRef := localStreamRef w; tracks := tracks w; pcs := pcs w;
     peerConnections := peerConnections w; analysers := analysers w;
     audioEdges := audioEdges w; audioContextRef := audioContextRef w;
     subscriptions := subscriptions w; timers := v; clock := clock w;
     calls := calls w |}.

Definition set_clock (v : Z) (w : World) : World :=
  {| audioOptions := audioOptions w; participants := participants w;
     isMuted := isMuted w;
     localStreamRef := localStreamRef w; tracks := tracks w; pcs := pcs w;
     peerConnections := peerConnections w; analysers := analysers w;
     audioEdges := audioEdges w; audioContextRef := audioContextRef w;
     subscriptions := subscriptions w; timers := timers w; clock := v;
     calls := calls w |}.

Definition set_calls (v : list Call) (w : World) : World :=
  {| audioOptions := audioOptions w; participants := participants w;
     isMuted := isMuted w;
     localStreamRef := localStreamRef w; tracks := tracks w; pcs := pcs w;
     peerConnections := peerConnections w; analysers := analysers w;
     audioEdges := audioEdges w; audioContextRef := audioContextRef w;
     subscriptions := subscriptions w; timers := timers w; clock := clock w;
     calls := v |}.

(** The world of a freshly mounted hook. *)
Definition initial (opts : AudioProcessingOptions) : World :=
  {| audioOptions := opts; participants := []; isMuted := false;
     localStreamRef := None; tracks := []; pcs := [];
     peerConnections := ∅; analysers := ∅; audioEdges := [];
     audioContextRef := false; subscriptions := []; timers := [];
     clock := 0; calls := [] |}.

(** ** State and exceptions

    A computation runs on the world and either completes normally or
    throws (a rejected promise in an [async] function); what it wrote
    before throwing stays written. *)
Inductive Completion (A : Type) :=
  | Normal (a : A)
  | Throw.
Arguments Normal {A} a.
Arguments Throw {A}.

Definition M (A : Type) : Type := World → Completion A * World.

Global Instance M_ret : MRet M := λ A a w, (Normal a, w).
Global Instance M_bind : MBind M := λ A B f m w,
  match m w with
  | (Normal a, w') => f a w'
  | (Throw, w') => (Throw, w')
  end.

Definition get : M World := λ w, (Normal w, w).
Definition modify (f : World → World) : M unit := λ w, (Normal (), f w).
Definition throw {A} : M A := λ w, (Throw, w).

(** [try { body } catch { handler }] *)
Definition try_catch {A} (body handler : M A) : M A := λ w,
  match body w with
  | (Throw, w') => handler w'
  | r => r
  end.

(** A promise nobody awaits or whose rejection is caught and logged:
    run it, drop its completion. *)
Definition detached {A} (m : M A) : M unit := λ w, (Normal (), (m w).2).

Definition exec {A} (m : M A) (w : World) : World := (m w).2.
Definition result {A} (m : M A) (w : World) : Completion A := (m w).1.

Definition call (c : Call) : M unit :=
  modify (λ w, set_calls (calls w ++ [c]) w).

Fixpoint forM {A B} (l : list A) (f : A → M B) : M (list B) :=
  match l with
  | [] => mret []
  | x :: l' => y ← f x; ys ← forM l' f; mret (y :: ys)
  end.

(** [l.forEach(async x => ...)]: every callback runs, a rejection of one
    is seen by nobody. *)
Fixpoint forEach_async {A B} (l : list A) (f : A → M B) : M unit :=
  match l with
  | [] => mret ()
  | x :: l' => detached (f x);; forEach_async l' f
  end.

(** ** Tracks and connections in the store *)

Definition new_RTCPeerConnection (stream : MediaStream) : RTCPeerConnection :=
  {| signalingState := sig_stable; connectionState := conn_new;
     localDescription := None; remoteDescription := None;
     remoteCandidates := []; senders := stream |}.

(** [pc.close()] *)
Definition closed (c : RTCPeerConnection) : RTCPeerConnection :=
  {| signalingState := sig_closed; connectionState := conn_closed;
     localDescription := localDescription c;
     remoteDescription := remoteDescription c;
     remoteCandidates := remoteCandidates c; senders := senders c |}.

Definition with_connectionState (s : RTCPeerConnectionState)
    (c : RTCPeerConnection) : RTCPeerConnection :=
  {| signalingState := signalingState c; connectionState := s;
     localDescription := localDescription c;
     remoteDescription := remoteDescription c;
     remoteCandidates := remoteCandidates c; senders := senders c |}.

Definition on_pc (f : RTCPeerConnection → RTCPeerConnection)
    (l : PeerLink) : PeerLink :=
  {| targetUserId := targetUserId l; pc := f (pc l) |}.

Definition with_enabled (b : bool) (t : MediaStreamTrack) : MediaStreamTrack :=
  {| kind := kind t; enabled := b; ended := ended t |}.

(** [stream.getAudioTracks()] *)
Definition getAudioTracks (w : World) (stream : MediaStream) : list nat :=
  filter (λ i, kind <$> tracks w !! i = Some audio) stream.
Arguments getAudioTracks : simpl never.

(** New track objects enter the store; the result is their stream. *)
Definition allocTracks (ts : list MediaStreamTrack) : M MediaStream :=
  w ← get;
  modify (set_tracks (tracks w ++ ts));;
  mret (seq (length (tracks w)) (length ts)).

(** A string is truthy unless it is empty. *)
Definition truthy (s : option string) : option string :=
  match s with
  | Some "" => None
  | _ => s
  end.

Section Hook.

Variable E : Env.

(** An awaited Firestore write. *)
Definition firestore (c : Call) : M unit :=
  call c;;
  if rejects E c then throw else mret ().

(** An awaited method of connection [h] that answers with a value. *)
Definition pcQuery (c : Call) (h : nat)
    (op : RTCPeerConnection → option string) : M string :=
  call c;;
  w ← get;
  match pcs w !! h with
  | Some l =>
      match op (pc l) with
      | Some s => mret s
      | None => throw
      end
  | None => throw
  end.

(** An awaited method of connection [h] that changes the connection. *)
Definition pcMethod (c : Call) (h : nat)
    (op : RTCPeerConnection → option RTCPeerConnection) : M unit :=
  call c;;
  w ← get;
  match pcs w !! h with
  | Some l =>
      match op (pc l) with
      | Some c' => modify (set_pcs (<[h := on_pc (λ _, c') l]> (pcs w)))
      | None => throw
      end
  | None => throw
  end.

Definition close (h : nat) : M unit :=
  call (pc_close h);;
  modify (λ w, set_pcs (alter (on_pc closed) h (pcs w)) w).

(** *** [createPeerConnection] and the callbacks it installs *)

Definition createPeerConnection (targetUserId : string)
    (stream : MediaStream) : M nat :=
  w ← get;
  let h := length (pcs w) in
  modify (set_pcs (pcs w ++
    [{| targetUserId := targetUserId;
        pc := new_RTCPeerConnection stream |}]));;
  modify (λ w, set_peerConnections
                 (<[targetUserId := h]> (peerConnections w)) w);;
  mret h.

(** The callback given to [setTimeout] when the state became 'failed'. *)
Definition graceCallback (t : Timer) : M unit :=
  w ← get;
  match pcs w !! timer_pc t with
  | Some l =>
      if decide (connectionState (pc l) = conn_failed) then
        close (timer_pc t);;
        modify (λ w, set_peerConnections
                       (delete (timer_target t) (peerConnections w)) w)
      else mret ()
  | None => mret ()
  end.

Definition grace_period : Z := 3000.

Definition setTimeout (delay : Z) (h : nat) (target : string) : M unit :=
  call (setTimeout_call delay h);;
  modify (λ w, set_timers (timers w ++
    [{| due := (clock w + delay)%Z; timer_pc := h;
        timer_target := target |}]) w).

Definition onconnectionstatechange (h : nat) : M unit :=
  w ← get;
  match pcs w !! h with
  | Some l =>
      match connectionState (pc l) with
      | conn_connected => mret ()
      | conn_failed => setTimeout grace_period h (targetUserId l)
      | conn_disconnected => mret ()
      | _ => mret ()
      end
  | None => mret ()
  end.

(** [if (event.candidate && roomId && user)]: [roomId] and [user] are
    the arguments of the hook. *)
Definition onicecandidate (roomId : option string) (user : option User)
    (h : nat) (candidate : option string) : M unit :=
  w ← get;
  match candidate, truthy roomId, user, pcs w !! h with
  | Some c, Some room, Some u, Some l =>
      detached (firestore
        (addDoc (mailboxCollection room (targetUserId l) incoming_ice)
                c (uid u)))
  | _, _, _, _ => mret ()
  end.

Definition ontrack (h : nat) : M unit :=
  w ← get;
  match pcs w !! h with
  | Some l =>
      if audioContextRef w then
        modify (set_analysers
          (<[targetUserId l := {| analyser_of := Some h; fftSize := 256 |}]>
             (analysers w)))
      else mret ()
  | None => mret ()
  end.

(** *** The four listeners installed by [join] *)

(** One iteration of [for (const doc of snapshot.docs)] in the roster
    listener. *)
Definition onRosterDoc (room : string) (u : User) (stream : MediaStream)
    (doc : RosterDoc) : M Participant :=
  w ← get;
  (if bool_decide (r_id doc ≠ uid u)
      && bool_decide (peerConnections w !! r_id doc = None) then
     if JsString.lt (uid u) (r_id doc) then
       h ← createPeerConnection (r_id doc) stream;
       offer ← pcQuery (pc_createOffer h) h (createOffer E);
       pcMethod (pc_setLocalDescription h offer) h
                (λ c, setLocalDescription E c offer);;
       firestore (addDoc (mailboxCollection room (r_id doc) incoming_offers)
                         offer (uid u))
     else mret ()
   else mret ());;
  mret {| p_id := r_id doc; p_displayName := r_displayName doc;
          p_isMuted := r_isMuted doc |}.

Definition onRosterSnapshot (room : string) (u : User)
    (stream : MediaStream) (docs : list RosterDoc) : M unit :=
  currentParticipants ← forM docs (onRosterDoc room u stream);
  modify (set_participants currentParticipants).

Definition onOfferChange (room : string) (u : User) (stream : MediaStream)
    (change : DocChange) : M unit :=
  if decide (change_type change = added) then
    let data := change_doc change in
    let fromUserId := from data in
    w ← get;
    (if bool_decide (peerConnections w !! fromUserId = None) then
       h ← createPeerConnection fromUserId stream;
       try_catch
         (pcMethod (pc_setRemoteDescription h (payload data)) h
                   (λ c, setRemoteDescription E c (payload data));;
          answer ← pcQuery (pc_createAnswer h) h (createAnswer E);
          pcMethod (pc_setLocalDescription h answer) h
                   (λ c, setLocalDescription E c answer);;
          firestore
            (addDoc (mailboxCollection room fromUserId incoming_answers)
                    answer (uid u)))
         (mret ())
     else mret ());;
    firestore (deleteDoc (mailboxDoc room (uid u) incoming_offers
                                     (docId data)))
  else mret ().

Definition onAnswerChange (room : string) (u : User)
    (change : DocChange) : M unit :=
  if decide (change_type change = added) then
    let data := change_doc change in
    let fromUserId := from data in
    w ← get;
    match peerConnections w !! fromUserId with
    | Some h =>
        if bool_decide (signalingState <$> (pc <$> pcs w !! h)
                        = Some have_local_offer) then
          try_catch
            (pcMethod (pc_setRemoteDescription h (payload data)) h
                      (λ c, setRemoteDescription E c (payload data)))
            (mret ())
        else mret ()
    | None => mret ()
    end;;
    firestore (deleteDoc (mailboxDoc room (uid u) incoming_answers
                                     (docId data)))
  else mret ().

Definition onIceChange (room : string) (u : User)
    (change : DocChange) : M unit :=
  if decide (change_type change = added) then
    let data := change_doc change in
    let fromUserId := from data in
    w ← get;
    match peerConnections w !! fromUserId with
    | Some h =>
        if bool_decide (is_Some (pcs w !! h ≫= λ l, remoteDescription (pc l)))
        then
          try_catch
            (pcMethod (pc_addIceCandidate h (payload data)) h
                      (λ c, addIceCandidate E c (payload data)))
            (mret ())
        else mret ()
    | None => mret ()
    end;;
    firestore (deleteDoc (mailboxDoc room (uid u) incoming_ice
                                     (docId data)))
  else mret ().

(** *** [initLocalStream]: the audio graph builder *)

Definition connect (a b : AudioNode) : M unit :=
  modify (λ w, set_audioEdges (audioEdges w ++ [(a, b)]) w).

Definition microphone_alert : string :=
  "Microphone permission denied. Please enable it to join the voice chat.".

(** [analysersRef.current[user.uid] = analyser], under [if (user)]. *)
Definition registerLocalAnalyser (user : option User) : M unit :=
  match user with
  | Some u =>
      modify (λ w, set_analysers
        (<[uid u := {| analyser_of := None; fftSize := 2048 |}]>
           (analysers w)) w)
  | None => mret ()
  end.

(** The tail shared by the three modes: send the destination's track if
    it has one.  [otherwise] is what the mode does when it has none. *)
Definition useProcessedTrack (user : option User) (dest : MediaStream)
    (otherwise : M (option MediaStream)) : M (option MediaStream) :=
  w ← get;
  match head (getAudioTracks w dest) with
  | Some t =>
      modify (set_localStreamRef (Some [t]));;
      modify (set_audioContextRef true);;
      registerLocalAnalyser user;;
      mret (Some [t])
  | None => otherwise
  end.

Definition useProfessional (o : AudioProcessingOptions) : bool :=
  bool_decide (audioQuality o = Some professional)
  || bool_decide (audioQuality o = Some balanced)
  || bool_decide (audioQuality o = Some ultra).

Definition useRNNoiseProcessing (o : AudioProcessingOptions) : bool :=
  useRNNoise o && bool_decide (audioQuality o ≠ Some basic).

(** The body of [try { ... }] under "RNNoise / Professional Mode". *)
Definition enhancedGraph (user : option User) (stream dest : MediaStream)
    : M (option MediaStream) :=
  (if newAudioWorkletNode E then mret () else throw);;
  w ← get;
  let o := audioOptions w in
  (if useProfessional o then
     match connectWithRNNoise E Source RNNoiseNode Destination
             (bool_decide (audioQuality o = Some ultra)) with
     | Some es => modify (λ w, set_audioEdges (audioEdges w ++ es) w)
     | None => throw
     end
   else
     graphStart ←
       (if bool_decide (highPassFilter o ≠ Some false) then
          connect Source HighPassNode;; mret HighPassNode
        else mret Source);
     connect graphStart RNNoiseNode;;
     connect RNNoiseNode Compressor;;
     connect Compressor Destination;;
     connect Destination MonitorGain;;
     connect MonitorGain Speakers);;
  (if bool_decide (vadEnabled o ≠ Some false) then
     if newVoiceActivityDetector E then mret () else throw
   else mret ());;
  useProcessedTrack user dest
    (modify (set_localStreamRef (Some stream));; mret (Some stream)).

(** The [catch] of that block: compression only. *)
Definition fallbackGraph (user : option User) (stream dest : MediaStream)
    : M (option MediaStream) :=
  connect Source FallbackCompressor;;
  connect FallbackCompressor Analyser;;
  connect FallbackCompressor Destination;;
  modify (set_audioContextRef true);;
  registerLocalAnalyser user;;
  w ← get;
  match head (getAudioTracks w dest) with
  | Some t =>
      modify (set_localStreamRef (Some [t]));; mret (Some [t])
  | None =>
      modify (set_localStreamRef (Some stream));; mret (Some stream)
  end.

Definition initLocalStream (user : option User) : M (option MediaStream) :=
  try_catch
    (call getUserMedia_call;;
     stream ← match getUserMedia E with
              | Some ts => allocTracks ts
              | None => throw
              end;
     modify (set_localStreamRef (Some stream));;
     (* createMediaStreamSource, createMediaStreamDestination *)
     dest ← allocTracks (option_list (destinationTrack E));
     connect Source Analyser;;
     connect Source MonitorGain;;
     connect MonitorGain StereoPanner;;
     connect StereoPanner Speakers;;
     w ← get;
     let enhanced :=
       try_catch (enhancedGraph user stream dest)
                 (fallbackGraph user stream dest) in
     if negb (useRNNoiseProcessing (audioOptions w)) then
       connect Source Destination;;
       useProcessedTrack user dest enhanced
     else enhanced)
    (call (alert microphone_alert);; mret None).

(** *** [join] *)

Definition subscribe (ref : Ref) (room : string) (u : User)
    (stream : MediaStream) : M unit :=
  call (onSnapshot ref);;
  modify (λ w, set_subscriptions (subscriptions w ++
    [{| sub_ref := ref; sub_room := room; sub_user := u;
        sub_stream := stream |}]) w).

Definition join (room : string) (u : User) : M unit :=
  stream ← initLocalStream (Some u);
  match stream with
  | None => mret ()
  | Some stream =>
      firestore (setDoc (participantRef room (uid u)) (displayName u) false);;
      subscribe (participantsCollection room) room u stream;;
      subscribe (mailboxCollection room (uid u) incoming_offers)
                room u stream;;
      subscribe (mailboxCollection room (uid u) incoming_answers)
                room u stream;;
      subscribe (mailboxCollection room (uid u) incoming_ice)
                room u stream
  end.

(** The effect "Join Room Logic": [if (!roomId || !user) return; ...
    join();] *)
Definition joinEffect (roomId : option string) (user : option User)
    : M unit :=
  match truthy roomId, user with
  | Some room, Some u => detached (join room u)
  | _, _ => mret ()
  end.

(** *** [toggleMute] *)

Definition toggleMute (roomId : option string) (user : option User)
    : M unit :=
  w ← get;
  match localStreamRef w with
  | Some stream =>
      match head (getAudioTracks w stream) with
      | Some t =>
          modify (λ w, set_tracks
            (alter (λ tr, with_enabled (negb (enabled tr)) tr) t (tracks w))
            w);;
          w ← get;
          let now_enabled := default false (enabled <$> tracks w !! t) in
          modify (set_isMuted (negb now_enabled));;
          match truthy roomId, user with
          | Some room, Some u =>
              firestore (updateDoc (participantRef room (uid u))
                                   (negb now_enabled))
          | _, _ => mret ()
          end
      | None => mret ()
      end
  | None => mret ()
  end.

(** *** Events

    What reaches the hook after it is mounted with arguments [roomId]
    and [user]: snapshots of the collections it listens to, the events
    of its connections, the passing of time, and the mute button. *)
Inductive Event :=
  | RosterSnapshot (room : string) (docs : list RosterDoc)
  | MailboxSnapshot (room owner : string) (box : Mailbox)
                    (changes : list DocChange)
  | ConnectionStateChange (h : nat) (s : RTCPeerConnectionState)
  | IceCandidateEvent (h : nat) (candidate : option string)
  | TrackEvent (h : nat)
  | Advance (dt : N)
  | ToggleMute.

(** Firestore calls the listeners registered for a collection. *)
Definition onSnapshotEvent (target : Ref) (listener : Subscription → M unit)
    : M unit :=
  w ← get;
  forEach_async
    (filter (λ s, sub_ref s = target) (subscriptions w)) listener.

Definition onMailboxChange (box : Mailbox) (s : Subscription)
    (change : DocChange) : M unit :=
  match box with
  | incoming_offers =>
      onOfferChange (sub_room s) (sub_user s) (sub_stream s) change
  | incoming_answers => onAnswerChange (sub_room s) (sub_user s) change
  | incoming_ice => onIceChange (sub_room s) (sub_user s) change
  end.

(** The clock moves on by [dt] ms and the timers now due fire, oldest
    first. *)
Definition advance (dt : N) : M unit :=
  modify (λ w, set_clock (clock w + Z.of_N dt)%Z w);;
  w ← get;
  modify (set_timers (filter (λ t, ¬ (due t ≤ clock w)%Z) (timers w)));;
  forEach_async (filter (λ t, (due t ≤ clock w)%Z) (timers w)) graceCallback.

(** The browser moves a connection that is not closed to a state other
    than 'closed' and fires [connectionstatechange]. *)
Definition connectionStateChange (h : nat) (s : RTCPeerConnectionState)
    : M unit :=
  w ← get;
  match pcs w !! h with
  | Some l =>
      if bool_decide (connectionState (pc l) ≠ conn_closed)
         && bool_decide (s ≠ conn_closed) then
        modify (set_pcs (alter (on_pc (with_connectionState s)) h (pcs w)));;
        detached (onconnectionstatechange h)
      else mret ()
  | None => mret ()
  end.

Definition dispatch (roomId : option string) (user : option User)
    (ev : Event) : M unit :=
  match ev with
  | RosterSnapshot room docs =>
      onSnapshotEvent (participantsCollection room)
        (λ s, onRosterSnapshot (sub_room s) (sub_user s) (sub_stream s) docs)
  | MailboxSnapshot room owner box changes =>
      onSnapshotEvent (mailboxCollection room owner box)
        (λ s, forEach_async changes (onMailboxChange box s))
  | ConnectionStateChange h s => connectionStateChange h s
  | IceCandidateEvent h candidate => onicecandidate roomId user h candidate
  | TrackEvent h => ontrack h
  | Advance dt => advance dt
  | ToggleMute => detached (toggleMute roomId user)
  end.

Definition run (roomId : option string) (user : option User)
    (evs : list Event) (w : World) : World :=
  fold_left (λ w ev, exec (dispatch roomId user ev) w) evs w.

End Hook.

(** ** The level monitor

    [getAudioLevel] and the part of [detectSpeaking] that computes
    [maxLevel].  JavaScript numbers are taken as real numbers here: the
    sum of squares is exact in binary64 (every term is a multiple of
    2^-14 and the sum stays below 2^15), and [Math.sqrt], the product
    with 300, [Math.min] and [Math.max] are monotone. *)


(** [new Uint8Array(n)] after the browser copied [data] into it. *)
Definition Uint8Array (n : nat) (data : list Z) : list Z :=
  take n (data ++ replicate n 0%Z).







(** ** Observations used in the statements *)

(** A connection object that has not been closed. *)
Definition live (l : PeerLink) : Prop := connectionState (pc l) ≠ conn_closed.

Global Instance live_dec l : Decision (live l).
Proof. unfold live. apply _. Defined.

(** The connection objects for remote id [id] that are not closed. *)
Definition liveLinks (id : string) (w : World) : list PeerLink :=
  filter (λ l, targetUserId l = id ∧ live l) (pcs w).

(** Connection [h] is the object [l] and is registered for its target. *)
Definition holds (h : nat) (l : PeerLink) (w : World) : Prop :=
  pcs w !! h = Some l ∧ peerConnections w !! targetUserId l = Some h.

(** The calls made since [w]. *)
Definition newCalls (w w' : World) : list Call :=
  drop (length (calls w)) (calls w').


(** What the initiating branch of the roster listener does once
    [createPeerConnection] has returned connection [h]. *)
Definition offerTo (E : Env) (room : string) (u : User) (doc : RosterDoc)
    (h : nat) : M unit :=
  offer ← pcQuery (pc_createOffer h) h (createOffer E);
  pcMethod (pc_setLocalDescription h offer) h
           (λ c, setLocalDescription E c offer);;
  firestore E (addDoc (mailboxCollection room (r_id doc) incoming_offers)
                      offer (uid u)).

Definition addedDoc (doc : MessageDoc) : DocChange :=
  {| change_type := added; change_doc := doc |}.

(** The guard of the answers listener: the sender has a connection [h]
    and it waits for an answer. *)
Definition answerExpected (w : World) (doc : MessageDoc) (h : nat) : Prop :=
  peerConnections w !! from doc = Some h
  ∧ signalingState <$> (pc <$> pcs w !! h) = Some have_local_offer.

(** The guard of the ICE listener: the sender has a connection [h] whose
    remote description is set. *)
Definition candidateAccepted (w : World) (doc : MessageDoc) (h : nat) : Prop :=
  peerConnections w !! from doc = Some h
  ∧ is_Some (pcs w !! h ≫= λ l, remoteDescription (pc l)).

(** The timer that [onconnectionstatechange] starts in world [w] for
    connection [h] = [l]. *)
Definition graceTimer (w : World) (h : nat) (l : PeerLink) : Timer :=
  {| due := (clock w + grace_period)%Z; timer_pc := h;
     timer_target := targetUserId l |}.

(** The calls of a [join] whose microphone request is refused. *)
Definition deniedCalls : list Call :=
  [getUserMedia_call; alert microphone_alert].

(** Nothing is subscribed, linked, pending or captured, and the call log
    is [cs]. *)
Definition idle (cs : list Call) (w : World) : Prop :=
  subscriptions w = [] ∧ pcs w = [] ∧ peerConnections w = ∅
  ∧ timers w = [] ∧ localStreamRef w = None ∧ calls w = cs.

(** [localStreamRef.current.getAudioTracks()[0]], when there is a stream
    and it has an audio track. *)
Definition localAudioTrack (w : World) : option nat :=
  localStreamRef w ≫= λ stream, head (getAudioTracks w stream).



(** Routes in the audio graph. *)
Inductive reach (es : list Edge) (a : AudioNode) : AudioNode → Prop :=
  | reach_refl : reach es a a
  | reach_step b c : reach es a b → (b, c) ∈ es → reach es a c.

(** The graph without the connections into and out of [n]. *)
Definition without (n : AudioNode) (es : list Edge) : list Edge :=
  filter (λ e, e.1 ≠ n ∧ e.2 ≠ n) es.

(** There is a route from [a] to [b] through [via], and none around it. *)
Definition routed_through (es : list Edge) (a via b : AudioNode) : Prop :=
  reach es a via ∧ reach es via b ∧ ¬ reach (without via es) a b.

(** The connections [initLocalStream] makes before it chooses a mode:
    the level analyser and the self-monitor path. *)
Definition taps : list Edge :=
  [(Source, Analyser); (Source, MonitorGain);
   (MonitorGain, StereoPanner); (StereoPanner, Speakers)].

Definition tapNodes : list AudioNode :=
  [Analyser; MonitorGain; StereoPanner; Speakers].

(** ** The bookkeeping invariant

    Every connection object that is not closed is the one registered for
    its target in [peerConnections.current]; every registered object is in
    the heap under its own target; every pending timer's captured id is
    the target of its captured connection. *)
Definition timer_ok (w : World) (t : Timer) : Prop :=
  ∃ l, pcs w !! timer_pc t = Some l ∧ targetUserId l = timer_target t.

Record consistent (w : World) : Prop := {
  live_linked : ∀ h l,
    pcs w !! h = Some l → live l → peerConnections w !! targetUserId l = Some h;
  linked_target : ∀ id h,
    peerConnections w !! id = Some h →
    ∃ l, pcs w !! h = Some l ∧ targetUserId l = id;
  timers_target : ∀ t, t ∈ timers w → timer_ok w t;
}.

(** Connection [h] is the one registered for its target. *)
Definition linked (h : nat) (w : World) : Prop :=
  ∃ l, pcs w !! h = Some l ∧ peerConnections w !! targetUserId l = Some h.

(** [m] keeps [I], whether it completes or throws. *)
Definition preserves {A} (I : World → Prop) (m : M A) : Prop :=
  ∀ w, I w → I (exec m w).

(** An invariant that does not read the call log. *)
Definition ignores_calls (I : World → Prop) : Prop :=
  ∀ w cs, I w → I (set_calls cs w).

(** The connections, their registrations and the timers are these. *)
Definition signaling_is (ps : list PeerLink) (m : gmap string nat)
    (ts : list Timer) (w : World) : Prop :=
  pcs w = ps ∧ peerConnections w = m ∧ timers w = ts.

(** ** Reference environments and example worlds

    Concrete answers of the outside world, used to run the hook. *)

(** Modelled from the spec: the wiring done by
    [ProfessionalAudioChain.connectWithRNNoise] of [utils/audioProcessor],
    which is not in the source tree: source, high-pass stage, noise
    suppression, dynamics compression, destination.  [ChainNode 0] is the
    high-pass stage and [ChainNode 1] the compressor. *)
Definition specChain (source rnnoise destination : AudioNode) (ultra : bool)
    : option (list Edge) :=
  Some [(source, ChainNode 0); (ChainNode 0, rnnoise);
        (rnnoise, ChainNode 1); (ChainNode 1, destination)].

(** The connections [specChain] makes between source, noise suppression
    and destination. *)
Definition specChainEdges : list Edge :=
  [(Source, ChainNode 0); (ChainNode 0, RNNoiseNode);
   (RNNoiseNode, ChainNode 1); (ChainNode 1, Destination)].

Definition micTrack : MediaStreamTrack :=
  {| kind := audio; enabled := true; ended := false |}.

Definition with_signaling (s : RTCSignalingState) (loc rem : option string)
    (c : RTCPeerConnection) : RTCPeerConnection :=
  {| signalingState := s; connectionState := connectionState c;
     localDescription := loc; remoteDescription := rem;
     remoteCandidates := remoteCandidates c; senders := senders c |}.

(** A browser that follows the offer/answer state machine and a Firestore
    that accepts every write. *)
Definition cooperative : Env :=
  {| getUserMedia := Some [micTrack];
     destinationTrack := Some micTrack;
     newAudioWorkletNode := true;
     newVoiceActivityDetector := true;
     connectWithRNNoise := specChain;
     createOffer := λ c,
       if decide (signalingState c = sig_stable) then Some "offer" else None;
     createAnswer := λ c,
       if decide (signalingState c = have_remote_offer)
       then Some "answer" else None;
     setLocalDescription := λ c sdp,
       match signalingState c with
       | sig_stable =>
           Some (with_signaling have_local_offer (Some sdp)
                                (remoteDescription c) c)
       | have_remote_offer =>
           Some (with_signaling sig_stable (Some sdp) (remoteDescription c) c)
       | _ => None
       end;
     setRemoteDescription := λ c sdp,
       match signalingState c with
       | sig_stable =>
           Some (with_signaling have_remote_offer (localDescription c)
                                (Some sdp) c)
       | have_local_offer =>
           Some (with_signaling sig_stable (localDescription c) (Some sdp) c)
       | _ => None
       end;
     addIceCandidate := λ c cand,
       match remoteDescription c with
       | Some _ =>
           Some {| signalingState := signalingState c;
                   connectionState := connectionState c;
                   localDescription := localDescription c;
                   remoteDescription := remoteDescription c;
                   remoteCandidates := remoteCandidates c ++ [cand];
                   senders := senders c |}
       | None => None
       end;
     rejects := λ _, false |}.

(** The same, with the microphone refused. *)
Definition micDenied : Env :=
  {| getUserMedia := None;
     destinationTrack := destinationTrack cooperative;
     newAudioWorkletNode := true;
     newVoiceActivityDetector := true;
     connectWithRNNoise := specChain;
     createOffer := createOffer cooperative;
     createAnswer := createAnswer cooperative;
     setLocalDescription := setLocalDescription cooperative;
     setRemoteDescription := setRemoteDescription cooperative;
     addIceCandidate := addIceCandidate cooperative;
     rejects := λ _, false |}.

(** The options [Room.tsx] starts with, and the 'balanced' preset without
    and with [useRNNoise]. *)
Definition defaultOptions : AudioProcessingOptions :=
  {| useRNNoise := false; audioQuality := Some basic;
     highPassFilter := Some false; vadEnabled := Some false |}.

Definition balancedWithoutRNNoise : AudioProcessingOptions :=
  {| useRNNoise := false; audioQuality := Some balanced;
     highPassFilter := Some true; vadEnabled := Some true |}.

Definition balancedWithRNNoise : AudioProcessingOptions :=
  {| useRNNoise := true; audioQuality := Some balanced;
     highPassFilter := Some true; vadEnabled := Some true |}.

Definition alice : User := {| uid := "u1"; displayName := "Alice" |}.
Definition bob : User := {| uid := "u2"; displayName := "Bob" |}.

Definition rosterDoc (u : User) : RosterDoc :=
  {| r_id := uid u; r_displayName := displayName u; r_isMuted := false |}.

Definition aliceOffer : MessageDoc :=
  {| docId := "o1"; from := "u1"; payload := "offer" |}.
Definition bobAnswer : MessageDoc :=
  {| docId := "a1"; from := "u2"; payload := "answer" |}.
Definition bobCandidate : MessageDoc :=
  {| docId := "c1"; from := "u2"; payload := "candidate" |}.
Definition strayAnswer : MessageDoc :=
  {| docId := "a9"; from := "u9"; payload := "answer" |}.

(** Alice after a successful [join] of room "R". *)
Definition aliceJoined : World :=
  exec (joinEffect cooperative (Some "R") (Some alice)) (initial defaultOptions).

(** Alice after the roster showed her Bob: "u1" < "u2", she initiated. *)
Definition aliceOffered : World :=
  run cooperative (Some "R") (Some alice)
      [RosterSnapshot "R" [rosterDoc alice; rosterDoc bob]]
      (exec (joinEffect cooperative (Some "R") (Some alice))
            (initial defaultOptions)).

(** Alice's connection to Bob once she has sent her offer. *)
Definition aliceBobLink : PeerLink :=
  {| targetUserId := "u2";
     pc := {| signalingState := have_local_offer;
              connectionState := conn_new;
              localDescription := Some "offer";
              remoteDescription := None;
              remoteCandidates := [];
              senders := [1] |} |}.

(** Bob after joining, seeing the roster and receiving Alice's offer. *)
Definition bobAnswered : World :=
  run cooperative (Some "R") (Some bob)
      [RosterSnapshot "R" [rosterDoc alice; rosterDoc bob];
       MailboxSnapshot "R" "u2" incoming_offers [addedDoc aliceOffer]]
      (exec (joinEffect cooperative (Some "R") (Some bob))
            (initial defaultOptions)).

(** Alice after Bob's answer and one of his candidates arrived. *)
Definition aliceConnected : World :=
  run cooperative (Some "R") (Some alice)
      [MailboxSnapshot "R" "u1" incoming_answers [addedDoc bobAnswer];
       MailboxSnapshot "R" "u1" incoming_ice [addedDoc bobCandidate]]
      aliceOffered.


(** ** Leaving: the cleanup of the join effect

    The function the effect "Join Room Logic" returns, and the
    [beforeunload] handler.  The removal of the [<audio>] elements and the
    teardown of the audio nodes are not part of the embedding: they make
    no call on Firestore or on a connection, every step of them is inside
    its own [try], and [audioEdges] is the list of the connections that
    were made. *)

Definition with_ended (b : bool) (t : MediaStreamTrack) : MediaStreamTrack :=
  {| kind := kind t; enabled := enabled t; ended := b |}.

(** [l.forEach(x => ...)] with a synchronous callback. *)
Fixpoint forEach {A} (l : list A) (f : A → M unit) : M unit :=
  match l with
  | [] => mret ()
  | x :: l' => f x;; forEach l' f
  end.

(** [track.stop()] *)
Definition stop (t : nat) : M unit :=
  modify (λ w, set_tracks (alter (with_ended true) t (tracks w)) w).

(** Calling the function [onSnapshot] returned for [ref]. *)
Definition unsubscribe (ref : Ref) : M unit :=
  modify (λ w, set_subscriptions
                 (filter (λ s, sub_ref s ≠ ref) (subscriptions w)) w).

Section Leaving.

Variable E : Env.

Definition handleBeforeUnload (roomId : option string) (user : option User)
    : M unit :=
  match truthy roomId, user with
  | Some room, Some u =>
      detached (firestore E (deleteDoc (participantRef room (uid u))))
  | _, _ => mret ()
  end.

(** The effect returns before it defines a cleanup when [roomId] or
    [user] is missing.  [Object.entries] lists the connections in the
    order they were registered; here they come in the order of the map's
    keys. *)
Definition cleanup (roomId : option string) (user : option User) : M unit :=
  match truthy roomId, user with
  | Some room, Some u =>
      w ← get;
      match localStreamRef w with
      | Some stream => forEach stream stop
      | None => mret ()
      end;;
      w ← get;
      forEach (map_to_list (peerConnections w)) (λ entry, close entry.2);;
      modify (set_peerConnections ∅);;
      detached (firestore E (deleteDoc (participantRef room (uid u))));;
      modify (set_audioContextRef false);;
      unsubscribe (participantsCollection room);;
      unsubscribe (mailboxCollection room (uid u) incoming_offers);;
      unsubscribe (mailboxCollection room (uid u) incoming_answers);;
      unsubscribe (mailboxCollection room (uid u) incoming_ice)
  | _, _ => mret ()
  end.

End Leaving.

(** ** Who is speaking

    [isAudioSpeaking] and the part of [detectSpeaking] that keeps
    [speakingPeers].  The sum of the bins and their number are integers
    far below 2^53, so both are exact as JavaScript numbers; their
    quotient is compared with 10 as a rational number: it is either at
    most 10 or at least 10 + 1/bufferLength, and the rounding of the
    division cannot cross 10. *)

(** [analyser.frequencyBinCount] is half the FFT size. *)
Definition frequencyBinCount (a : AnalyserNode) : nat := fftSize a / 2.

Definition isAudioSpeaking (byteFrequencyData : AnalyserNode → list Z)
    (analyser : AnalyserNode) : bool :=
  let bufferLength := frequencyBinCount analyser in
  let dataArray := Uint8Array bufferLength (byteFrequencyData analyser) in
  let sum := fold_left Z.add dataArray 0%Z in
  match bufferLength with
  | 0 => false                 (* 0 / 0 is NaN, and NaN > 10 is false *)
  | S _ =>
      let average := (sum # Pos.of_nat bufferLength)%Q in
      if Qlt_le_dec 10 average then true else false
  end.

(** [currentlySpeaking] after the [forEach] over the analysers. *)
Definition currentlySpeaking (byteFrequencyData : AnalyserNode → list Z)
    (w : World) : gset string :=
  fold_left
    (λ speaking entry,
       if isAudioSpeaking byteFrequencyData entry.2
       then speaking ∪ {[entry.1]} else speaking)
    (map_to_list (analysers w)) ∅.

(** [prev.size === currentlySpeaking.size &&
     [...prev].every(value => currentlySpeaking.has(value))] *)
Definition isSame (prev speaking : gset string) : bool :=
  bool_decide (size prev = size speaking)
  && forallb (λ value, bool_decide (value ∈ speaking)) (elements prev).

(** The updater given to [setSpeakingPeers]. *)
Definition setSpeakingPeers (prev speaking : gset string) : gset string :=
  if isSame prev speaking then prev else speaking.

(** ** Further observations *)

(** [m], started in a world that satisfies [P], either returns a value
    [a] in a world that satisfies [Q a] or throws in a world that
    satisfies [R]. *)
Definition hoare {A} (P : World → Prop) (m : M A) (Q : A → World → Prop)
    (R : World → Prop) : Prop :=
  ∀ w, P w →
    match m w with
    | (Normal a, w') => Q a w'
    | (Throw, w') => R w'
    end.

(** The entry of the displayed roster made from a roster document. *)
Definition participantOf (doc : RosterDoc) : Participant :=
  {| p_id := r_id doc; p_displayName := r_displayName doc;
     p_isMuted := r_isMuted doc |}.

(** A roster document that gives the client [u] nothing to do: it is its
    own, it already has a connection, or its id is the smaller one. *)
Definition nothing_to_offer (u : User) (w : World) (doc : RosterDoc) : Prop :=
  r_id doc = uid u ∨ is_Some (peerConnections w !! r_id doc)
  ∨ JsString.lt (uid u) (r_id doc) = false.

(** The first audio track of [destination.stream], if it has one. *)
Definition destinationAudioTrack (E : Env) : option MediaStreamTrack :=
  match destinationTrack E with
  | Some d => if decide (kind d = audio) then Some d else None
  | None => None
  end.

(** The analyser [initLocalStream] registers for the local user, and
    [analysersRef.current] once it is registered. *)
Definition levelAnalyser : AnalyserNode :=
  {| analyser_of := None; fftSize := 2048 |}.

Definition withLevelAnalyser (user : option User)
    (an : gmap string AnalyserNode) : gmap string AnalyserNode :=
  match user with
  | Some u => <[uid u := levelAnalyser]> an
  | None => an
  end.

(** While [initLocalStream], started in [w0] with the captured tracks
    [ts], builds the graph: the tracks are those of [w0], the captured
    ones and the destination's; the one call was the microphone request;
    the local stream is the captured one. *)
Definition building (E : Env) (w0 : World) (ts : list MediaStreamTrack)
    (w : World) : Prop :=
  tracks w = (tracks w0 ++ ts) ++ option_list (destinationTrack E)
  ∧ calls w = calls w0 ++ [getUserMedia_call]
  ∧ analysers w = analysers w0
  ∧ localStreamRef w = Some (seq (length (tracks w0)) (length ts)).

(** When [initLocalStream] has returned [r]. *)
Definition built (E : Env) (user : option User) (w0 : World)
    (ts : list MediaStreamTrack) (r : option MediaStream) (w : World)
    : Prop :=
  ∃ s, r = Some s ∧ localStreamRef w = Some s
       ∧ tracks w = (tracks w0 ++ ts) ++ option_list (destinationTrack E)
       ∧ calls w = calls w0 ++ [getUserMedia_call]
       ∧ match destinationAudioTrack E with
         | Some _ =>
             s = [length (tracks w0 ++ ts)] ∧ audioContextRef w = true
             ∧ analysers w = withLevelAnalyser user (analysers w0)
         | None => s = seq (length (tracks w0)) (length ts)
         end.

(** The microphone source is connected, directly or through stages, to
    the destination whose track is sent. *)
Definition feeds (w : World) : Prop :=
  reach (audioEdges w) Source Destination.

(** The connections of [w] are those of [es0] followed by further ones. *)
Definition extends (es0 : list Edge) (w : World) : Prop :=
  ∃ es, audioEdges w = es0 ++ es.

(** The connections extend [es0] and the options are [o]. *)
Definition wired (es0 : list Edge) (o : AudioProcessingOptions) (w : World)
    : Prop :=
  extends es0 w ∧ audioOptions w = o.

(** The graph is the professional chain's: [es0] and the connections
    that [connectWithRNNoise] made. *)
Definition chainBuilt (E : Env) (o : AudioProcessingOptions)
    (es0 : list Edge) (w : World) : Prop :=
  ∃ es, useRNNoise o = true ∧ useProfessional o = true
        ∧ connectWithRNNoise E Source RNNoiseNode Destination
            (bool_decide (audioQuality o = Some ultra)) = Some es
        ∧ audioEdges w = es0 ++ es.

(** What is settled by [join] and read by everything after it: the
    options, the local stream, the connections of the audio graph, the
    audio context and the subscriptions. *)
Definition settled (w : World)
    : AudioProcessingOptions * option MediaStream * list Edge * bool
      * list Subscription :=
  (audioOptions w, localStreamRef w, audioEdges w, audioContextRef w,
   subscriptions w).

(** What [initLocalStream] leaves alone. *)
Definition outsideAudio (w : World)
    : AudioProcessingOptions * list Participant * bool * list PeerLink
      * gmap string nat * list Subscription * list Timer * Z :=
  (audioOptions w, participants w, isMuted w, pcs w, peerConnections w,
   subscriptions w, timers w, clock w).

(** The four collections the hook listens to, the four listeners [join]
    installs for them, and the presence record it writes. *)
Definition ownCollections (room : string) (u : User) : list Ref :=
  [participantsCollection room;
   mailboxCollection room (uid u) incoming_offers;
   mailboxCollection room (uid u) incoming_answers;
   mailboxCollection room (uid u) incoming_ice].

Definition ownSubscriptions (room : string) (u : User) (stream : MediaStream)
    : list Subscription :=
  (λ ref, {| sub_ref := ref; sub_room := room; sub_user := u;
             sub_stream := stream |})
  <$> ownCollections room u.

Definition presence (room : string) (u : User) : Call :=
  setDoc (participantRef room (uid u)) (displayName u) false.

(** The browser's methods that change a connection leave its senders as
    they are. *)
Definition keeps_senders (E : Env) : Prop :=
  ∀ c s c',
    setLocalDescription E c s = Some c' ∨ setRemoteDescription E c s = Some c'
    ∨ addIceCandidate E c s = Some c' →
    senders c' = senders c.

(** Every connection object sends the tracks of the stream [L]. *)
Definition sends (L : option MediaStream) (w : World) : Prop :=
  ∀ h l, pcs w !! h = Some l → Some (senders (pc l)) = L.

(** The connections of [ps] after [close] on each of [hs], and the tracks
    [ts] after [stop] on each of [stream]. *)
Definition closeAll (hs : list nat) (ps : list PeerLink) : list PeerLink :=
  foldl (λ ps h, alter (on_pc closed) h ps) ps hs.

Definition stopAll (stream : MediaStream) (ts : list MediaStreamTrack)
    : list MediaStreamTrack :=
  foldl (λ ts t, alter (with_ended true) t ts) ts stream.

(** The world after the cleanup of a hook with room [room] and user
    [u]. *)
Definition cleanedUp (room : string) (u : User) (w : World) : World :=
  let hs := (map_to_list (peerConnections w)).*2 in
  set_subscriptions
    (filter (λ s, sub_ref s ∉ ownCollections room u) (subscriptions w))
    (set_audioContextRef false
       (set_calls (calls w ++ (pc_close <$> hs)
                           ++ [deleteDoc (participantRef room (uid u))])
          (set_peerConnections ∅
             (set_pcs (closeAll hs (pcs w))
                (set_tracks
                   (stopAll (default [] (localStreamRef w)) (tracks w))
                   w))))).

(** Nothing is subscribed, no connection object is open and there is no
    audio context. *)
Definition released (w : World) : Prop :=
  subscriptions w = [] ∧ (∀ h l, pcs w !! h = Some l → ¬ live l)
  ∧ audioContextRef w = false.




(** A call that stays within what the client with room [room] and user
    [u] may touch in Firestore: its own presence record, the roster of
    its room and its own three mailboxes to listen to, the documents of
    its own mailboxes to delete, and, to write, messages in its room that
    carry its own uid as sender, an offer only for a larger id. *)
Definition ownWrite (room : string) (u : User) (c : Call) : bool :=
  match c with
  | setDoc ref _ _ | updateDoc ref _ =>
      bool_decide (ref = participantRef room (uid u))
  | deleteDoc (participantRef r i) => bool_decide (r = room ∧ i = uid u)
  | deleteDoc (mailboxDoc r owner _ _) =>
      bool_decide (r = room ∧ owner = uid u)
  | deleteDoc _ => false
  | addDoc (mailboxCollection r owner box) _ sender =>
      bool_decide (r = room ∧ sender = uid u)
      && match box with
         | incoming_offers => JsString.lt (uid u) owner
         | incoming_answers | incoming_ice => true
         end
  | addDoc _ _ _ => false
  | onSnapshot ref => bool_decide (ref ∈ ownCollections room u)
  | _ => true
  end.

(** Every call made so far is such a call. *)
Definition confined (room : string) (u : User) (w : World) : Prop :=
  Forall (λ c, ownWrite room u c = true) (calls w).

(** ** Further reference worlds *)

(** The cooperative browser, except that [createOffer] is rejected. *)
Definition offerRefused : Env :=
  {| getUserMedia := getUserMedia cooperative;
     destinationTrack := destinationTrack cooperative;
     newAudioWorkletNode := true;
     newVoiceActivityDetector := true;
     connectWithRNNoise := specChain;
     createOffer := λ _, None;
     createAnswer := createAnswer cooperative;
     setLocalDescription := setLocalDescription cooperative;
     setRemoteDescription := setRemoteDescription cooperative;
     addIceCandidate := addIceCandidate cooperative;
     rejects := λ _, false |}.


(** The timer started when Alice's connection to Bob fails at time 0. *)
Definition aliceTimer : Timer :=
  {| due := 3000; timer_pc := 0; timer_target := "u2" |}.

(** ** Two clients

    Firestore between two hooks.  What the listeners of a collection are
    shown for a call of another client: when Firestore [E] accepts an
    [addDoc] on a mailbox, one snapshot of that mailbox with one added
    document, stored under the generated id [id], that holds the sender
    and the payload that were written.  No other call shows in a
    mailbox. *)
Definition deliver (E : Env) (id : string) (c : Call) : list Event :=
  match c with
  | addDoc (mailboxCollection room owner box) payload sender =>
      if rejects E c then []
      else [MailboxSnapshot room owner box
              [addedDoc {| docId := id; from := sender;
                           payload := payload |}]]
  | _ => []
  end.

(** ** The connection monitor of [src/components/ConnectionMonitor.tsx]

    What the component renders, as a function of its props and of its
    state [stats], together with the way [Room.tsx] uses it.  Numbers are
    rationals.  [stats] only ever holds what [setStats] was given: an
    integer for [latency], a multiple of a tenth for [jitter]; for such
    values the sum [stats.latency + stats.jitter] of the doubles is below
    one of the integer thresholds exactly when the sum of the rationals
    is.  The loop that fills [stats] from [getStats()] is not embedded:
    its products and quotients are rounded. *)

Module ConnectionMonitor.

Record ConnectionStats := {
  latency : Q;
  jitter : Q;
  packetLoss : Q;
  bitrate : Q;
}.

Inductive ConnectionState := disconnected | connecting | connected.

(** The props; [connectionState] and [participantCount] are optional. *)
Record ConnectionMonitorProps := {
  peerConnection : option nat;
  isConnected : bool;
  connectionState : option ConnectionState;
  participantCount : option Q;
}.

(** [useState] starts [stats] with zeros. *)
Definition initialStats : ConnectionStats :=
  {| latency := 0; jitter := 0; packetLoss := 0; bitrate := 0 |}.

(** [x < y] and [x === y] on numbers. *)
Definition lessThan (x y : Q) : bool :=
  if Qlt_le_dec x y then true else false.
Definition strictEquals (x y : Q) : bool := Qeq_bool x y.

Definition getQualityColor (isConnected : bool) (stats : ConnectionStats)
    : string :=
  if negb isConnected then "text-gray-500"
  else if strictEquals (latency stats) 0 && strictEquals (bitrate stats) 0
  then "text-blue-400"
  else
    let totalDelay := (latency stats + jitter stats)%Q in
    if lessThan totalDelay 50 then "text-green-500"
    else if lessThan totalDelay 100 then "text-yellow-500"
    else if lessThan totalDelay 200 then "text-orange-500"
    else "text-red-500".

Definition getQualityLabel (isConnected : bool) (stats : ConnectionStats)
    : string :=
  if negb isConnected then "Disconnected"
  else if strictEquals (latency stats) 0 && strictEquals (bitrate stats) 0
  then "Measuring..."
  else
    let totalDelay := (latency stats + jitter stats)%Q in
    if lessThan totalDelay 50 then "Excellent"
    else if lessThan totalDelay 100 then "Good"
    else if lessThan totalDelay 200 then "Fair"
    else "Poor".

(** What is rendered: an icon with one line of text, or the panel with
    the quality, shown in its colour, and the numbers; the packet loss is
    shown only when it is positive. *)
Inductive View :=
  | Message (text : string)
  | Panel (color label : string) (latency jitter : Q) (loss : option Q)
          (bitrate : Q).

Definition ConnectionMonitor (props : ConnectionMonitorProps)
    (stats : ConnectionStats) : View :=
  let connectionState := default disconnected (connectionState props) in
  let participantCount := default 1%Q (participantCount props) in
  if Qle_bool participantCount 1 then Message "Waiting for others..."
  else
    match connectionState with
    | connecting => Message "Connecting..."
    | _ =>
        if negb (isConnected props) then Message "Connection Lost"
        else
          Panel (getQualityColor (isConnected props) stats)
                (getQualityLabel (isConnected props) stats)
                (latency stats) (jitter stats)
                (if lessThan 0 (packetLoss stats) then Some (packetLoss stats)
                 else None)
                (bitrate stats)
    end.

(** [<ConnectionMonitor peerConnection={activePeerConnection}
      isConnected={hasActiveConnection} />] in [Room.tsx]. *)
Definition inRoom (activePeerConnection : option nat)
    (hasActiveConnection : bool) : ConnectionMonitorProps :=
  {| peerConnection := activePeerConnection;
     isConnected := hasActiveConnection;
     connectionState := None;
     participantCount := None |}.

(** The four grades of a measured connection, best first. *)
Definition grade (label : string) : option nat :=
  if decide (label = "Excellent") then Some 0
  else if decide (label = "Good") then Some 1
  else if decide (label = "Fair") then Some 2
  else if decide (label = "Poor") then Some 3
  else None.

(** The colour that belongs to a label. *)
Definition colourOf (label : string) : string :=
  if decide (label = "Disconnected") then "text-gray-500"
  else if decide (label = "Measuring...") then "text-blue-400"
  else if decide (label = "Excellent") then "text-green-500"
  else if decide (label = "Good") then "text-yellow-500"
  else if decide (label = "Fair") then "text-orange-500"
  else "text-red-500".

End ConnectionMonitor.

(** * Facts *)

(** ** The comparison of ids is a strict total order *)

Section JsStringFacts.
Import JsString.

Lemma JsString_code_inj a b : code a = code b → a = b.
Proof.
  unfold code. intros H.
  rewrite <- (ascii_N_embedding a), <- (ascii_N_embedding b).
  by rewrite H.
Qed.

Lemma JsString_lt_irrefl x : lt x x = false.
Proof.
  induction x as [|a x IH]; simpl; [done|].
  by rewrite N.ltb_irrefl.
Qed.



Lemma JsString_lt_trans x :
  ∀ y z, lt x y = true → lt y z = true → lt x z = true.
Proof.
  induction x as [|a x IH]; intros [|b y] [|c z]; simpl; try done.
  destruct (N.ltb_spec (code a) (code b)), (N.ltb_spec (code b) (code a)),
    (N.ltb_spec (code b) (code c)), (N.ltb_spec (code c) (code b)),
    (N.ltb_spec (code a) (code c)), (N.ltb_spec (code c) (code a));
    try done; try lia.
  apply IH.
Qed.


Lemma append_empty s : "" +:+ s = s.
Proof. done. Qed.

Lemma append_cons c p s : String c p +:+ s = String c (p +:+ s).
Proof. done. Qed.

(** [lt] is the lexicographic order on code units: the two strings
    share a prefix after which the first ends and the second goes on, or
    after which the first has the smaller code unit. *)
Lemma JsString_lt_lexicographic x y :
  lt x y = true ↔
  ∃ p, (∃ c s, x = p ∧ y = p +:+ String c s)
       ∨ (∃ a b s t, x = p +:+ String a s ∧ y = p +:+ String b t
                     ∧ (code a < code b)%N).
Proof.
  revert y. induction x as [|a x IH]; intros [|b y]; simpl.
  - split; [done|].
    intros (p & [(c & s & Hx & Hy)|(a & b & s & t & Hx & Hy & _)]);
      destruct p; rewrite ?append_cons, ?append_empty in Hx;
        rewrite ?append_cons, ?append_empty in Hy; discriminate.
  - split; [|done]. intros _. exists "". left. by exists b, y.
  - split; [done|].
    intros (p & [(c & s & Hx & Hy)|(a' & b & s & t & Hx & Hy & _)]);
      destruct p; rewrite ?append_cons, ?append_empty in Hx;
        rewrite ?append_cons, ?append_empty in Hy; discriminate.
  - destruct (N.ltb_spec (code a) (code b)) as [Hab|Hab].
    { split; [|done]. intros _. exists "". right. by exists a, b, x, y. }
    destruct (N.ltb_spec (code b) (code a)) as [Hba|Hba].
    { split; [done|].
      intros (p & [(c & s & Hx & Hy)|(a' & b' & s & t & Hx & Hy & Hlt)]);
        destruct p as [|c' p]; rewrite ?append_cons, ?append_empty in Hx;
        rewrite ?append_cons, ?append_empty in Hy;
        simplify_eq; lia. }
    assert (a = b) as -> by (apply JsString_code_inj; lia).
    rewrite IH. split.
    + intros (p & [(c & s & -> & ->)|(a' & b' & s & t & -> & -> & Hlt)]).
      * exists (String b p). left. by exists c, s.
      * exists (String b p). right. by exists a', b', s, t.
    + intros (p & [(c & s & Hx & Hy)|(a' & b' & s & t & Hx & Hy & Hlt)]);
        destruct p as [|c' p]; rewrite ?append_cons, ?append_empty in Hx;
        rewrite ?append_cons, ?append_empty in Hy;
        simplify_eq; try lia.
      * exists p. left. by exists c, s.
      * exists p. right. by exists a', b', s, t.
Qed.

End JsStringFacts.

(** ** Running monadic code *)

Section Exec.
Context {A B : Type}.

Lemma exec_bind (m : M A) (f : A → M B) w :
  exec (m ≫= f) w =
    match m w with
    | (Normal a, w') => exec (f a) w'
    | (Throw, w') => w'
    end.
Proof. unfold exec, mbind, M_bind. by destruct (m w) as [[a|] w']. Qed.

Lemma exec_ret (a : A) w : exec (mret a : M A) w = w.
Proof. done. Qed.

Lemma exec_detached (m : M A) w : exec (detached m) w = exec m w.
Proof. done. Qed.

End Exec.

Lemma newCalls_app w w' cs : calls w' = calls w ++ cs → newCalls w w' = cs.
Proof. unfold newCalls. intros ->. by rewrite drop_app_length. Qed.

Lemma exec_firestore E c w :
  exec (firestore E c) w = set_calls (calls w ++ [c]) w.
Proof.
  unfold firestore, exec, call, modify, mbind, M_bind. simpl.
  by destruct (rejects E c).
Qed.

(** Unfold the monad on a goal that mentions a handler applied to a
    world. *)
Ltac run_monad :=
  unfold exec, result, firestore, pcMethod, pcQuery, call, detached,
    try_catch, modify, get, throw, mbind, M_bind, mret, M_ret in *;
  simpl in *.

(** ** Keeping an invariant through monadic code *)

Section Preserves.
Context {A B : Type} (I : World → Prop).

Lemma preserves_ret (a : A) : preserves I (mret a : M A).
Proof. by intros w. Qed.

Lemma preserves_throw : preserves I (throw : M A).
Proof. by intros w. Qed.

Lemma preserves_bind (m : M A) (f : A → M B) :
  preserves I m → (∀ a, preserves I (f a)) → preserves I (m ≫= f).
Proof.
  intros Hm Hf w Hw. rewrite exec_bind.
  specialize (Hm w Hw). unfold exec in Hm.
  destruct (m w) as [[a|] w']; simpl in *; [by apply Hf|done].
Qed.

Lemma preserves_get_bind (k : World → M B) :
  (∀ w, I w → I (exec (k w) w)) → preserves I (get ≫= k).
Proof. intros Hk w Hw. rewrite exec_bind. simpl. by apply Hk. Qed.

Lemma preserves_modify (f : World → World) :
  (∀ w, I w → I (f w)) → preserves I (modify f).
Proof. intros Hf w Hw. by apply Hf. Qed.

Lemma preserves_try_catch (body handler : M A) :
  preserves I body → preserves I handler → preserves I (try_catch body handler).
Proof.
  intros Hb Hh w Hw. specialize (Hb w Hw).
  unfold exec, try_catch in *.
  destruct (body w) as [[a|] w']; simpl in *; [done|by apply Hh].
Qed.

Lemma preserves_detached (m : M A) : preserves I m → preserves I (detached m).
Proof. intros Hm w Hw. by apply Hm. Qed.

End Preserves.

Lemma preserves_forM {A B} I (l : list A) (f : A → M B) :
  (∀ x, preserves I (f x)) → preserves I (forM l f).
Proof.
  intros Hf. induction l as [|x l IH]; simpl; [apply preserves_ret|].
  apply preserves_bind; [done|]. intros y.
  apply preserves_bind; [done|]. intros ys w Hw. done.
Qed.

Lemma preserves_forEach_async {A B} I (l : list A) (f : A → M B) :
  (∀ x, x ∈ l → preserves I (f x)) → preserves I (forEach_async l f).
Proof.
  induction l as [|x l IH]; intros Hf; simpl; [by intros w|].
  apply preserves_bind.
  - apply preserves_detached, Hf. left.
  - intros _. apply IH. intros y Hy. apply Hf. by right.
Qed.


Lemma preserves_firestore I E c : ignores_calls I → preserves I (firestore E c).
Proof. intros HI w Hw. rewrite exec_firestore. by apply HI. Qed.

Lemma preserves_pcQuery I c h op :
  ignores_calls I → preserves I (pcQuery c h op).
Proof.
  intros HI w Hw. unfold pcQuery. run_monad.
  destruct (pcs w !! h) as [l|]; simpl; [|by apply HI].
  destruct (op (pc l)); simpl; by apply HI.
Qed.

(** ** The bookkeeping invariant is kept *)

Lemma consistent_frame w w' :
  pcs w' = pcs w → peerConnections w' = peerConnections w →
  timers w' = timers w → consistent w → consistent w'.
Proof.
  intros Hp Hm Ht [H1 H2 H3].
  split; unfold timer_ok; rewrite ?Hp, ?Hm, ?Ht; done.
Qed.

Lemma consistent_ignores_calls : ignores_calls consistent.
Proof. intros w cs. by apply consistent_frame. Qed.

(** Replacing the object at [h] by one with the same target. *)
Lemma consistent_change w w' h l l' :
  consistent w →
  pcs w !! h = Some l → pcs w' !! h = Some l' →
  (∀ h', h' ≠ h → pcs w' !! h' = pcs w !! h') →
  targetUserId l' = targetUserId l →
  (live l' → peerConnections w !! targetUserId l = Some h) →
  peerConnections w' = peerConnections w →
  (∀ t, t ∈ timers w' → t ∈ timers w) →
  consistent w'.
Proof.
  intros [H1 H2 H3] Hh Hh' Hother Ht Hlive Hm Htm. split.
  - intros h1 l1 Hl1 Hlv. rewrite Hm.
    destruct (decide (h1 = h)) as [->|Hne].
    + rewrite Hh' in Hl1. injection Hl1 as <-. rewrite Ht. by apply Hlive.
    + rewrite Hother in Hl1 by done. by apply H1.
  - intros id h1. rewrite Hm. intros Hid.
    destruct (H2 id h1 Hid) as (l1 & Hl1 & Htl).
    destruct (decide (h1 = h)) as [->|Hne].
    + exists l'. split; [done|]. rewrite Ht. congruence.
    + exists l1. by rewrite Hother.
  - intros t Hin. destruct (H3 t (Htm t Hin)) as (l1 & Hl1 & Htl).
    unfold timer_ok.
    destruct (decide (timer_pc t = h)) as [Heq|Hne].
    + rewrite Heq in *. exists l'. split; [done|]. congruence.
    + exists l1. by rewrite Hother.
Qed.

Lemma consistent_create w id stream :
  consistent w → peerConnections w !! id = None →
  consistent (exec (createPeerConnection id stream) w)
  ∧ linked (length (pcs w)) (exec (createPeerConnection id stream) w).
Proof.
  intros [H1 H2 H3] Hnone. unfold createPeerConnection. run_monad.
  split; [split|]; simpl.
  - intros h l Hl Hlv.
    destruct (decide (h < length (pcs w))) as [Hlt|Hge].
    + rewrite lookup_app_l in Hl by done.
      specialize (H1 h l Hl Hlv).
      rewrite lookup_insert_ne; [done|]. intros Heq. subst id. congruence.
    + apply lookup_lt_Some in Hl as Hb. rewrite length_app in Hb. simpl in Hb.
      assert (h = length (pcs w)) as -> by lia.
      rewrite lookup_app_r, Nat.sub_diag in Hl by done.
      injection Hl as <-. simpl. apply lookup_insert_eq.
  - intros id' h. rewrite lookup_insert. case_decide as Hid.
    + intros [= <-]. subst id'. eexists. split.
      * by rewrite lookup_app_r, Nat.sub_diag.
      * done.
    + intros Hl. destruct (H2 id' h Hl) as (l & Hl' & Ht).
      exists l. split; [|done]. rewrite lookup_app_l; [done|].
      by eapply lookup_lt_Some.
  - intros t Hin. destruct (H3 t Hin) as (l & Hl & Ht).
    exists l. split; [|done]. simpl. rewrite lookup_app_l; [done|].
    by eapply lookup_lt_Some.
  - eexists. simpl. split.
    + by rewrite lookup_app_r, Nat.sub_diag.
    + simpl. apply lookup_insert_eq.
Qed.


Lemma list_lookup_alter_same {A} (f : A → A) (l : list A) i :
  alter f i l !! i = f <$> l !! i.
Proof. rewrite list_lookup_alter. by rewrite decide_True. Qed.

Lemma list_lookup_alter_other {A} (f : A → A) (l : list A) i j :
  j ≠ i → alter f i l !! j = l !! j.
Proof. intros Hne. apply list_lookup_alter_ne. congruence. Qed.

Lemma linked_of_lookup w id h :
  consistent w → peerConnections w !! id = Some h → linked h w.
Proof.
  intros Hc Hid. destruct (linked_target w Hc id h Hid) as (l & Hl & Ht).
  exists l. by rewrite Ht.
Qed.

Lemma timer_ok_change w w' t :
  (∀ h l, pcs w !! h = Some l →
          ∃ l', pcs w' !! h = Some l' ∧ targetUserId l' = targetUserId l) →
  timer_ok w t → timer_ok w' t.
Proof.
  intros Hk (l & Hl & Ht). destruct (Hk _ _ Hl) as (l' & Hl' & Ht').
  exists l'. split; [done|congruence].
Qed.

Lemma pcMethod_consistent c h op :
  preserves (λ w, consistent w ∧ linked h w) (pcMethod c h op).
Proof.
  intros w [Hc (l & Hl & Hm)]. unfold pcMethod. run_monad. rewrite Hl.
  destruct (op (pc l)) as [c'|]; simpl.
  - assert (Hlt : h < length (pcs w)) by (by eapply lookup_lt_Some).
    split.
    + eapply (consistent_change w _ h l (on_pc (λ _, c') l)); simpl; try done.
      * by apply list_lookup_insert_eq.
      * intros h' Hne. apply list_lookup_insert_ne. congruence.
    + exists (on_pc (λ _, c') l). simpl. split; [|done].
      by apply list_lookup_insert_eq.
  - split; [by apply consistent_ignores_calls|by exists l].
Qed.

Lemma pcs_inv_ignores_calls h :
  ignores_calls (λ w, consistent w ∧ linked h w).
Proof.
  intros w cs [Hc Hl]. split; [by apply consistent_ignores_calls|done].
Qed.

(** The grace callback on a timer whose captured id is the target of its
    captured connection. *)
Lemma graceCallback_consistent t w :
  consistent w → timer_ok w t → consistent (exec (graceCallback t) w).
Proof.
  intros Hc (l & Hl & Ht). unfold graceCallback, close. run_monad.
  rewrite Hl. case_decide as Hf; simpl; [|done].
  destruct Hc as [H1 H2 H3].
  assert (Hlv : live l) by (unfold live; by rewrite Hf).
  pose proof (H1 _ _ Hl Hlv) as Hmap.
  split; simpl.
  - intros h1 l1 Hl1 Hlv1.
    destruct (decide (h1 = timer_pc t)) as [->|Hne].
    + rewrite list_lookup_alter_same, Hl in Hl1. simpl in Hl1.
      injection Hl1 as <-. by destruct Hlv1.
    + rewrite list_lookup_alter_other in Hl1 by done.
      pose proof (H1 _ _ Hl1 Hlv1) as Hmap1.
      rewrite lookup_delete_ne; [done|].
      intros Heq. rewrite Ht, Heq in Hmap. congruence.
  - intros id h1 Hid.
    apply lookup_delete_Some in Hid as [Hne Hid].
    destruct (H2 _ _ Hid) as (l1 & Hl1 & Ht1).
    destruct (decide (h1 = timer_pc t)) as [->|Hne'].
    + rewrite list_lookup_alter_same, Hl1. simpl. eexists. split; [done|]. done.
    + exists l1. by rewrite list_lookup_alter_other.
  - intros t' Hin. eapply timer_ok_change; [|by apply H3].
    intros h1 l1 Hl1. simpl.
    destruct (decide (h1 = timer_pc t)) as [->|Hne'].
    + rewrite list_lookup_alter_same, Hl1. simpl. by eexists.
    + exists l1. by rewrite list_lookup_alter_other.
Qed.

Lemma exec_then_ret {A B} (m : M A) (b : B) w :
  exec (m ≫= λ _, mret b) w = exec m w.
Proof. rewrite exec_bind. unfold exec. by destruct (m w) as [[a|] w']. Qed.

Lemma createPeerConnection_eq id stream w :
  createPeerConnection id stream w
  = (Normal (length (pcs w)), exec (createPeerConnection id stream) w).
Proof. done. Qed.


Lemma preserves_bind_at {A B} (I : World → Prop) (m : M A) (f : A → M B) w :
  I (exec m w) → (∀ a, preserves I (f a)) → I (exec (m ≫= f) w).
Proof.
  intros Hm Hf. rewrite exec_bind. unfold exec in Hm.
  destruct (m w) as [[a|] w']; simpl in *; [by apply Hf|done].
Qed.

Lemma preserves_linked_elim {A} h (m : M A) w :
  preserves (λ w, consistent w ∧ linked h w) m →
  consistent w → linked h w → consistent (exec m w).
Proof. intros Hm Hc Hl. by apply (Hm w). Qed.

Section Listeners.
Variables (E : Env) (room : string) (u : User) (stream : MediaStream).

Lemma onRosterDoc_consistent doc :
  preserves consistent (onRosterDoc E room u stream doc).
Proof.
  intros w Hc. unfold onRosterDoc.
  rewrite exec_bind. simpl. rewrite exec_then_ret.
  destruct (bool_decide (r_id doc ≠ uid u)); simpl; [|done].
  case_bool_decide as Hnone; simpl; [|done].
  destruct (JsString.lt (uid u) (r_id doc)); [|done].
  rewrite exec_bind, createPeerConnection_eq.
  destruct (consistent_create w (r_id doc) stream Hc Hnone) as [Hc1 Hl1].
  apply (preserves_linked_elim (length (pcs w))); [|done..].
  apply preserves_bind.
  - apply preserves_pcQuery, pcs_inv_ignores_calls.
  - intros offer. apply preserves_bind.
    + apply pcMethod_consistent.
    + intros _. apply preserves_firestore, pcs_inv_ignores_calls.
Qed.

Lemma onRosterSnapshot_consistent docs :
  preserves consistent (onRosterSnapshot E room u stream docs).
Proof.
  apply preserves_bind.
  - apply preserves_forM. intros doc. apply onRosterDoc_consistent.
  - intros ps. apply preserves_modify. intros w. by apply consistent_frame.
Qed.

Lemma onOfferChange_consistent change :
  preserves consistent (onOfferChange E room u stream change).
Proof.
  intros w Hc. unfold onOfferChange.
  case_decide; [|done].
  rewrite exec_bind. simpl.
  apply preserves_bind_at;
    [|intros _; apply preserves_firestore, consistent_ignores_calls].
  case_bool_decide as Hnone; [|done].
  rewrite exec_bind, createPeerConnection_eq.
  destruct (consistent_create w (from (change_doc change)) stream Hc Hnone)
    as [Hc1 Hl1].
  apply (preserves_linked_elim (length (pcs w))); [|done..].
  apply preserves_try_catch; [|apply preserves_ret].
  apply preserves_bind; [apply pcMethod_consistent|]. intros _.
  apply preserves_bind;
    [apply preserves_pcQuery, pcs_inv_ignores_calls|]. intros answer.
  apply preserves_bind; [apply pcMethod_consistent|]. intros _.
  apply preserves_firestore, pcs_inv_ignores_calls.
Qed.

Lemma onAnswerChange_consistent change :
  preserves consistent (onAnswerChange E room u change).
Proof.
  intros w Hc. unfold onAnswerChange.
  case_decide; [|done].
  rewrite exec_bind. simpl.
  apply preserves_bind_at;
    [|intros _; apply preserves_firestore, consistent_ignores_calls].
  destruct (peerConnections w !! from (change_doc change)) as [h|] eqn:Hh;
    [|done].
  case_bool_decide; [|done].
  apply (preserves_linked_elim h); [|done|by eapply linked_of_lookup].
  apply preserves_try_catch; [apply pcMethod_consistent|apply preserves_ret].
Qed.

Lemma onIceChange_consistent change :
  preserves consistent (onIceChange E room u change).
Proof.
  intros w Hc. unfold onIceChange.
  case_decide; [|done].
  rewrite exec_bind. simpl.
  apply preserves_bind_at;
    [|intros _; apply preserves_firestore, consistent_ignores_calls].
  destruct (peerConnections w !! from (change_doc change)) as [h|] eqn:Hh;
    [|done].
  case_bool_decide; [|done].
  apply (preserves_linked_elim h); [|done|by eapply linked_of_lookup].
  apply preserves_try_catch; [apply pcMethod_consistent|apply preserves_ret].
Qed.

End Listeners.

Lemma onconnectionstatechange_consistent h :
  preserves consistent (onconnectionstatechange h).
Proof.
  intros w Hc. unfold onconnectionstatechange, setTimeout. run_monad.
  destruct (pcs w !! h) as [l|] eqn:Hl; [|done].
  destruct (connectionState (pc l)); simpl; try done.
  destruct Hc as [H1 H2 H3]. split; simpl; [done..|].
  intros t [Hin|Hin]%elem_of_app.
  - by apply H3.
  - apply list_elem_of_singleton in Hin as ->. by exists l.
Qed.

Lemma connectionStateChange_consistent h s :
  preserves consistent (connectionStateChange h s).
Proof.
  intros w Hc. unfold connectionStateChange.
  rewrite exec_bind. simpl.
  destruct (pcs w !! h) as [l|] eqn:Hl; [|done].
  case_bool_decide as Hlive; simpl; [|done].
  case_bool_decide as Hs; simpl; [|done].
  apply preserves_bind_at;
    [|intros _; apply preserves_detached, onconnectionstatechange_consistent].
  apply (consistent_change w _ h l (on_pc (with_connectionState s) l));
    simpl; try done.
  - by rewrite list_lookup_alter_same, Hl.
  - intros h' Hne. by apply list_lookup_alter_other.
  - intros _. by apply (live_linked w Hc).
Qed.

Lemma onicecandidate_consistent E roomId user h candidate :
  preserves consistent (onicecandidate E roomId user h candidate).
Proof.
  intros w Hc. unfold onicecandidate. rewrite exec_bind. simpl.
  destruct candidate, (truthy roomId), user, (pcs w !! h); try done.
  rewrite exec_detached, exec_firestore. by apply consistent_ignores_calls.
Qed.

Lemma ontrack_consistent h : preserves consistent (ontrack h).
Proof.
  intros w Hc. unfold ontrack. run_monad.
  destruct (pcs w !! h); [|done]. destruct (audioContextRef w); [|done].
  simpl. by eapply consistent_frame; [| | |exact Hc].
Qed.

Lemma toggleMute_consistent E roomId user :
  preserves consistent (toggleMute E roomId user).
Proof.
  intros w Hc. unfold toggleMute. rewrite exec_bind. simpl.
  destruct (localStreamRef w) as [stream|]; [|done].
  destruct (head (getAudioTracks w stream)) as [t|]; [|done].
  run_monad.
  destruct (truthy roomId), user; simpl; try done;
    try destruct (rejects E _); simpl;
    by eapply consistent_frame; [| | |exact Hc].
Qed.

Lemma graceCallback_timer_ok t t' w :
  timer_ok w t' → timer_ok (exec (graceCallback t) w) t'.
Proof.
  apply timer_ok_change. intros h l Hl.
  unfold graceCallback, close. run_monad.
  destruct (pcs w !! timer_pc t) as [l0|] eqn:Hl0; [|by exists l].
  case_decide; simpl; [|by exists l].
  destruct (decide (h = timer_pc t)) as [->|Hne].
  - rewrite list_lookup_alter_same, Hl. simpl. by eexists.
  - exists l. by rewrite list_lookup_alter_other.
Qed.

Lemma advance_consistent dt : preserves consistent (advance dt).
Proof.
  intros w Hc. unfold advance.
  rewrite exec_bind. simpl. rewrite exec_bind. simpl.
  rewrite exec_bind. simpl.
  set (w1 := set_clock (clock w + Z.of_N dt) w).
  set (due_now := filter (λ t, (due t ≤ clock w + Z.of_N dt)%Z) (timers w)).
  set (w2 := set_timers _ w1).
  assert (HJ : consistent w2 ∧ Forall (timer_ok w2) due_now).
  { destruct Hc as [H1 H2 H3]. split; [split|]; simpl; try done.
    - intros t [_ Hin]%list_elem_of_filter. by apply H3.
    - apply Forall_forall. intros t [_ Hin]%list_elem_of_filter. by apply H3. }
  assert (Hloop : preserves (λ w, consistent w ∧ Forall (timer_ok w) due_now)
                            (forEach_async due_now graceCallback)).
  { apply preserves_forEach_async. intros t Hin w' [Hc' Hok]. split.
    - apply graceCallback_consistent; [done|].
      by eapply Forall_forall in Hok.
    - eapply Forall_impl; [done|]. intros t'. apply graceCallback_timer_ok. }
  by apply (Hloop w2).
Qed.

Lemma dispatch_consistent E roomId user ev :
  preserves consistent (dispatch E roomId user ev).
Proof.
  destruct ev as [room docs|room owner box changes|h s|h c|h|dt|]; simpl.
  - apply preserves_get_bind. intros w Hc.
    apply preserves_forEach_async; [|done].
    intros s _. apply onRosterSnapshot_consistent.
  - apply preserves_get_bind. intros w Hc.
    apply preserves_forEach_async; [|done].
    intros s _. apply preserves_forEach_async. intros change _.
    destruct box; simpl.
    + apply onOfferChange_consistent.
    + apply onAnswerChange_consistent.
    + apply onIceChange_consistent.
  - apply connectionStateChange_consistent.
  - apply onicecandidate_consistent.
  - apply ontrack_consistent.
  - apply advance_consistent.
  - apply preserves_detached, toggleMute_consistent.
Qed.

Lemma run_preserves E roomId user (I : World → Prop) evs w :
  (∀ ev, preserves I (dispatch E roomId user ev)) →
  I w → I (run E roomId user evs w).
Proof.
  intros Hd. revert w. induction evs as [|ev evs IH]; intros w Hw; [done|].
  simpl. apply IH. by apply Hd.
Qed.

(** Among the objects of a list, at most one satisfies a property that
    pins down the index. *)
Lemma filter_at_most_one {A} (P : A → Prop) `{∀ x, Decision (P x)}
    (l : list A) :
  (∀ i j x y, l !! i = Some x → l !! j = Some y → P x → P y → i = j) →
  length (filter P l) ≤ 1.
Proof.
  induction l as [|x l IH]; intros Huniq; [simpl; lia|].
  rewrite filter_cons. case_decide as HP.
  - destruct (filter P l) as [|y k] eqn:Hf; [simpl; lia|].
    assert (Hy : y ∈ filter P l) by (rewrite Hf; left).
    apply list_elem_of_filter in Hy as [HPy Hy].
    apply list_elem_of_lookup in Hy as [j Hj].
    specialize (Huniq 0 (S j) x y eq_refl Hj HP HPy). lia.
  - apply IH. intros i j a b Hi Hj Ha Hb.
    specialize (Huniq (S i) (S j) a b Hi Hj Ha Hb). lia.
Qed.

Lemma consistent_liveLinks w id : consistent w → length (liveLinks id w) ≤ 1.
Proof.
  intros Hc. apply filter_at_most_one.
  intros i j x y Hi Hj [Hx Hlx] [Hy Hly].
  pose proof (live_linked w Hc _ _ Hi Hlx) as H1.
  pose proof (live_linked w Hc _ _ Hj Hly) as H2.
  rewrite Hx in H1. rewrite Hy in H2. congruence.
Qed.

Lemma preserves_get I : preserves I get.
Proof. by intros w. Qed.

Ltac preserve_step :=
  lazymatch goal with
  | |- preserves _ (mret _) => apply preserves_ret
  | |- preserves _ throw => apply preserves_throw
  | |- preserves _ get => apply preserves_get
  | |- preserves _ (modify _) =>
      apply preserves_modify; intros ? (? & ? & ?); repeat split; done
  | |- preserves _ (try_catch _ _) => apply preserves_try_catch
  | |- preserves _ (detached _) => apply preserves_detached
  | |- preserves _ (mbind _ _) => apply preserves_bind; [|intros ?]
  | |- preserves _ (match ?x with _ => _ end) => destruct x
  end.

Ltac preserve := repeat preserve_step.

Lemma initLocalStream_signaling E user ps m ts :
  preserves (signaling_is ps m ts) (initLocalStream E user).
Proof.
  unfold initLocalStream, enhancedGraph, fallbackGraph, useProcessedTrack,
    registerLocalAnalyser, allocTracks, connect, call.
  preserve.
Qed.

Lemma join_signaling E room u ps m ts :
  preserves (signaling_is ps m ts) (join E room u).
Proof.
  unfold join. apply preserves_bind; [apply initLocalStream_signaling|].
  intros [stream|]; [|apply preserves_ret].
  unfold subscribe, firestore, call. preserve.
Qed.

Lemma joinEffect_consistent E roomId user opts :
  consistent (exec (joinEffect E roomId user) (initial opts)).
Proof.
  assert (Hs : signaling_is [] ∅ []
                 (exec (joinEffect E roomId user) (initial opts))).
  { unfold joinEffect.
    destruct (truthy roomId), user; try done.
    rewrite exec_detached. by apply join_signaling. }
  destruct Hs as (Hp & Hm & Ht). split; unfold timer_ok; rewrite ?Hp, ?Hm, ?Ht.
  - intros h l Hl. by rewrite lookup_nil in Hl.
  - intros id h Hl. by rewrite lookup_empty in Hl.
  - intros t Hin. by apply elem_of_nil in Hin.
Qed.

(** ** The two-party handshake, run

    Alice ("u1") and Bob ("u2") join room "R" with a cooperative browser. *)

Example aliceJoined_calls :
  calls aliceJoined =
    [getUserMedia_call;
     setDoc (participantRef "R" "u1") "Alice" false;
     onSnapshot (participantsCollection "R");
     onSnapshot (mailboxCollection "R" "u1" incoming_offers);
     onSnapshot (mailboxCollection "R" "u1" incoming_answers);
     onSnapshot (mailboxCollection "R" "u1" incoming_ice)].
Proof. vm_compute. reflexivity. Qed.

Example bob_answers :
  newCalls (exec (joinEffect cooperative (Some "R") (Some bob))
                 (initial defaultOptions)) bobAnswered
  = [pc_setRemoteDescription 0 "offer"; pc_createAnswer 0;
     pc_setLocalDescription 0 "answer";
     addDoc (mailboxCollection "R" "u1" incoming_answers) "answer" "u2";
     deleteDoc (mailboxDoc "R" "u2" incoming_offers "o1")]
  ∧ (signalingState <$> (pc <$> pcs bobAnswered !! 0)) = Some sig_stable.
Proof. vm_compute. done. Qed.

Example alice_connects :
  newCalls aliceOffered aliceConnected
  = [pc_setRemoteDescription 0 "answer";
     deleteDoc (mailboxDoc "R" "u1" incoming_answers "a1");
     pc_addIceCandidate 0 "candidate";
     deleteDoc (mailboxDoc "R" "u1" incoming_ice "c1")]
  ∧ pc <$> pcs aliceConnected !! 0
    = Some {| signalingState := sig_stable; connectionState := conn_new;
              localDescription := Some "offer";
              remoteDescription := Some "answer";
              remoteCandidates := ["candidate"]; senders := [1] |}
  ∧ length (participants aliceConnected) = 2.
Proof. vm_compute. done. Qed.

(** A candidate that arrives before the answer is dropped, not applied. *)
Example early_candidate_dropped :
  newCalls aliceOffered
    (exec (onIceChange cooperative "R" alice (addedDoc bobCandidate))
          aliceOffered)
  = [deleteDoc (mailboxDoc "R" "u1" incoming_ice "c1")].
Proof. vm_compute. done. Qed.

(** ** The answers listener *)

Section AnswerListener.
Variables (E : Env) (room : string) (u : User) (doc : MessageDoc).

Let del := deleteDoc (mailboxDoc room (uid u) incoming_answers (docId doc)).

Lemma onAnswerChange_discard w :
  (∀ h, ¬ answerExpected w doc h) →
  exec (onAnswerChange E room u (addedDoc doc)) w
  = set_calls (calls w ++ [del]) w.
Proof.
  intros Hno. unfold onAnswerChange. simpl.
  rewrite exec_bind. simpl.
  destruct (peerConnections w !! from doc) as [h|] eqn:Hm.
  - rewrite bool_decide_eq_false_2.
    2:{ intros Hs. by apply (Hno h). }
    rewrite exec_bind. simpl. apply exec_firestore.
  - rewrite exec_bind. simpl. apply exec_firestore.
Qed.

Lemma onAnswerChange_apply w h l :
  peerConnections w !! from doc = Some h →
  pcs w !! h = Some l →
  signalingState (pc l) = have_local_offer →
  exec (onAnswerChange E room u (addedDoc doc)) w =
    set_calls (calls w ++ [pc_setRemoteDescription h (payload doc); del])
      (match setRemoteDescription E (pc l) (payload doc) with
       | Some c' => set_pcs (<[h := on_pc (λ _, c') l]> (pcs w)) w
       | None => w
       end).
Proof.
  intros Hm Hh Hs. unfold onAnswerChange. simpl.
  rewrite exec_bind. simpl. rewrite Hm, Hh. simpl.
  rewrite bool_decide_eq_true_2 by congruence.
  rewrite exec_bind.
  run_monad. rewrite Hh.
  destruct (setRemoteDescription E (pc l) (payload doc)); simpl;
    destruct (rejects E _); simpl; unfold set_calls, set_pcs; simpl;
    by rewrite <- app_assoc.
Qed.

Lemma answerExpected_cases w :
  (∃ h l, peerConnections w !! from doc = Some h ∧ pcs w !! h = Some l
          ∧ signalingState (pc l) = have_local_offer)
  ∨ (∀ h, ¬ answerExpected w doc h).
Proof.
  unfold answerExpected.
  destruct (peerConnections w !! from doc) as [h|] eqn:Hm;
    [|right; intros h [? _]; done].
  destruct (pcs w !! h) as [l|] eqn:Hh;
    [|right; intros h' [[= <-] Hs]; by rewrite Hh in Hs].
  destruct (decide (signalingState (pc l) = have_local_offer)) as [Hs|Hs].
  - left. eauto.
  - right. intros h' [[= <-] Hs']. rewrite Hh in Hs'. simpl in Hs'. congruence.
Qed.

End AnswerListener.

(** C3. Stale-answer rejection.  For an answer added to the mailbox,
    [setRemoteDescription] is called exactly when the sender has a
    connection whose signaling state is 'have-local-offer', and then with
    the answer's own description; in every other case the world is left as
    it was but for the delete in the call log; and the last call the
    listener makes is always the delete of the answer document. *)
Theorem C3_stale_answer_rejection (E : Env) (room : string) (u : User)
    (doc : MessageDoc) (w : World) :
  let w' := exec (onAnswerChange E room u (addedDoc doc)) w in
  let del := deleteDoc (mailboxDoc room (uid u) incoming_answers (docId doc)) in
  (∀ h sdp, pc_setRemoteDescription h sdp ∈ newCalls w w'
            ↔ answerExpected w doc h ∧ sdp = payload doc)
  ∧ ((∀ h, ¬ answerExpected w doc h) → w' = set_calls (calls w ++ [del]) w)
  ∧ last (newCalls w w') = Some del.
Proof.
  intros w' del.
  destruct (answerExpected_cases doc w) as [(h & l & Hm & Hh & Hs)|Hno].
  - assert (Hnew : newCalls w w'
                   = [pc_setRemoteDescription h (payload doc); del]).
    { subst w'. rewrite (onAnswerChange_apply E room u doc w h l) by done.
      apply newCalls_app. by destruct (setRemoteDescription E _ _). }
    split_and!.
    + intros h' sdp. rewrite Hnew. unfold answerExpected. rewrite Hm.
      split.
      * intros Hin. apply elem_of_cons in Hin as [Heq|Hin].
        { injection Heq as -> ->. by rewrite Hh, <- Hs. }
        apply elem_of_cons in Hin as [Heq|Hin]; [done|].
        by apply elem_of_nil in Hin.
      * intros [[[= <-] _] ->]. left.
    + intros Hno. exfalso. apply (Hno h). split; [done|]. by rewrite Hh, <- Hs.
    + by rewrite Hnew.
  - assert (Hw' : w' = set_calls (calls w ++ [del]) w)
      by (by apply onAnswerChange_discard).
    assert (Hnew : newCalls w w' = [del])
      by (apply newCalls_app; by rewrite Hw').
    split_and!; [|done|by rewrite Hnew].
    intros h sdp. rewrite Hnew. split.
    + intros Hin. apply elem_of_cons in Hin as [Heq|Hin]; [done|].
      by apply elem_of_nil in Hin.
    + intros [Hx _]. by apply Hno in Hx.
Qed.

(** ** The ICE listener *)

Section IceListener.
Variables (E : Env) (room : string) (u : User) (doc : MessageDoc).

Let del := deleteDoc (mailboxDoc room (uid u) incoming_ice (docId doc)).

Lemma onIceChange_drop w :
  (∀ h, ¬ candidateAccepted w doc h) →
  exec (onIceChange E room u (addedDoc doc)) w
  = set_calls (calls w ++ [del]) w.
Proof.
  intros Hno. unfold onIceChange. simpl.
  rewrite exec_bind. simpl.
  destruct (peerConnections w !! from doc) as [h|] eqn:Hm.
  - rewrite bool_decide_eq_false_2.
    2:{ intros Hs. by apply (Hno h). }
    rewrite exec_bind. simpl. apply exec_firestore.
  - rewrite exec_bind. simpl. apply exec_firestore.
Qed.

Lemma onIceChange_apply w h l :
  peerConnections w !! from doc = Some h →
  pcs w !! h = Some l →
  is_Some (remoteDescription (pc l)) →
  exec (onIceChange E room u (addedDoc doc)) w =
    set_calls (calls w ++ [pc_addIceCandidate h (payload doc); del])
      (match addIceCandidate E (pc l) (payload doc) with
       | Some c' => set_pcs (<[h := on_pc (λ _, c') l]> (pcs w)) w
       | None => w
       end).
Proof.
  intros Hm Hh Hs. unfold onIceChange. simpl.
  rewrite exec_bind. simpl. rewrite Hm, Hh. simpl.
  rewrite bool_decide_eq_true_2 by done.
  rewrite exec_bind.
  run_monad. rewrite Hh.
  destruct (addIceCandidate E (pc l) (payload doc)); simpl;
    destruct (rejects E _); simpl; unfold set_calls, set_pcs; simpl;
    by rewrite <- app_assoc.
Qed.

Lemma candidateAccepted_cases w :
  (∃ h l, peerConnections w !! from doc = Some h ∧ pcs w !! h = Some l
          ∧ is_Some (remoteDescription (pc l)))
  ∨ (∀ h, ¬ candidateAccepted w doc h).
Proof.
  unfold candidateAccepted.
  destruct (peerConnections w !! from doc) as [h|] eqn:Hm;
    [|right; intros h [? _]; done].
  destruct (pcs w !! h) as [l|] eqn:Hh;
    [|right; intros h' [[= <-] Hs]; rewrite Hh in Hs;
      by apply is_Some_None in Hs].
  destruct (remoteDescription (pc l)) as [d|] eqn:Hd.
  - left. exists h, l. rewrite Hd. eauto.
  - right. intros h' [[= <-] Hs']. rewrite Hh in Hs'. simpl in Hs'.
    rewrite Hd in Hs'. by apply is_Some_None in Hs'.
Qed.

End IceListener.

(** C4. Candidate gating.  For a candidate added to the mailbox,
    [addIceCandidate] is called exactly when the sender has a connection
    whose remote description is set, and then with that candidate; in
    every other case the world is left as it was but for the delete in the
    call log; the listener completes normally unless Firestore rejects the
    delete; and its last call is always the delete of the candidate
    document. *)
Theorem C4_candidate_gating (E : Env) (room : string) (u : User)
    (doc : MessageDoc) (w : World) :
  let w' := exec (onIceChange E room u (addedDoc doc)) w in
  let del := deleteDoc (mailboxDoc room (uid u) incoming_ice (docId doc)) in
  (∀ h c, pc_addIceCandidate h c ∈ newCalls w w'
          ↔ candidateAccepted w doc h ∧ c = payload doc)
  ∧ ((∀ h, ¬ candidateAccepted w doc h) → w' = set_calls (calls w ++ [del]) w)
  ∧ result (onIceChange E room u (addedDoc doc)) w
    = (if rejects E del then Throw else Normal ())
  ∧ last (newCalls w w') = Some del.
Proof.
  intros w' del.
  assert (Hres : result (onIceChange E room u (addedDoc doc)) w
                 = (if rejects E del then Throw else Normal ())).
  { unfold onIceChange. run_monad. subst del.
    destruct (peerConnections w !! from doc) as [h|]; simpl.
    - case_bool_decide; simpl; [|by destruct (rejects E _)].
      destruct (pcs w !! h) as [l|]; simpl; [|by destruct (rejects E _)].
      destruct (addIceCandidate E (pc l) (payload doc)); simpl;
        by destruct (rejects E _).
    - by destruct (rejects E _). }
  destruct (candidateAccepted_cases doc w) as [(h & l & Hm & Hh & Hs)|Hno].
  - assert (Hnew : newCalls w w' = [pc_addIceCandidate h (payload doc); del]).
    { subst w'. rewrite (onIceChange_apply E room u doc w h l) by done.
      apply newCalls_app. by destruct (addIceCandidate E _ _). }
    split_and!; [|..|done|by rewrite Hnew].
    + intros h' c. rewrite Hnew. unfold candidateAccepted. rewrite Hm.
      split.
      * intros Hin. apply elem_of_cons in Hin as [Heq|Hin].
        { injection Heq as -> ->. by rewrite Hh. }
        apply elem_of_cons in Hin as [Heq|Hin]; [done|].
        by apply elem_of_nil in Hin.
      * intros [[[= <-] _] ->]. left.
    + intros Hno. exfalso. apply (Hno h). split; [done|]. by rewrite Hh.
  - assert (Hw' : w' = set_calls (calls w ++ [del]) w)
      by (by apply onIceChange_drop).
    assert (Hnew : newCalls w w' = [del])
      by (apply newCalls_app; by rewrite Hw').
    split_and!; [|done|done|by rewrite Hnew].
    intros h c. rewrite Hnew. split.
    + intros Hin. apply elem_of_cons in Hin as [Heq|Hin]; [done|].
      by apply elem_of_nil in Hin.
    + intros [Hx _]. by apply Hno in Hx.
Qed.

(** C9. Unknown sender.  When the sender of an answer, or of a
    candidate, has no entry in [peerConnections.current], the listener
    makes one call, the delete of the document, changes nothing else, and
    completes normally unless Firestore rejects that delete. *)
Theorem C9_unknown_sender (E : Env) (room : string) (u : User)
    (doc : MessageDoc) (w : World) :
  peerConnections w !! from doc = None →
  let delAnswer :=
    deleteDoc (mailboxDoc room (uid u) incoming_answers (docId doc)) in
  let delIce := deleteDoc (mailboxDoc room (uid u) incoming_ice (docId doc)) in
  (exec (onAnswerChange E room u (addedDoc doc)) w
     = set_calls (calls w ++ [delAnswer]) w
   ∧ result (onAnswerChange E room u (addedDoc doc)) w
     = (if rejects E delAnswer then Throw else Normal ()))
  ∧ (exec (onIceChange E room u (addedDoc doc)) w
       = set_calls (calls w ++ [delIce]) w
     ∧ result (onIceChange E room u (addedDoc doc)) w
       = (if rejects E delIce then Throw else Normal ())).
Proof.
  intros Hnone delAnswer delIce. split_and!.
  - apply onAnswerChange_discard. intros h [Hm _]. congruence.
  - unfold onAnswerChange. run_monad. rewrite Hnone. simpl.
    subst delAnswer. by destruct (rejects E _).
  - apply onIceChange_drop. intros h [Hm _]. congruence.
  - unfold onIceChange. run_monad. rewrite Hnone. simpl.
    subst delIce. by destruct (rejects E _).
Qed.

Lemma C9_unknown_sender_witness :
  exec (onAnswerChange cooperative "R" alice (addedDoc strayAnswer)) aliceOffered
  = set_calls (calls aliceOffered
               ++ [deleteDoc (mailboxDoc "R" "u1" incoming_answers "a9")])
              aliceOffered.
Proof.
  apply (C9_unknown_sender cooperative "R" alice strayAnswer aliceOffered).
  vm_compute. reflexivity.
Defined.
(** ** The two creation paths *)

Section Creation.
Variables (E : Env) (room : string) (u : User) (stream : MediaStream).

Lemma onRosterDoc_present doc w :
  is_Some (peerConnections w !! r_id doc) →
  exec (onRosterDoc E room u stream doc) w = w.
Proof.
  intros [h Hh]. unfold onRosterDoc. rewrite exec_bind. simpl.
  rewrite exec_then_ret.
  rewrite (bool_decide_eq_false_2 (_ = None)) by congruence.
  by rewrite andb_false_r.
Qed.

Lemma onRosterDoc_waits doc w :
  JsString.lt (uid u) (r_id doc) = false →
  exec (onRosterDoc E room u stream doc) w = w.
Proof.
  intros Hlt. unfold onRosterDoc. rewrite exec_bind. simpl.
  rewrite exec_then_ret, Hlt. by destruct (_ && _).
Qed.

Lemma onRosterDoc_self doc w :
  r_id doc = uid u → exec (onRosterDoc E room u stream doc) w = w.
Proof.
  intros Heq. apply onRosterDoc_waits. rewrite Heq.
  apply JsString_lt_irrefl.
Qed.

Lemma onRosterDoc_initiates doc w :
  peerConnections w !! r_id doc = None →
  JsString.lt (uid u) (r_id doc) = true →
  exec (onRosterDoc E room u stream doc) w
  = exec (offerTo E room u doc (length (pcs w)))
         (exec (createPeerConnection (r_id doc) stream) w).
Proof.
  intros Hnone Hlt. unfold onRosterDoc. rewrite exec_bind. simpl.
  rewrite exec_then_ret, Hlt.
  rewrite (bool_decide_eq_true_2 (_ = None)) by done.
  rewrite bool_decide_eq_true_2.
  2:{ intros Heq. rewrite Heq, JsString_lt_irrefl in Hlt. done. }
  simpl. by rewrite exec_bind, createPeerConnection_eq.
Qed.

(** The offer chain keeps the registration and starts by asking for an
    offer. *)
Lemma offerTo_calls doc h w :
  peerConnections (exec (offerTo E room u doc h) w) = peerConnections w
  ∧ ∃ cs, calls (exec (offerTo E room u doc h) w) = calls w ++ pc_createOffer h :: cs.
Proof.
  unfold offerTo. run_monad.
  destruct (pcs w !! h) as [l|] eqn:Hl; simpl;
    [destruct (createOffer E (pc l)) as [offer|]; simpl; rewrite ?Hl;
     [destruct (setLocalDescription E (pc l) offer) as [c'|]; simpl;
      [destruct (rejects E _); simpl|]|]|].
  all: split; [done|]; eexists; rewrite <- ?app_assoc; reflexivity.
Qed.

Lemma onRosterDoc_idempotent doc w :
  exec (onRosterDoc E room u stream doc)
       (exec (onRosterDoc E room u stream doc) w)
  = exec (onRosterDoc E room u stream doc) w.
Proof.
  destruct (peerConnections w !! r_id doc) as [h|] eqn:Hh.
  { rewrite !onRosterDoc_present; by rewrite ?onRosterDoc_present. }
  destruct (JsString.lt (uid u) (r_id doc)) eqn:Hlt.
  - rewrite (onRosterDoc_initiates doc w) by done.
    apply onRosterDoc_present.
    destruct (offerTo_calls doc (length (pcs w))
                (exec (createPeerConnection (r_id doc) stream) w))
      as [-> _].
    unfold createPeerConnection. run_monad. by rewrite lookup_insert_eq.
  - by rewrite !onRosterDoc_waits.
Qed.

Lemma onOfferChange_present doc w :
  is_Some (peerConnections w !! from doc) →
  exec (onOfferChange E room u stream (addedDoc doc)) w
  = set_calls (calls w ++ [deleteDoc (mailboxDoc room (uid u) incoming_offers
                                                 (docId doc))]) w.
Proof.
  intros [h Hh]. unfold onOfferChange. simpl. rewrite exec_bind. simpl.
  rewrite bool_decide_eq_false_2 by congruence.
  rewrite exec_bind. simpl. apply exec_firestore.
Qed.

End Creation.

(** C2. One connection per remote id.  In every world reached from a
    freshly mounted hook, each remote id has at most one connection
    object that is not closed.  A roster entry for an id that already has
    a connection changes nothing, handling the same roster entry twice is
    the same as handling it once, and an offer from an id that already has
    a connection only gets its document deleted. *)
Theorem C2_one_connection_per_peer (E : Env) (roomId : option string)
    (user : option User) (opts : AudioProcessingOptions) (evs : list Event) :
  let w := run E roomId user evs
             (exec (joinEffect E roomId user) (initial opts)) in
  (∀ id, length (liveLinks id w) ≤ 1)
  ∧ (∀ room u stream doc,
       is_Some (peerConnections w !! r_id doc) →
       exec (onRosterDoc E room u stream doc) w = w)
  ∧ (∀ room u stream doc,
       exec (onRosterDoc E room u stream doc)
            (exec (onRosterDoc E room u stream doc) w)
       = exec (onRosterDoc E room u stream doc) w)
  ∧ (∀ room u stream doc,
       is_Some (peerConnections w !! from doc) →
       exec (onOfferChange E room u stream (addedDoc doc)) w
       = set_calls
           (calls w ++ [deleteDoc (mailboxDoc room (uid u) incoming_offers
                                              (docId doc))]) w).
Proof.
  intros w. split_and!.
  - intros id. apply consistent_liveLinks. subst w.
    apply run_preserves; [apply dispatch_consistent|].
    apply joinEffect_consistent.
  - intros room u stream doc. apply onRosterDoc_present.
  - intros room u stream doc. apply onRosterDoc_idempotent.
  - intros room u stream doc. apply onOfferChange_present.
Qed.

(** ** Who initiates *)




(** ** Connectivity failure and the grace timer *)

Lemma connectionStateChange_failed h l w :
  pcs w !! h = Some l → live l →
  exec (connectionStateChange h conn_failed) w
  = set_timers (timers w ++ [graceTimer w h l])
      (set_calls (calls w ++ [setTimeout_call grace_period h])
         (set_pcs (alter (on_pc (with_connectionState conn_failed)) h (pcs w))
                  w)).
Proof.
  intros Hl Hlive. unfold connectionStateChange, onconnectionstatechange,
    setTimeout. run_monad. rewrite Hl.
  rewrite bool_decide_eq_true_2 by done. simpl.
  rewrite list_lookup_alter_same, Hl. simpl. done.
Qed.


Lemma graceCallback_failed t l w :
  pcs w !! timer_pc t = Some l → connectionState (pc l) = conn_failed →
  exec (graceCallback t) w
  = set_peerConnections (delete (timer_target t) (peerConnections w))
      (set_pcs (alter (on_pc closed) (timer_pc t) (pcs w))
         (set_calls (calls w ++ [pc_close (timer_pc t)]) w)).
Proof.
  intros Hl Hf. unfold graceCallback, close. run_monad. rewrite Hl.
  by rewrite decide_True.
Qed.

Lemma graceCallback_recovered t l w :
  pcs w !! timer_pc t = Some l → connectionState (pc l) ≠ conn_failed →
  exec (graceCallback t) w = w.
Proof.
  intros Hl Hf. unfold graceCallback. run_monad. rewrite Hl.
  by rewrite decide_False.
Qed.

(** A callback that is for another connection, or finds [h] not failed,
    leaves [h] and its registration alone. *)
Lemma graceCallback_holds t h l w :
  consistent w → timer_ok w t →
  timer_pc t ≠ h ∨ connectionState (pc l) ≠ conn_failed →
  holds h l w → holds h l (exec (graceCallback t) w).
Proof.
  intros Hc (l' & Hl' & Ht) Hor [Hl Hm].
  destruct (decide (connectionState (pc l') = conn_failed)) as [Hf|Hf].
  2:{ by rewrite (graceCallback_recovered t l'). }
  assert (Hne : timer_pc t ≠ h).
  { destruct Hor as [|Hnf]; [done|]. intros Heq. rewrite Heq in Hl'. congruence. }
  rewrite (graceCallback_failed t l') by done.
  split; simpl.
  - rewrite list_lookup_alter_other; [done|congruence].
  - rewrite lookup_delete_ne; [done|].
    rewrite <- Ht. intros Heq.
    assert (Hlv : live l') by (unfold live; by rewrite Hf).
    pose proof (live_linked w Hc _ _ Hl' Hlv) as Hm'.
    rewrite Heq in Hm'. congruence.
Qed.

Lemma forEach_graceCallback_holds ts h l w :
  consistent w → Forall (timer_ok w) ts →
  Forall (λ t, timer_pc t ≠ h ∨ connectionState (pc l) ≠ conn_failed) ts →
  holds h l w →
  let w' := exec (forEach_async ts graceCallback) w in
  consistent w' ∧ holds h l w'.
Proof.
  revert w. induction ts as [|t ts IH]; intros w Hc Hok Hts Hh; [done|].
  simpl. rewrite exec_bind. simpl.
  inversion Hok as [|? ? Hok1 Hok2]; subst.
  inversion Hts as [|? ? Hts1 Hts2]; subst.
  apply IH.
  - by apply graceCallback_consistent.
  - eapply Forall_impl; [exact Hok2|]. intros t'. apply graceCallback_timer_ok.
  - done.
  - by apply graceCallback_holds.
Qed.

Lemma exec_advance dt w :
  exec (advance dt) w
  = exec (forEach_async
            (filter (λ t, (due t ≤ clock w + Z.of_N dt)%Z) (timers w))
            graceCallback)
         (set_timers
            (filter (λ t, ¬ (due t ≤ clock w + Z.of_N dt)%Z) (timers w))
            (set_clock (clock w + Z.of_N dt) w)).
Proof. unfold advance. by rewrite !exec_bind. Qed.

Lemma exec_forEach_async_app {A B} (l1 l2 : list A) (f : A → M B) w :
  exec (forEach_async (l1 ++ l2) f) w
  = exec (forEach_async l2 f) (exec (forEach_async l1 f) w).
Proof.
  revert w. induction l1 as [|x l1 IH]; intros w; [done|].
  simpl. rewrite !exec_bind. simpl. apply IH.
Qed.

Lemma exec_forEach_async_one {A B} (x : A) (f : A → M B) w :
  exec (forEach_async [x] f) w = exec (f x) w.
Proof. simpl. by rewrite exec_bind. Qed.


Section Grace.
Variables (w : World) (h : nat) (l : PeerLink).
Hypothesis Hc : consistent w.
Hypothesis Hl : pcs w !! h = Some l.
Hypothesis Hlive : live l.
Hypothesis Hfresh : Forall (λ t, timer_pc t ≠ h) (timers w).

Let failing := exec (connectionStateChange h conn_failed) w.
Let lf := on_pc (with_connectionState conn_failed) l.

Lemma failing_consistent : consistent failing.
Proof. by apply connectionStateChange_consistent. Qed.

Lemma failing_holds : holds h lf failing.
Proof.
  unfold failing. rewrite (connectionStateChange_failed h l) by done.
  split; simpl.
  - by rewrite list_lookup_alter_same, Hl.
  - by apply (live_linked w Hc).
Qed.

Lemma failing_timers : timers failing = timers w ++ [graceTimer w h l].
Proof.
  unfold failing. by rewrite (connectionStateChange_failed h l).
Qed.

Lemma failing_clock : clock failing = clock w.
Proof.
  unfold failing. by rewrite (connectionStateChange_failed h l).
Qed.


(** The failure lasts: when the timer is due the connection is closed
    and unregistered, and that is the last thing done. *)
Lemma grace_expired dt :
  (grace_period ≤ Z.of_N dt)%Z →
  let w2 := exec (advance dt) failing in
  pcs w2 !! h = Some (on_pc closed lf)
  ∧ peerConnections w2 !! targetUserId l = None
  ∧ last (calls w2) = Some (pc_close h).
Proof.
  intros Hdt w2. subst w2. rewrite exec_advance.
  rewrite failing_timers, failing_clock, !filter_app.
  rewrite (filter_singleton_True (λ t, (due t ≤ clock w + Z.of_N dt)%Z) _ [])
    by (unfold graceTimer; simpl; lia).
  rewrite exec_forEach_async_app.
  set (w1 := set_timers _ _).
  destruct (forEach_graceCallback_holds
              (filter (λ t, (due t ≤ clock w + Z.of_N dt)%Z) (timers w))
              h lf w1) as [Hc2 [Hl2 Hm2]].
  - pose proof failing_consistent as [H1 H2 H3].
    split; simpl; try done.
    intros t Hin. apply H3. rewrite failing_timers.
    rewrite <- filter_app in Hin. by apply list_elem_of_filter in Hin as [_ ?].
  - apply Forall_forall. intros t [_ Hin]%list_elem_of_filter.
    apply (timers_target _ failing_consistent). rewrite failing_timers.
    apply elem_of_app. by left.
  - apply Forall_forall. intros t [_ Hin]%list_elem_of_filter.
    left. rewrite Forall_forall in Hfresh. by apply Hfresh.
  - apply failing_holds.
  - rewrite exec_forEach_async_one.
    rewrite (graceCallback_failed (graceTimer w h l) lf) by done.
    simpl. split_and!.
    + by rewrite list_lookup_alter_same, Hl2.
    + apply lookup_delete_eq.
    + apply last_snoc.
Qed.

End Grace.


(** ** A refused microphone *)

Lemma initLocalStream_denied E user w :
  getUserMedia E = None →
  initLocalStream E user w
  = (Normal None, set_calls (calls w ++ deniedCalls) w).
Proof.
  intros Hmic. unfold initLocalStream. run_monad. rewrite Hmic. simpl.
  unfold set_calls. simpl. by rewrite <- app_assoc.
Qed.

Lemma join_denied E room u w :
  getUserMedia E = None →
  join E room u w = (Normal (), set_calls (calls w ++ deniedCalls) w).
Proof.
  intros Hmic. unfold join, mbind, M_bind.
  by rewrite initLocalStream_denied.
Qed.

Lemma dispatch_idle E roomId user ev cs :
  preserves (idle cs) (dispatch E roomId user ev).
Proof.
  intros w (Hs & Hp & Hm & Ht & Hr & Hcs).
  destruct ev as [room docs|room owner box changes|h s|h c|h|dt|]; simpl.
  - unfold onSnapshotEvent. rewrite exec_bind. simpl. by rewrite Hs.
  - unfold onSnapshotEvent. rewrite exec_bind. simpl. by rewrite Hs.
  - unfold connectionStateChange. rewrite exec_bind. simpl.
    by rewrite Hp, lookup_nil.
  - unfold onicecandidate. rewrite exec_bind. simpl. rewrite Hp, lookup_nil.
    by destruct c, (truthy roomId), user.
  - unfold ontrack. rewrite exec_bind. simpl. by rewrite Hp, lookup_nil.
  - unfold advance. run_monad. by rewrite Ht.
  - unfold toggleMute. rewrite exec_detached, exec_bind. simpl. by rewrite Hr.
Qed.

(** C6. A refused microphone.  When [getUserMedia] rejects,
    [initLocalStream] shows the alert that asks for microphone permission
    and returns [null], and [join] returns at once: its only calls are the
    microphone request and the alert.  From then on, whatever events
    arrive, nothing is subscribed, no connection object exists, none is
    registered, and the call log never gains a roster write or a
    subscription. *)
Theorem C6_microphone_denied (E : Env) (roomId : option string)
    (user : option User) (opts : AudioProcessingOptions) (evs : list Event) :
  getUserMedia E = None →
  let w1 := exec (joinEffect E roomId user) (initial opts) in
  let w := run E roomId user evs w1 in
  (∀ room u w0,
     initLocalStream E (Some u) w0
     = (Normal None, set_calls (calls w0 ++ deniedCalls) w0)
     ∧ join E room u w0 = (Normal (), set_calls (calls w0 ++ deniedCalls) w0))
  ∧ (w1 = initial opts ∨ w1 = set_calls deniedCalls (initial opts))
  ∧ subscriptions w = [] ∧ pcs w = [] ∧ peerConnections w = ∅
  ∧ calls w = calls w1
  ∧ (∀ c, c ∈ calls w → c = getUserMedia_call ∨ c = alert microphone_alert).
Proof.
  intros Hmic w1 w.
  assert (Hw1 : w1 = initial opts ∨ w1 = set_calls deniedCalls (initial opts)).
  { subst w1. unfold joinEffect.
    destruct (truthy roomId) as [room|], user as [u|]; try by left.
    right. unfold exec, detached. by rewrite join_denied. }
  assert (Hidle : idle (calls w1) w).
  { apply run_preserves; [intros ev; apply dispatch_idle|].
    by destruct Hw1 as [-> | ->]. }
  destruct Hidle as (Hs & Hp & Hm & Ht & Hr & Hcs).
  split_and!; try done.
  - intros room u w0. split.
    + by apply initLocalStream_denied.
    + by apply join_denied.
  - intros c. rewrite Hcs.
    destruct Hw1 as [-> | ->]; simpl.
    + by intros ?%elem_of_nil.
    + unfold deniedCalls. rewrite !elem_of_cons, elem_of_nil. tauto.
Qed.

Lemma C6_microphone_denied_witness :
  let w := run micDenied (Some "R") (Some alice)
             [RosterSnapshot "R" [rosterDoc alice; rosterDoc bob]]
             (exec (joinEffect micDenied (Some "R") (Some alice))
                   (initial defaultOptions)) in
  subscriptions w = [] ∧ pcs w = [] ∧ peerConnections w = ∅.
Proof.
  pose proof (C6_microphone_denied micDenied (Some "R") (Some alice)
                defaultOptions
                [RosterSnapshot "R" [rosterDoc alice; rosterDoc bob]]
                eq_refl) as (_ & _ & Hs & Hp & Hm & _).
  by split_and!.
Defined.

(** ** [toggleMute] *)

Lemma newCalls_unchanged w w' : calls w' = calls w → newCalls w w' = [].
Proof. unfold newCalls. intros ->. apply drop_all. Qed.

Lemma localAudioTrack_lookup w t :
  localAudioTrack w = Some t → ∃ tr, tracks w !! t = Some tr.
Proof.
  unfold localAudioTrack. destruct (localStreamRef w) as [stream|]; [|done].
  simpl. intros Hh. apply head_Some_elem_of in Hh.
  apply list_elem_of_filter in Hh as [Hk _].
  destruct (tracks w !! t) as [tr|]; [by eexists|done].
Qed.

(** C10 (amended). [toggleMute].  Without a local stream or without an
    audio track in it, nothing changes.  Otherwise the first audio track's
    [enabled] flag is negated, [isMuted] becomes the negation of the new
    flag, and, when [roomId] and [user] are both present, one [updateDoc]
    writes that same value to the own roster record; without them no
    roster write is made.  Nothing else changes. *)
Theorem C10_toggleMute (E : Env) (roomId : option string)
    (user : option User) (w : World) :
  let w' := exec (toggleMute E roomId user) w in
  match localAudioTrack w with
  | None => w' = w
  | Some t =>
      ∃ tr, tracks w !! t = Some tr
      ∧ tracks w' = <[t := with_enabled (negb (enabled tr)) tr]> (tracks w)
      ∧ isMuted w' = negb (negb (enabled tr))
      ∧ newCalls w w'
        = match truthy roomId, user with
          | Some room, Some u =>
              [updateDoc (participantRef room (uid u))
                         (negb (negb (enabled tr)))]
          | _, _ => []
          end
      ∧ w' = set_calls (calls w')
               (set_isMuted (isMuted w') (set_tracks (tracks w') w))
  end.
Proof.
  intros w'. destruct (localAudioTrack w) as [t|] eqn:Ht.
  - destruct (localAudioTrack_lookup w t Ht) as [tr Htr].
    exists tr. split; [done|].
    assert (Hlt : t < length (tracks w)) by (by eapply lookup_lt_Some).
    subst w'. unfold localAudioTrack in Ht. unfold toggleMute.
    destruct (localStreamRef w) as [stream|] eqn:Hs; [|done]. simpl in Ht.
    run_monad. rewrite Hs, Ht. simpl.
    rewrite list_lookup_alter_same, Htr. simpl.
    assert (Halter : alter (λ tr0, with_enabled (negb (enabled tr0)) tr0) t
                       (tracks w)
                     = <[t := with_enabled (negb (enabled tr)) tr]> (tracks w)).
    { apply list_eq. intros i. destruct (decide (i = t)) as [->|Hne].
      - by rewrite list_lookup_alter_same, list_lookup_insert_eq, Htr.
      - rewrite list_lookup_alter_other by done.
        rewrite list_lookup_insert_ne; [done|congruence]. }
    destruct (truthy roomId) as [room|], user as [u|]; simpl;
      try destruct (rejects E _); simpl; rewrite Halter;
      split_and!; try done; try (by apply newCalls_app);
      try (by apply newCalls_unchanged).
    all: by destruct w.
  - subst w'. unfold localAudioTrack in Ht. unfold toggleMute. run_monad.
    destruct (localStreamRef w) as [stream|]; [|done]. simpl in Ht.
    by rewrite Ht.
Qed.

(** C10 as stated fails: Alice has joined and has her audio track, the
    hook is rendered without a room id; [toggleMute] disables the track
    and sets [isMuted], and writes nothing to the roster. *)
Lemma C10_counterexample :
  let w' := exec (toggleMute cooperative None (Some alice)) aliceJoined in
  localAudioTrack aliceJoined = Some 1
  ∧ enabled <$> tracks w' !! 1 = Some false
  ∧ isMuted w' = true
  ∧ newCalls aliceJoined w' = [].
Proof. vm_compute. done. Qed.

(** ** The level computed by the monitor *)










(** ** The graph built by [initLocalStream] *)

Lemma reach_mono es es' a b : es ⊆ es' → reach es a b → reach es' a b.
Proof.
  intros Hsub. induction 1 as [|b c _ IH Hbc]; [constructor|].
  eapply reach_step; [exact IH|]. by apply Hsub.
Qed.

Lemma without_app via es1 es2 :
  without via (es1 ++ es2) = without via es1 ++ without via es2.
Proof. apply filter_app. Qed.

Lemma taps_targets : Forall (λ e, e.2 ∈ tapNodes) taps.
Proof. apply (bool_decide_unpack _). vm_compute. exact I. Qed.

(** From the source, the taps lead only to tap nodes; a chain that has
    no connection out of a tap node is entered from the source alone. *)
Lemma reach_taps via es b :
  Forall (λ e, e.1 ∉ tapNodes) es →
  reach (without via (taps ++ es)) Source b →
  b ∈ tapNodes ∨ reach (without via es) Source b.
Proof.
  intros Hes. induction 1 as [|b c _ IH Hbc].
  - right. constructor.
  - rewrite without_app in Hbc. apply elem_of_app in Hbc as [Htap|Hchain].
    + left. apply list_elem_of_filter in Htap as [_ Htap].
      pose proof taps_targets as Ht. rewrite Forall_forall in Ht.
      apply (Ht _ Htap).
    + assert (Hb : b ∉ tapNodes).
      { apply list_elem_of_filter in Hchain as [_ Hin].
        rewrite Forall_forall in Hes. apply (Hes _ Hin). }
      destruct IH as [?|IH]; [done|].
      right. by eapply reach_step.
Qed.

Lemma routed_through_taps es via :
  Forall (λ e, e.1 ∉ tapNodes) es →
  routed_through es Source via Destination →
  routed_through (taps ++ es) Source via Destination.
Proof.
  intros Hes (H1 & H2 & H3). split_and!.
  - eapply reach_mono; [|exact H1]. set_solver.
  - eapply reach_mono; [|exact H2]. set_solver.
  - intros Hr. apply (reach_taps via es Destination Hes) in Hr as [Ht|Hr].
    + revert Ht. apply (bool_decide_unpack _). vm_compute. exact I.
    + by apply H3.
Qed.

Lemma initLocalStream_professional E user opts ts es :
  getUserMedia E = Some ts →
  useRNNoise opts = true →
  useProfessional opts = true →
  newAudioWorkletNode E = true →
  connectWithRNNoise E Source RNNoiseNode Destination
    (bool_decide (audioQuality opts = Some ultra)) = Some es →
  (if bool_decide (vadEnabled opts ≠ Some false)
   then newVoiceActivityDetector E else true) = true →
  audioEdges (exec (initLocalStream E user) (initial opts)) = taps ++ es.
Proof.
  intros Hmic Hrn Hpro Hwork Hchain Hvad.
  assert (Hmode : useRNNoiseProcessing opts = true).
  { unfold useRNNoiseProcessing. rewrite Hrn. simpl.
    apply bool_decide_eq_true. intros Hb. unfold useProfessional in Hpro.
    rewrite Hb in Hpro. done. }
  unfold initLocalStream, enhancedGraph, useProcessedTrack,
    registerLocalAnalyser, allocTracks, connect.
  run_monad. rewrite Hmic. simpl. rewrite Hmode. simpl.
  rewrite Hwork. simpl. rewrite Hpro, Hchain. simpl.
  destruct (bool_decide (vadEnabled opts ≠ Some false)); simpl;
    rewrite ?Hvad; simpl.
  all: destruct (head _); simpl; destruct user; done.
Qed.

Lemma useProfessional_presets opts q :
  audioQuality opts = Some q → q ∈ [balanced; professional; ultra] →
  useProfessional opts = true.
Proof.
  intros Hq Hin. unfold useProfessional. rewrite Hq.
  destruct q; try done.
  revert Hin. apply (bool_decide_unpack _). vm_compute. exact I.
Qed.

Lemma specChain_reach_without b :
  reach (without RNNoiseNode specChainEdges) Source b →
  b = Source ∨ b = ChainNode 0.
Proof.
  induction 1 as [|b c _ IH Hbc]; [by left|].
  change (without RNNoiseNode specChainEdges)
    with [(Source, ChainNode 0); (ChainNode 1, Destination)] in Hbc.
  apply elem_of_cons in Hbc as [[= -> ->]|Hbc]; [by right|].
  apply elem_of_cons in Hbc as [[= -> ->]|Hbc].
  - by destruct IH.
  - by apply elem_of_nil in Hbc.
Qed.

Lemma specChain_reach_without_compressor b :
  reach (without (ChainNode 1) specChainEdges) Source b →
  b = Source ∨ b = ChainNode 0 ∨ b = RNNoiseNode.
Proof.
  induction 1 as [|b c _ IH Hbc]; [by left|].
  change (without (ChainNode 1) specChainEdges)
    with [(Source, ChainNode 0); (ChainNode 0, RNNoiseNode)] in Hbc.
  apply elem_of_cons in Hbc as [[= -> ->]|Hbc]; [right; by left|].
  apply elem_of_cons in Hbc as [[= -> ->]|Hbc]; [right; by right|].
  by apply elem_of_nil in Hbc.
Qed.

Lemma specChain_routed_compressor :
  routed_through specChainEdges Source (ChainNode 1) Destination.
Proof.
  split_and!.
  - apply (reach_step _ _ RNNoiseNode);
      [apply (reach_step _ _ (ChainNode 0));
       [apply (reach_step _ _ Source); [apply reach_refl|]|]|];
      apply (bool_decide_unpack _); vm_compute; exact I.
  - apply (reach_step _ _ (ChainNode 1)); [apply reach_refl|].
    apply (bool_decide_unpack _). vm_compute. exact I.
  - intros Hr.
    by apply specChain_reach_without_compressor in Hr as [|[|]].
Qed.

Lemma specChain_closed : Forall (λ e, e.1 ∉ tapNodes) specChainEdges.
Proof. apply (bool_decide_unpack _). vm_compute. exact I. Qed.

Lemma specChain_routed :
  routed_through specChainEdges Source RNNoiseNode Destination.
Proof.
  split_and!.
  - apply (reach_step _ _ (ChainNode 0));
      [apply (reach_step _ _ Source); [apply reach_refl|]|];
      apply (bool_decide_unpack _); vm_compute; exact I.
  - apply (reach_step _ _ (ChainNode 1));
      [apply (reach_step _ _ RNNoiseNode); [apply reach_refl|]|];
      apply (bool_decide_unpack _); vm_compute; exact I.
  - intros Hr. by apply specChain_reach_without in Hr as [|].
Qed.

(** C7 as stated fails: with the 'balanced' preset and [useRNNoise]
    off, the build is the pass-through one: besides the taps the one
    connection made is source to destination, and no noise-suppression
    node is in the graph. *)
Lemma C7_counterexample :
  audioEdges (exec (initLocalStream cooperative (Some alice))
                   (initial balancedWithoutRNNoise))
  = taps ++ [(Source, Destination)].
Proof. vm_compute. reflexivity. Qed.

(** C7 (amended).  Enhanced-mode topology.  Take a build with
    [useRNNoise] on and quality 'balanced', 'professional' or 'ultra', in
    which the microphone is granted and the noise-suppression node, the
    professional chain and the voice detector are set up without error.
    Then the graph is the taps (level analyser and self-monitor) followed
    by exactly the connections made by
    [connectWithRNNoise(source, rnnoiseNode, destination)]: the builder
    itself never connects the source to the destination.  If that chain
    makes no connection out of a tap node, every stage through which it
    routes the source to the destination is one through which the whole
    graph routes it.  In particular, with the chain wired as the spec
    describes (high-pass, noise suppression, compression, destination),
    the source is not connected to the destination directly and reaches
    it only through the noise-suppression node and through the
    compressor. *)
Theorem C7_enhanced_topology (E : Env) (user : option User)
    (opts : AudioProcessingOptions) (q : AudioQuality)
    (ts : list MediaStreamTrack) (es : list Edge) :
  getUserMedia E = Some ts →
  useRNNoise opts = true →
  audioQuality opts = Some q → q ∈ [balanced; professional; ultra] →
  newAudioWorkletNode E = true →
  connectWithRNNoise E Source RNNoiseNode Destination
    (bool_decide (audioQuality opts = Some ultra)) = Some es →
  (if bool_decide (vadEnabled opts ≠ Some false)
   then newVoiceActivityDetector E else true) = true →
  let w' := exec (initLocalStream E user) (initial opts) in
  audioEdges w' = taps ++ es
  ∧ ((Source, Destination) ∈ audioEdges w' ↔ (Source, Destination) ∈ es)
  ∧ (Forall (λ e, e.1 ∉ tapNodes) es →
     ∀ via, routed_through es Source via Destination →
            routed_through (audioEdges w') Source via Destination)
  ∧ (es = specChainEdges →
     ((Source, Destination) ∉ audioEdges w')
     ∧ routed_through (audioEdges w') Source RNNoiseNode Destination
     ∧ routed_through (audioEdges w') Source (ChainNode 1) Destination).
Proof.
  intros Hmic Hrn Hq Hpreset Hwork Hchain Hvad w'.
  assert (Hedges : audioEdges w' = taps ++ es).
  { eapply initLocalStream_professional; try done.
    by eapply useProfessional_presets. }
  rewrite Hedges. split_and!; [done| | |].
  - rewrite elem_of_app. split; [|by right].
    intros [Htap|?]; [|done]. exfalso. revert Htap.
    apply (bool_decide_unpack _). vm_compute. exact I.
  - intros Hes via. by apply routed_through_taps.
  - intros ->. split_and!.
    + apply (bool_decide_unpack _). vm_compute. exact I.
    + apply routed_through_taps;
        [apply specChain_closed|apply specChain_routed].
    + apply routed_through_taps;
        [apply specChain_closed|apply specChain_routed_compressor].
Qed.

Lemma C7_enhanced_topology_witness :
  let w' := exec (initLocalStream cooperative (Some alice))
                 (initial balancedWithRNNoise) in
  ((Source, Destination) ∉ audioEdges w')
  ∧ routed_through (audioEdges w') Source RNNoiseNode Destination.
Proof.
  destruct (C7_enhanced_topology cooperative (Some alice) balancedWithRNNoise
              balanced [micTrack] specChainEdges)
    as (_ & _ & _ & Hspec); try reflexivity.
  - apply (bool_decide_unpack _). vm_compute. exact I.
  - destruct (Hspec eq_refl) as (Hdirect & Hroute & _). by split.
Defined.

(** * Further observations on the hook *)

(** ** Triples for the monad *)

Section Hoare.
Context {A B : Type}.
Implicit Types (P R : World → Prop).

Lemma hoare_ret P (a : A) (Q : A → World → Prop) R :
  (∀ w, P w → Q a w) → hoare P (mret a) Q R.
Proof. intros H w Hw. by apply H. Qed.

Lemma hoare_throw P (Q : A → World → Prop) R :
  (∀ w, P w → R w) → hoare P throw Q R.
Proof. intros H w Hw. by apply H. Qed.

Lemma hoare_bind P (m : M A) (f : A → M B) Q' (Q : B → World → Prop) R :
  hoare P m Q' R → (∀ a, hoare (Q' a) (f a) Q R) → hoare P (m ≫= f) Q R.
Proof.
  intros Hm Hf w Hw. specialize (Hm w Hw). unfold mbind, M_bind.
  destruct (m w) as [[a|] w']; [by apply Hf|done].
Qed.

Lemma hoare_get_bind P (k : World → M B) (Q : B → World → Prop) R :
  (∀ w0, P w0 → hoare (λ w, w = w0) (k w0) Q R) → hoare P (get ≫= k) Q R.
Proof. intros H w Hw. by apply (H w Hw w). Qed.

Lemma hoare_modify P (f : World → World) (Q : unit → World → Prop) R :
  (∀ w, P w → Q () (f w)) → hoare P (modify f) Q R.
Proof. intros H w Hw. by apply H. Qed.

Lemma hoare_try_catch P (body handler : M A) (Q : A → World → Prop) R' R :
  hoare P body Q R' → hoare R' handler Q R → hoare P (try_catch body handler) Q R.
Proof.
  intros Hb Hh w Hw. specialize (Hb w Hw). unfold try_catch.
  destruct (body w) as [[a|] w']; [done|by apply Hh].
Qed.

Lemma hoare_detached P (m : M A) (Q : unit → World → Prop) R :
  hoare P m (λ _, Q ()) (Q ()) → hoare P (detached m) Q R.
Proof.
  intros Hm w Hw. specialize (Hm w Hw). unfold detached.
  by destruct (m w) as [[a|] w'].
Qed.

Lemma hoare_conseq P P' (m : M A) (Q Q' : A → World → Prop) R R' :
  hoare P' m Q' R' →
  (∀ w, P w → P' w) → (∀ a w, Q' a w → Q a w) → (∀ w, R' w → R w) →
  hoare P m Q R.
Proof.
  intros Hm HP HQ HR w Hw. specialize (Hm w (HP w Hw)).
  destruct (m w) as [[a|] w']; [by apply HQ|by apply HR].
Qed.

Lemma hoare_pre P P' (m : M A) (Q : A → World → Prop) R :
  (∀ w, P w → P' w) → hoare P' m Q R → hoare P m Q R.
Proof. intros HP Hm. by eapply hoare_conseq. Qed.

End Hoare.

Lemma hoare_call P c (Q : unit → World → Prop) R :
  (∀ w, P w → Q () (set_calls (calls w ++ [c]) w)) → hoare P (call c) Q R.
Proof. intros H. by apply hoare_modify. Qed.

Lemma hoare_firestore E P c (Q : unit → World → Prop) R :
  (∀ w, P w → Q () (set_calls (calls w ++ [c]) w)) →
  (∀ w, P w → R (set_calls (calls w ++ [c]) w)) →
  hoare P (firestore E c) Q R.
Proof.
  intros HQ HR w Hw. unfold firestore. run_monad.
  destruct (rejects E c); simpl; [by apply HR|by apply HQ].
Qed.

Lemma hoare_exec {A} P (m : M A) Q R w :
  hoare P m Q R → P w → (∀ a w', Q a w' → R w') → R (exec m w).
Proof.
  intros Hm Hw HQR. specialize (Hm w Hw). unfold exec.
  destruct (m w) as [[a|] w']; [by eapply HQR|done].
Qed.

Lemma hoare_forM {A B} P (l : list A) (f : A → M B) R :
  (∀ x, x ∈ l → hoare P (f x) (λ _, P) R) →
  hoare P (forM l f) (λ _, P) R.
Proof.
  induction l as [|x l IH]; intros Hf; simpl; [by apply hoare_ret|].
  apply (hoare_bind _ _ _ (λ _, P)); [apply Hf; left|]. intros y.
  apply (hoare_bind _ _ _ (λ _, P));
    [apply IH; intros z Hz; apply Hf; by right|].
  intros ys. by apply hoare_ret.
Qed.

Lemma hoare_forEach_async {A B} P (l : list A) (f : A → M B) R :
  (∀ x, x ∈ l → hoare P (f x) (λ _, P) P) →
  hoare P (forEach_async l f) (λ _, P) R.
Proof.
  induction l as [|x l IH]; intros Hf; simpl; [by apply hoare_ret|].
  apply (hoare_bind _ _ _ (λ _, P)); [apply hoare_detached, Hf; left|].
  intros _. apply IH. intros z Hz. apply Hf. by right.
Qed.




Section OfferListener.
Variables (E : Env) (room : string) (u : User) (stream : MediaStream)
  (doc : MessageDoc).

Let del := deleteDoc (mailboxDoc room (uid u) incoming_offers (docId doc)).
Let m := onOfferChange E room u stream (addedDoc doc).


End OfferListener.





(** ** The roster listener *)

Lemma bind_get {B} (k : World → M B) w : (get ≫= k) w = k w w.
Proof. done. Qed.

Lemma result_then_ret {A B} (m : M A) (b q : B) w :
  ((m ≫= λ _, mret b) w).1 = Normal q → q = b.
Proof. unfold mbind, M_bind. destruct (m w) as [[a|] w']; simpl; congruence. Qed.

Section RosterListener.
Variables (E : Env) (room : string) (u : User) (stream : MediaStream).

Lemma onRosterDoc_result doc w p :
  (onRosterDoc E room u stream doc w).1 = Normal p → p = participantOf doc.
Proof. unfold onRosterDoc. rewrite bind_get. apply result_then_ret. Qed.

Lemma onRosterDoc_participants doc :
  ∀ P, preserves (λ w, participants w = P) (onRosterDoc E room u stream doc).
Proof.
  intros P. unfold onRosterDoc, createPeerConnection, pcQuery, pcMethod,
    firestore, call.
  repeat lazymatch goal with
  | |- preserves _ (mret _) => apply preserves_ret
  | |- preserves _ throw => apply preserves_throw
  | |- preserves _ get => apply preserves_get
  | |- preserves _ (modify _) => apply preserves_modify; by intros ?
  | |- preserves _ (mbind _ _) => apply preserves_bind; [|intros ?]
  | |- preserves _ (match ?x with _ => _ end) => destruct x
  end.
Qed.

Lemma onRosterDoc_skip doc w :
  nothing_to_offer u w doc →
  onRosterDoc E room u stream doc w = (Normal (participantOf doc), w).
Proof.
  unfold onRosterDoc. run_monad. intros [Hself|[[h Hh]|Hlt]].
  - rewrite (bool_decide_eq_false_2 (_ ≠ _)); [done|]. by intros []. 
  - rewrite (bool_decide_eq_false_2 (_ = None)) by congruence.
    by rewrite andb_false_r.
  - rewrite Hlt. by destruct (_ && _).
Qed.

Lemma forM_onRosterDoc docs w :
  let m := forM docs (onRosterDoc E room u stream) in
  participants (exec m w) = participants w
  ∧ (∀ ps, result m w = Normal ps → ps = participantOf <$> docs)
  ∧ (Forall (nothing_to_offer u w) docs →
     m w = (Normal (participantOf <$> docs), w)).
Proof.
  revert w. induction docs as [|doc docs IH]; intros w m; subst m.
  { split_and!; [done| |done]. intros ps [= <-]. done. }
  simpl. split_and!.
  - apply (preserves_forM (λ w', participants w' = participants w)
             (doc :: docs)); [|done].
    intros d. apply onRosterDoc_participants.
  - intros ps. unfold result. simpl. unfold mbind at 1, M_bind at 1.
    destruct (onRosterDoc E room u stream doc w) as [[p|] w1] eqn:H1;
      [|done].
    apply (f_equal fst) in H1. simpl in H1.
    apply onRosterDoc_result in H1 as ->.
    unfold mbind at 1, M_bind at 1.
    destruct (IH w1) as (_ & Hps & _). unfold result in Hps.
    destruct (forM docs _ w1) as [[ps'|] w2]; [|done].
    simpl. intros [= <-]. by rewrite (Hps ps' eq_refl).
  - intros Hall. apply Forall_cons in Hall as [Hd Hall].
    unfold mbind at 1, M_bind at 1. rewrite onRosterDoc_skip by done.
    unfold mbind at 1, M_bind at 1.
    destruct (IH w) as (_ & _ & ->); done.
Qed.

Lemma onRosterSnapshot_skip docs w :
  Forall (nothing_to_offer u w) docs →
  onRosterSnapshot E room u stream docs w
  = (Normal (), set_participants (participantOf <$> docs) w).
Proof.
  intros Hall. destruct (forM_onRosterDoc docs w) as (_ & _ & Hskip).
  unfold onRosterSnapshot, mbind, M_bind. by rewrite (Hskip Hall).
Qed.

End RosterListener.

(** X5. What the roster listener shows.  When the listener completes, the
    displayed roster is the snapshot's documents in their order, the own
    entry included; when it throws (an offer could not be made), the
    displayed roster is left as it was.  A snapshot in which every entry
    is the own one, already has a connection, or has the smaller id,
    replaces the displayed roster and does nothing else. *)
Theorem roster_snapshot_display (E : Env) (room : string) (u : User)
    (stream : MediaStream) (docs : list RosterDoc) (w : World) :
  let m := onRosterSnapshot E room u stream docs in
  (result m w = Normal () → participants (exec m w) = participantOf <$> docs)
  ∧ (result m w = Throw → participants (exec m w) = participants w)
  ∧ (Forall (nothing_to_offer u w) docs →
     m w = (Normal (), set_participants (participantOf <$> docs) w)).
Proof.
  intros m. subst m. unfold onRosterSnapshot, result, exec.
  destruct (forM_onRosterDoc E room u stream docs w) as (Hp & Hps & Hskip).
  unfold result, exec in *. unfold mbind, M_bind.
  destruct (forM docs _ w) as [[ps|] w1] eqn:Hf; simpl in *.
  - split_and!; [|done|].
    + intros _. by rewrite (Hps ps eq_refl).
    + intros Hall. specialize (Hskip Hall). by injection Hskip as -> ->.
  - split_and!; [done|done|].
    intros Hall. by specialize (Hskip Hall).
Qed.

(** X6. A roster entry whose offer fails.  When a step of offering to the
    first entry of a snapshot is rejected, the listener throws at once:
    the entries after it are not looked at and the displayed roster is not
    replaced; but the connection made for the entry stays registered, so
    when the same entry is seen again no offer is attempted. *)
Theorem failed_offer_aborts_snapshot (E : Env) (room : string) (u : User)
    (stream : MediaStream) (doc : RosterDoc) (rest : list RosterDoc)
    (w : World) :
  peerConnections w !! r_id doc = None →
  result (onRosterDoc E room u stream doc) w = Throw →
  let m := onRosterSnapshot E room u stream (doc :: rest) in
  let w' := exec m w in
  result m w = Throw
  ∧ w' = exec (onRosterDoc E room u stream doc) w
  ∧ participants w' = participants w
  ∧ peerConnections w' !! r_id doc = Some (length (pcs w))
  ∧ (∃ cs, newCalls w w' = pc_createOffer (length (pcs w)) :: cs)
  ∧ onRosterSnapshot E room u stream [doc] w'
    = (Normal (), set_participants [participantOf doc] w').
Proof.
  intros Hnone Hthrow m w'.
  assert (Hlt : JsString.lt (uid u) (r_id doc) = true).
  { destruct (JsString.lt (uid u) (r_id doc)) eqn:Hlt; [done|].
    unfold result in Hthrow.
    rewrite onRosterDoc_skip in Hthrow; [done|]. by right; right. }
  assert (Hw' : w' = exec (onRosterDoc E room u stream doc) w).
  { subst w' m. unfold onRosterSnapshot, exec, result in *. simpl.
    unfold mbind, M_bind in *.
    by destruct (onRosterDoc E room u stream doc w) as [[p|] w1]. }
  assert (Hreg : peerConnections w' !! r_id doc = Some (length (pcs w))).
  { rewrite Hw', onRosterDoc_initiates by done.
    destruct (offerTo_calls E room u doc (length (pcs w))
                (exec (createPeerConnection (r_id doc) stream) w)) as [-> _].
    unfold createPeerConnection. run_monad. apply lookup_insert_eq. }
  split_and!; try done.
  - subst m. unfold onRosterSnapshot, exec, result in *. simpl.
    unfold mbind, M_bind in *.
    by destruct (onRosterDoc E room u stream doc w) as [[p|] w1].
  - rewrite Hw'. by apply onRosterDoc_participants.
  - rewrite Hw', onRosterDoc_initiates by done.
    destruct (offerTo_calls E room u doc (length (pcs w))
                (exec (createPeerConnection (r_id doc) stream) w))
      as [_ [cs Hcs]].
    exists cs. apply newCalls_app. rewrite Hcs. done.
  - apply onRosterSnapshot_skip. apply Forall_singleton.
    right; left. by rewrite Hreg.
Qed.

Lemma failed_offer_aborts_snapshot_witness :
  result (onRosterSnapshot offerRefused "R" alice [1]
            [rosterDoc bob; rosterDoc alice]) aliceJoined
  = Throw.
Proof.
  apply (failed_offer_aborts_snapshot offerRefused "R" alice [1]
           (rosterDoc bob) [rosterDoc alice] aliceJoined);
    vm_compute; reflexivity.
Defined.


Lemma getAudioTracks_destination w base d :
  tracks w = base ++ option_list d →
  head (getAudioTracks w (seq (length base) (length (option_list d))))
  = match d with
    | Some tr => if decide (kind tr = audio) then Some (length base) else None
    | None => None
    end.
Proof.
  intros Ht. unfold getAudioTracks. destruct d as [tr|]; simpl; [|done].
  rewrite filter_cons, Ht, lookup_app_r, Nat.sub_diag by done. simpl.
  destruct (kind tr); simpl; done.
Qed.

Section Build.
Variables (E : Env) (user : option User) (w0 : World)
  (ts : list MediaStreamTrack).

Let base := tracks w0 ++ ts.
Let T := base ++ option_list (destinationTrack E).
Let C := calls w0 ++ [getUserMedia_call].
Let mic : MediaStream := seq (length (tracks w0)) (length ts).
Let dest : MediaStream :=
  seq (length base) (length (option_list (destinationTrack E))).
Let Bg := building E w0 ts.
Let Bt := built E user w0 ts.

Lemma connect_building a b R :
  hoare Bg (connect a b) (λ _, Bg) R.
Proof. apply hoare_modify. by intros w (? & ? & ? & ?). Qed.

Lemma edges_building es R :
  hoare Bg (modify (λ w, set_audioEdges (audioEdges w ++ es) w))
        (λ _, Bg) R.
Proof. apply hoare_modify. by intros w (? & ? & ? & ?). Qed.

Lemma destination_head w :
  Bg w →
  head (getAudioTracks w dest)
  = match destinationAudioTrack E with
    | Some _ => Some (length base)
    | None => None
    end.
Proof.
  intros (Ht & _). subst dest. unfold destinationAudioTrack.
  rewrite (getAudioTracks_destination w base (destinationTrack E)) by done.
  destruct (destinationTrack E) as [d|]; [|done]. by case_decide.
Qed.

Lemma useProcessedTrack_built otherwise R :
  (destinationAudioTrack E = None → hoare Bg otherwise Bt R) →
  hoare Bg (useProcessedTrack user dest otherwise) Bt R.
Proof.
  intros Ho. unfold useProcessedTrack.
  apply hoare_get_bind. intros w Hw. rewrite (destination_head w Hw).
  destruct (destinationAudioTrack E) as [d|] eqn:Hd.
  - intros w' ->. unfold registerLocalAnalyser. run_monad.
    destruct Hw as (Ht & Hc & Ha & Hl).
    unfold Bt, withLevelAnalyser.
    destruct user; simpl; exists [length base]; rewrite Hd; simpl;
      rewrite ?Ha; by split_and!.
  - eapply hoare_pre; [|by apply Ho]. by intros w' ->.
Qed.

Lemma useMicrophoneStream_built R :
  destinationAudioTrack E = None →
  hoare Bg
    (modify (set_localStreamRef (Some mic));; mret (Some mic)) Bt R.
Proof.
  intros Hd w (Ht & Hc & Ha & Hl). run_monad. exists mic. by rewrite Hd.
Qed.

Lemma enhancedGraph_built :
  hoare Bg (enhancedGraph E user mic dest) Bt Bg.
Proof.
  unfold enhancedGraph.
  apply (hoare_bind _ _ _ (λ _, Bg)).
  { destruct (newAudioWorkletNode E);
      [by apply hoare_ret|by apply hoare_throw]. }
  intros _. apply hoare_get_bind. intros w Hw.
  apply (hoare_pre _ Bg); [by intros ? ->|].
  apply (hoare_bind _ _ _ (λ _, Bg)).
  { destruct (useProfessional (audioOptions w)).
    - destruct (connectWithRNNoise E _ _ _ _);
        [apply edges_building|by apply hoare_throw].
    - apply (hoare_bind _ _ _ (λ _, Bg)).
      { destruct (bool_decide _).
        - apply (hoare_bind _ _ _ (λ _, Bg));
            [apply connect_building|intros _; by apply hoare_ret].
        - by apply hoare_ret. }
      intros graphStart.
      repeat (apply (hoare_bind _ _ _ (λ _, Bg));
              [apply connect_building|intros _]).
      apply connect_building. }
  intros _. apply (hoare_bind _ _ _ (λ _, Bg)).
  { destruct (bool_decide _); [|by apply hoare_ret].
    destruct (newVoiceActivityDetector E);
      [by apply hoare_ret|by apply hoare_throw]. }
  intros _. apply useProcessedTrack_built. apply useMicrophoneStream_built.
Qed.

Lemma fallbackGraph_built R :
  hoare Bg (fallbackGraph user mic dest) Bt R.
Proof.
  unfold fallbackGraph.
  repeat (apply (hoare_bind _ _ _ (λ _, Bg));
          [apply connect_building|intros _]).
  intros w Hw. unfold registerLocalAnalyser. run_monad.
  assert (Hh : ∀ w', tracks w' = tracks w →
                     head (getAudioTracks w' dest)
                     = match destinationAudioTrack E with
                       | Some _ => Some (length base)
                       | None => None
                       end).
  { intros w' Hw'. unfold getAudioTracks. rewrite Hw'.
    apply (destination_head w Hw). }
  destruct Hw as (Ht & Hc & Ha & Hl). unfold Bt, withLevelAnalyser.
  destruct user as [u|]; simpl; rewrite Hh by done;
    destruct (destinationAudioTrack E) as [d|] eqn:Hd; simpl;
    eexists; rewrite ?Hd; simpl; rewrite ?Ha; by split_and!.
Qed.

Lemma enhanced_or_fallback_built R :
  hoare Bg
    (try_catch (enhancedGraph E user mic dest) (fallbackGraph user mic dest))
    Bt R.
Proof.
  eapply hoare_try_catch; [apply enhancedGraph_built|apply fallbackGraph_built].
Qed.

End Build.

Lemma hoare_pre_pure {A} (φ : Prop) P (m : M A) Q R :
  (φ → hoare P m Q R) → hoare (λ w, φ ∧ P w) m Q R.
Proof. intros H w [Hφ Hw]. by apply H. Qed.

Lemma initLocalStream_granted E user w ts :
  getUserMedia E = Some ts →
  hoare (λ w', w' = w) (initLocalStream E user) (built E user w ts)
        (λ _, False).
Proof.
  intros Hmic. unfold initLocalStream.
  apply (hoare_try_catch _ _ _ _ (λ _, False)); [|by intros ? ?].
  apply (hoare_bind _ _ _
    (λ _ w', w' = set_calls (calls w ++ [getUserMedia_call]) w)).
  { apply hoare_call. by intros ? ->. }
  intros _. rewrite Hmic.
  apply (hoare_bind _ _ _
    (λ s w', s = seq (length (tracks w)) (length ts)
             ∧ (tracks w' = tracks w ++ ts
                ∧ calls w' = calls w ++ [getUserMedia_call]
                ∧ analysers w' = analysers w))).
  { intros ? ->. unfold allocTracks. run_monad. done. }
  intros stream. apply hoare_pre_pure. intros ->.
  apply (hoare_bind _ _ _
    (λ _ w', tracks w' = tracks w ++ ts
             ∧ calls w' = calls w ++ [getUserMedia_call]
             ∧ analysers w' = analysers w
             ∧ localStreamRef w'
               = Some (seq (length (tracks w)) (length ts)))).
  { apply hoare_modify. by intros w' (? & ? & ?). }
  intros _.
  apply (hoare_bind _ _ _
    (λ dest w', dest = seq (length (tracks w ++ ts))
                           (length (option_list (destinationTrack E)))
                ∧ building E w ts w')).
  { intros w' (Ht & Hc & Ha & Hl). unfold allocTracks. run_monad.
    rewrite Ht. done. }
  intros dest. apply hoare_pre_pure. intros ->.
  repeat (apply (hoare_bind _ _ _ (λ _, building E w ts));
          [apply connect_building|intros _]).
  apply hoare_get_bind. intros w1 Hw1.
  apply (hoare_pre _ (building E w ts)); [by intros ? ->|].
  destruct (negb _).
  - apply (hoare_bind _ _ _ (λ _, building E w ts));
      [apply connect_building|intros _].
    apply useProcessedTrack_built. intros _.
    apply enhanced_or_fallback_built.
  - apply enhanced_or_fallback_built.
Qed.

(** X2. The outcome of [initLocalStream].  It never throws, returns
    [null] exactly when [getUserMedia] is refused, and otherwise the
    stream it returns is the one it leaves in [localStreamRef.current].
    When the destination node has an audio track, that stream is the one
    processed track, in every mode and whatever fails while the enhanced
    graph is set up, and the audio context and the level analyser of the
    local user are registered; only when the destination has no audio
    track is the microphone's own stream used. *)
Theorem initLocalStream_outcome (E : Env) (user : option User) (w : World) :
  let m := initLocalStream E user in
  let w' := exec m w in
  (∃ r, result m w = Normal r
        ∧ (r = None ↔ getUserMedia E = None)
        ∧ (∀ s, r = Some s → localStreamRef w' = Some s))
  ∧ (∀ ts d,
       getUserMedia E = Some ts → destinationAudioTrack E = Some d →
       result m w = Normal (Some [length (tracks w) + length ts])
       ∧ tracks w' !! (length (tracks w) + length ts) = Some d
       ∧ audioContextRef w' = true
       ∧ analysers w' = withLevelAnalyser user (analysers w))
  ∧ (∀ ts,
       getUserMedia E = Some ts → destinationAudioTrack E = None →
       result m w = Normal (Some (seq (length (tracks w)) (length ts)))).
Proof.
  intros m w'. subst m w'. unfold result, exec.
  destruct (getUserMedia E) as [ts|] eqn:Hmic.
  - pose proof (initLocalStream_granted E user w ts Hmic w eq_refl) as H.
    destruct (initLocalStream E user w) as [[r|] w']; [|done]. simpl.
    destruct H as (s & -> & Hl & Ht & Hc & Hd). split_and!.
    + exists (Some s). split_and!; [done|done|]. by intros s' [= <-].
    + intros ts' d [= <-] Hdest. rewrite Hdest in Hd.
      destruct Hd as (-> & Hctx & Han). rewrite length_app in *.
      split_and!; try done.
      rewrite Ht. unfold destinationAudioTrack in Hdest.
      destruct (destinationTrack E) as [d'|]; [|done].
      case_decide; [|done]. injection Hdest as ->.
      by rewrite lookup_app_r, length_app, Nat.sub_diag by (rewrite length_app; lia).
    + intros ts' [= <-] Hdest. rewrite Hdest in Hd. by rewrite Hd.
  - rewrite initLocalStream_denied by done. simpl. split_and!.
    + exists None. by split_and!.
    + by intros ts d.
    + by intros ts.
Qed.

(** X3. The default mode.  With [useRNNoise] off or quality 'basic', a
    granted microphone and a destination that has an audio track, the
    whole effect of [initLocalStream] is: one [getUserMedia] request, the
    taps and the one connection source to destination, the processed
    track as the local stream, the audio context and the level analyser
    registered.  Nothing of the enhanced set-up is reached, so no answer
    of the worklet, the professional chain or the voice detector can
    change it. *)
Theorem initLocalStream_clean_mode (E : Env) (user : option User) (w : World)
    (ts : list MediaStreamTrack) (d : MediaStreamTrack) :
  useRNNoiseProcessing (audioOptions w) = false →
  getUserMedia E = Some ts →
  destinationAudioTrack E = Some d →
  let t := length (tracks w) + length ts in
  initLocalStream E user w
  = (Normal (Some [t]),
     set_analysers (withLevelAnalyser user (analysers w))
       (set_audioContextRef true
          (set_localStreamRef (Some [t])
             (set_audioEdges (audioEdges w ++ taps ++ [(Source, Destination)])
                (set_tracks (tracks w ++ ts ++ [d])
                   (set_calls (calls w ++ [getUserMedia_call]) w)))))).
Proof.
  intros Hmode Hmic Hdest t. subst t.
  assert (Hd : destinationTrack E = Some d ∧ kind d = audio).
  { unfold destinationAudioTrack in Hdest.
    destruct (destinationTrack E) as [d'|]; [|done].
    case_decide; [|done]. by injection Hdest as ->. }
  destruct Hd as [Hd Hk].
  unfold initLocalStream, useProcessedTrack, registerLocalAnalyser,
    allocTracks, connect, withLevelAnalyser.
  run_monad. rewrite Hmic. simpl. rewrite Hmode, Hd. simpl.
  unfold getAudioTracks. simpl. rewrite filter_cons. simpl.
  rewrite lookup_app_r, Nat.sub_diag by done. simpl. rewrite Hk. simpl.
  rewrite length_app. unfold taps.
  destruct user;
    cbv beta iota zeta delta
      [set_analysers set_audioContextRef set_localStreamRef set_audioEdges
       set_tracks set_calls audioOptions participants isMuted localStreamRef
       tracks pcs peerConnections analysers audioEdges audioContextRef
       subscriptions timers clock calls];
    rewrite <- !app_assoc; reflexivity.
Qed.

Lemma initLocalStream_clean_mode_witness :
  initLocalStream cooperative (Some alice) (initial defaultOptions)
  = (Normal (Some [1]),
     set_analysers {["u1" := levelAnalyser]}
       (set_audioContextRef true
          (set_localStreamRef (Some [1])
             (set_audioEdges (taps ++ [(Source, Destination)])
                (set_tracks [micTrack; micTrack]
                   (set_calls [getUserMedia_call]
                              (initial defaultOptions))))))).
Proof.
  apply (initLocalStream_clean_mode cooperative (Some alice)
           (initial defaultOptions) [micTrack] micTrack);
    reflexivity.
Defined.

(** ** The source is connected to the destination *)

Lemma extends_app es0 w es :
  extends es0 w → extends es0 (set_audioEdges (audioEdges w ++ es) w).
Proof. intros [es1 H]. exists (es1 ++ es). simpl. by rewrite H, app_assoc. Qed.

Lemma feeds_app w es :
  feeds w → feeds (set_audioEdges (audioEdges w ++ es) w).
Proof. unfold feeds. simpl. apply reach_mono. set_solver. Qed.

Section Feeds.
Variables (user : option User) (o : AudioProcessingOptions)
  (es0 : list Edge).

Let G := wired es0 o.
Let F (w : World) : Prop := G w ∧ feeds w.

Lemma connect_G a b R : hoare G (connect a b) (λ _, G) R.
Proof. apply hoare_modify. intros w [He Ho]. split; [by apply extends_app|done]. Qed.

Lemma connect_F a b R : hoare F (connect a b) (λ _, F) R.
Proof.
  apply hoare_modify. intros w [[He Ho] Hf].
  split; [split; [by apply extends_app|done]|by apply feeds_app].
Qed.

(** Steps that leave the connections and the options alone. *)
Lemma registerLocalAnalyser_edges (I : World → Prop) R :
  (∀ w w', audioEdges w' = audioEdges w → audioOptions w' = audioOptions w →
           I w → I w') →
  hoare I (registerLocalAnalyser user) (λ _, I) R.
Proof.
  intros HI. unfold registerLocalAnalyser.
  destruct user; [|by apply hoare_ret].
  apply hoare_modify. intros w. by apply HI.
Qed.

Lemma useProcessedTrack_edges (I : World → Prop) dest otherwise
    (Q : option MediaStream → World → Prop) R :
  (∀ w w', audioEdges w' = audioEdges w → audioOptions w' = audioOptions w →
           I w → I w') →
  (∀ r w, I w → Q r w) →
  hoare I otherwise Q R →
  hoare I (useProcessedTrack user dest otherwise) Q R.
Proof.
  intros HI HQ Ho. unfold useProcessedTrack.
  apply hoare_get_bind. intros w Hw.
  apply (hoare_pre _ I); [by intros ? ->|].
  destruct (head _) as [t|]; [|exact Ho].
  apply (hoare_bind _ _ _ (λ _, I)).
  { apply hoare_modify. intros w'. by apply HI. }
  intros _. apply (hoare_bind _ _ _ (λ _, I)).
  { apply hoare_modify. intros w'. by apply HI. }
  intros _. apply (hoare_bind _ _ _ (λ _, I)).
  { by apply registerLocalAnalyser_edges. }
  intros _. apply hoare_ret. intros w'. apply HQ.
Qed.

Lemma G_edges w w' :
  audioEdges w' = audioEdges w → audioOptions w' = audioOptions w → G w → G w'.
Proof. intros He Ho [[es H] Hopt]. split; [exists es|]; congruence. Qed.

Lemma F_edges w w' :
  audioEdges w' = audioEdges w → audioOptions w' = audioOptions w → F w → F w'.
Proof.
  intros He Ho [HG Hf]. split; [by eapply G_edges|]. unfold feeds. by rewrite He.
Qed.

Lemma fallbackGraph_feeds stream dest R :
  hoare G (fallbackGraph user stream dest) (λ _, F) R.
Proof.
  unfold fallbackGraph.
  apply (hoare_bind _ _ _ (λ _ w, G w ∧ (Source, FallbackCompressor) ∈ audioEdges w)).
  { apply hoare_modify. intros w [He Ho]. split; [split; [by apply extends_app|done]|].
    simpl. set_solver. }
  intros _.
  apply (hoare_bind _ _ _ (λ _ w, G w ∧ (Source, FallbackCompressor) ∈ audioEdges w)).
  { apply hoare_modify. intros w [[He Ho] Hin].
    split; [split; [by apply extends_app|done]|]. simpl. set_solver. }
  intros _.
  apply (hoare_bind _ _ _ (λ _, F)).
  { apply hoare_modify. intros w [[He Ho] Hin].
    split; [split; [by apply extends_app|done]|]. unfold feeds. simpl.
    apply (reach_step _ _ FallbackCompressor);
      [apply (reach_step _ _ Source); [apply reach_refl|]|]; set_solver. }
  intros _.
  apply (hoare_bind _ _ _ (λ _, F)).
  { apply hoare_modify. intros w. by apply F_edges. }
  intros _.
  apply (hoare_bind _ _ _ (λ _, F)).
  { apply registerLocalAnalyser_edges, F_edges. }
  intros _. apply hoare_get_bind. intros w Hw.
  apply (hoare_pre _ F); [by intros ? ->|].
  destruct (head _).
  - apply (hoare_bind _ _ _ (λ _, F)); [|intros _; by apply hoare_ret].
    apply hoare_modify. intros w'. by apply F_edges.
  - apply (hoare_bind _ _ _ (λ _, F)); [|intros _; by apply hoare_ret].
    apply hoare_modify. intros w'. by apply F_edges.
Qed.

(** The source reaches node [n]. *)
Let To (n : AudioNode) (w : World) : Prop :=
  G w ∧ reach (audioEdges w) Source n.

Lemma connect_To a b R : hoare (To a) (connect a b) (λ _, To b) R.
Proof.
  apply hoare_modify. intros w [[He Ho] Hr].
  split; [split; [by apply extends_app|done]|]. simpl.
  apply (reach_step _ _ a); [|set_solver].
  eapply reach_mono; [|exact Hr]. set_solver.
Qed.

Lemma G_To w : G w → To Source w.
Proof. intros HG. split; [done|apply reach_refl]. Qed.

(** The legacy chain: source, optional high-pass, noise suppression,
    compressor, destination, and the monitor path. *)
Lemma legacyChain_feeds R :
  hoare G
    (graphStart ←
       (if bool_decide (highPassFilter o ≠ Some false) then
          connect Source HighPassNode;; mret HighPassNode
        else mret Source);
     connect graphStart RNNoiseNode;;
     connect RNNoiseNode Compressor;;
     connect Compressor Destination;;
     connect Destination MonitorGain;;
     connect MonitorGain Speakers)
    (λ _, F) R.
Proof.
  apply (hoare_bind _ _ _ (λ n, To n)).
  { destruct (bool_decide _).
    - apply (hoare_bind _ _ _ (λ _, To HighPassNode)).
      + eapply hoare_pre; [|apply connect_To]. apply G_To.
      + intros _. by apply hoare_ret.
    - apply hoare_ret. apply G_To. }
  intros graphStart.
  apply (hoare_bind _ _ _ (λ _, To RNNoiseNode)); [apply connect_To|].
  intros _.
  apply (hoare_bind _ _ _ (λ _, To Compressor)); [apply connect_To|].
  intros _.
  apply (hoare_bind _ _ _ (λ _, F)); [apply connect_To|].
  intros _.
  apply (hoare_bind _ _ _ (λ _, F)); [apply connect_F|].
  intros _. apply connect_F.
Qed.

Lemma useMicrophone_edges (I : World → Prop) stream
    (Q : option MediaStream → World → Prop) R :
  (∀ w w', audioEdges w' = audioEdges w → audioOptions w' = audioOptions w →
           I w → I w') →
  (∀ r w, I w → Q r w) →
  hoare I (modify (set_localStreamRef (Some stream));; mret (Some stream)) Q R.
Proof.
  intros HI HQ w Hw. run_monad. apply HQ. by apply (HI w).
Qed.

Lemma fallbackGraph_keeps_feeding stream dest R :
  hoare F (fallbackGraph user stream dest) (λ _, F) R.
Proof.
  eapply hoare_pre; [|apply fallbackGraph_feeds]. by intros w [? _].
Qed.

End Feeds.

Section FeedsEnhanced.
Variables (E : Env) (user : option User) (o : AudioProcessingOptions)
  (es0 : list Edge).

Let G := wired es0 o.
Let F (w : World) : Prop := G w ∧ feeds w.
Let Fin (w : World) : Prop := G w ∧ (feeds w ∨ chainBuilt E o es0 w).

Lemma Fin_edges w w' :
  audioEdges w' = audioEdges w → audioOptions w' = audioOptions w →
  Fin w → Fin w'.
Proof.
  intros He Ho [HG Hf]. split; [by eapply G_edges|].
  destruct Hf as [Hf|(es & ? & ? & ? & Hes)].
  - left. unfold feeds. by rewrite He.
  - right. exists es. split_and!; try done. congruence.
Qed.

(** The enhanced set-up, entered with the connections [es0]. *)
Lemma enhancedGraph_from_taps stream dest :
  useRNNoise o = true →
  hoare (λ w, audioEdges w = es0 ∧ audioOptions w = o)
        (enhancedGraph E user stream dest) (λ _, Fin) G.
Proof.
  intros Hrn.
  assert (HG : ∀ w, audioEdges w = es0 ∧ audioOptions w = o → G w).
  { intros w [He Ho]. split; [|done]. exists []. by rewrite app_nil_r. }
  unfold enhancedGraph.
  apply (hoare_bind _ _ _ (λ _ w, audioEdges w = es0 ∧ audioOptions w = o)).
  { destruct (newAudioWorkletNode E);
      [by apply hoare_ret|by apply hoare_throw]. }
  intros _. apply hoare_get_bind. intros w [He Ho].
  apply (hoare_bind _ _ _ (λ _, Fin)).
  { rewrite Ho. destruct (useProfessional o) eqn:Hpro.
    - destruct (connectWithRNNoise E _ _ _ _) as [es|] eqn:Hes.
      + apply hoare_modify. intros ? ->. split.
        * split; [by exists es; simpl; rewrite He|done].
        * right. exists es. simpl. by rewrite He.
      + apply hoare_throw. intros ? ->. by apply HG.
    - eapply hoare_conseq; [apply (legacyChain_feeds o es0 G)| | |done].
      + intros ? ->. by apply HG.
      + intros _ w' [HG' Hf]. split; [done|by left]. }
  intros _.
  apply (hoare_bind _ _ _ (λ _, Fin)).
  { destruct (bool_decide _); [|by apply hoare_ret].
    destruct (newVoiceActivityDetector E);
      [by apply hoare_ret|apply hoare_throw; by intros w' [? _]]. }
  intros _.
  apply useProcessedTrack_edges; [apply Fin_edges|done|].
  apply useMicrophone_edges; [apply Fin_edges|done].
Qed.

(** The enhanced set-up, entered after the source was connected to the
    destination: connections are only added. *)
Lemma enhancedGraph_keeps_feeding stream dest :
  hoare F (enhancedGraph E user stream dest) (λ _, F) F.
Proof.
  unfold enhancedGraph.
  apply (hoare_bind _ _ _ (λ _, F)).
  { destruct (newAudioWorkletNode E);
      [by apply hoare_ret|by apply hoare_throw]. }
  intros _. apply hoare_get_bind. intros w Hw.
  apply (hoare_pre _ F); [by intros ? ->|].
  apply (hoare_bind _ _ _ (λ _, F)).
  { destruct (useProfessional _).
    - destruct (connectWithRNNoise E _ _ _ _) as [es|];
        [|by apply hoare_throw].
      apply hoare_modify. intros w' [[He Ho] Hf].
      split; [split; [by apply extends_app|done]|by apply feeds_app].
    - apply (hoare_bind _ _ _ (λ _, F)).
      { destruct (bool_decide _).
        - apply (hoare_bind _ _ _ (λ _, F));
            [apply connect_F|intros _; by apply hoare_ret].
        - by apply hoare_ret. }
      intros graphStart.
      repeat (apply (hoare_bind _ _ _ (λ _, F));
              [apply connect_F|intros _]).
      apply connect_F. }
  intros _.
  apply (hoare_bind _ _ _ (λ _, F)).
  { destruct (bool_decide _); [|by apply hoare_ret].
    destruct (newVoiceActivityDetector E);
      [by apply hoare_ret|by apply hoare_throw]. }
  intros _.
  apply useProcessedTrack_edges; [apply F_edges|done|].
  apply useMicrophone_edges; [apply F_edges|done].
Qed.

End FeedsEnhanced.

(** X4. The microphone is always routed.  After [initLocalStream] with a
    granted microphone, the connections made are the taps followed by
    others, and the source is connected to the destination, directly or
    through stages, in every mode and after every failure of the enhanced
    set-up; the one exception is the build that succeeds with the
    professional chain, where the connections after the taps are exactly
    those [connectWithRNNoise] made. *)
Theorem source_feeds_destination (E : Env) (user : option User)
    (opts : AudioProcessingOptions) (ts : list MediaStreamTrack) :
  getUserMedia E = Some ts →
  let w' := exec (initLocalStream E user) (initial opts) in
  extends taps w' ∧ (feeds w' ∨ chainBuilt E opts taps w').
Proof.
  intros Hmic w'.
  set (G := λ w, extends taps w ∧ audioOptions w = opts).
  set (Fin := λ w, G w ∧ (feeds w ∨ chainBuilt E opts taps w)).
  set (Pre := λ es w, audioEdges w = es ∧ audioOptions w = opts).
  assert (Hm : hoare (Pre []) (initLocalStream E user) (λ _, Fin) (λ _, False)).
  2:{ specialize (Hm (initial opts) (conj eq_refl eq_refl)).
      subst w'. unfold exec.
      destruct (initLocalStream E user (initial opts)) as [[r|] w1];
        [|done].
      destruct Hm as [[He _] Hf]. done. }
  unfold initLocalStream.
  apply (hoare_try_catch _ _ _ _ (λ _, False)); [|by intros ? ?].
  apply (hoare_bind _ _ _ (λ _, Pre [])).
  { apply hoare_call. by intros w [? ?]. }
  intros _. rewrite Hmic.
  apply (hoare_bind _ _ _ (λ _, Pre [])).
  { intros w [? ?]. unfold allocTracks. by run_monad. }
  intros stream.
  apply (hoare_bind _ _ _ (λ _, Pre [])).
  { apply hoare_modify. by intros w [? ?]. }
  intros _.
  apply (hoare_bind _ _ _ (λ _, Pre [])).
  { intros w [? ?]. unfold allocTracks. by run_monad. }
  intros dest.
  apply (hoare_bind _ _ _ (λ _, Pre [(Source, Analyser)])).
  { apply hoare_modify. intros w [He Ho]. split; [simpl; by rewrite He|done]. }
  intros _.
  apply (hoare_bind _ _ _
           (λ _, Pre [(Source, Analyser); (Source, MonitorGain)])).
  { apply hoare_modify. intros w [He Ho]. split; [simpl; by rewrite He|done]. }
  intros _.
  apply (hoare_bind _ _ _
           (λ _, Pre [(Source, Analyser); (Source, MonitorGain);
                      (MonitorGain, StereoPanner)])).
  { apply hoare_modify. intros w [He Ho]. split; [simpl; by rewrite He|done]. }
  intros _.
  apply (hoare_bind _ _ _ (λ _, Pre taps)).
  { apply hoare_modify. intros w [He Ho]. split; [simpl; by rewrite He|done]. }
  intros _. apply hoare_get_bind. intros w [He Ho].
  apply (hoare_pre _ (Pre taps)); [by intros ? ->|]. rewrite Ho.
  destruct (useRNNoiseProcessing opts) eqn:Hmode; simpl.
  - eapply hoare_try_catch.
    + apply enhancedGraph_from_taps.
      unfold useRNNoiseProcessing in Hmode. by destruct (useRNNoise opts).
    + eapply hoare_conseq; [apply (fallbackGraph_feeds user opts taps)| | |].
      * intros ? H; exact H.
      * intros _ w1 [HG Hf]. split; [exact HG|by left].
      * intros ? H; exact H.
  - apply (hoare_bind _ _ _ (λ _ w, G w ∧ feeds w)).
    { apply hoare_modify. intros w1 [He1 Ho1]. split.
      - split; [|done]. exists [(Source, Destination)]. simpl. by rewrite He1.
      - unfold feeds. simpl. apply (reach_step _ _ Source);
          [apply reach_refl|set_solver]. }
    intros _.
    apply useProcessedTrack_edges.
    + apply F_edges.
    + intros r w1 [HG Hf]. split; [exact HG|by left].
    + eapply hoare_conseq.
      * eapply hoare_try_catch;
          [apply enhancedGraph_keeps_feeding
          |apply (fallbackGraph_keeps_feeding user opts taps)].
      * intros ? H; exact H.
      * intros _ w1 [HG Hf]. split; [exact HG|by left].
      * intros ? H; exact H.
Qed.

Lemma source_feeds_destination_witness :
  feeds (exec (initLocalStream cooperative (Some alice))
              (initial defaultOptions))
  ∨ chainBuilt cooperative defaultOptions taps
      (exec (initLocalStream cooperative (Some alice))
            (initial defaultOptions)).
Proof.
  pose proof (source_feeds_destination cooperative (Some alice) defaultOptions
                [micTrack] eq_refl) as [_ H].
  exact H.
Defined.


(** Walk through monadic code, leaving the [modify] steps to [leaf]. *)
Ltac frame_step leaf :=
  lazymatch goal with
  | |- preserves _ (mret _) => apply preserves_ret
  | |- preserves _ throw => apply preserves_throw
  | |- preserves _ get => apply preserves_get
  | |- preserves _ (modify _) => apply preserves_modify; leaf
  | |- preserves _ (try_catch _ _) => apply preserves_try_catch
  | |- preserves _ (detached _) => apply preserves_detached
  | |- preserves _ (forM _ _) => apply preserves_forM; intros ?
  | |- preserves _ (forEach_async _ _) =>
      apply preserves_forEach_async; intros ? _
  | |- preserves _ (mbind _ _) => apply preserves_bind; [|intros ?]
  | |- preserves _ (let _ := _ in _) => cbv zeta
  | |- preserves _ (match ?x with _ => _ end) => destruct x
  end.

(** Compute the fields of a world written with the setters. *)
Ltac fields :=
  cbv beta iota zeta delta
    [set_participants set_isMuted set_localStreamRef set_tracks set_pcs
     set_peerConnections set_analysers set_audioEdges set_audioContextRef
     set_subscriptions set_timers set_clock set_calls
     audioOptions participants isMuted localStreamRef tracks pcs
     peerConnections analysers audioEdges audioContextRef subscriptions
     timers clock calls].

Ltac unfold_handlers :=
  unfold dispatch, onSnapshotEvent, onMailboxChange, onRosterSnapshot,
    onRosterDoc, onOfferChange, onAnswerChange, onIceChange,
    connectionStateChange, onconnectionstatechange, setTimeout,
    onicecandidate, ontrack, advance, graceCallback, close, toggleMute,
    createPeerConnection, pcQuery, pcMethod, firestore, call.

Lemma dispatch_settled E roomId user ev X :
  preserves (λ w, settled w = X) (dispatch E roomId user ev).
Proof.
  destruct ev; unfold_handlers;
    repeat frame_step ltac:(intros ? H; exact H).
Qed.

Lemma run_settled E roomId user evs w :
  settled (run E roomId user evs w) = settled w.
Proof.
  apply (run_preserves E roomId user (λ w', settled w' = settled w));
    [intros ev; apply dispatch_settled|done].
Qed.

Lemma initLocalStream_outsideAudio E user X :
  preserves (λ w, outsideAudio w = X) (initLocalStream E user).
Proof.
  unfold initLocalStream, enhancedGraph, fallbackGraph, useProcessedTrack,
    registerLocalAnalyser, allocTracks, connect, call.
  repeat frame_step ltac:(intros ? H; exact H).
Qed.

Lemma join_world E room u w0 :
  join E room u w0 =
    match initLocalStream E (Some u) w0 with
    | (Normal (Some s), w1) =>
        if rejects E (presence room u)
        then (Throw, set_calls (calls w1 ++ [presence room u]) w1)
        else (Normal (),
              set_subscriptions (subscriptions w1 ++ ownSubscriptions room u s)
                (set_calls
                   (calls w1 ++ presence room u
                      :: (onSnapshot ∘ sub_ref <$> ownSubscriptions room u s))
                   w1))
    | (Normal None, w1) => (Normal (), w1)
    | (Throw, w1) => (Throw, w1)
    end.
Proof.
  unfold join. unfold mbind at 1, M_bind at 1.
  destruct (initLocalStream E (Some u) w0) as [[[s|]|] w1]; try done.
  unfold subscribe, presence. run_monad.
  destruct (rejects E _); simpl; [done|].
  unfold ownSubscriptions. fields. simpl.
  by rewrite <- !app_assoc.
Qed.

Lemma joinEffect_subscribed E roomId user opts :
  let w1 := exec (joinEffect E roomId user) (initial opts) in
  match truthy roomId, user with
  | Some room, Some u =>
      if bool_decide (is_Some (getUserMedia E))
         && negb (rejects E (presence room u))
      then ∃ stream, localStreamRef w1 = Some stream
                     ∧ subscriptions w1 = ownSubscriptions room u stream
      else subscriptions w1 = []
  | _, _ => subscriptions w1 = []
  end.
Proof.
  intros w1. subst w1. unfold joinEffect.
  destruct (truthy roomId) as [room|], user as [u|]; try done.
  unfold exec, detached. simpl. rewrite join_world.
  destruct (getUserMedia E) as [ts|] eqn:Hmic.
  - pose proof (initLocalStream_granted E (Some u) (initial opts) ts Hmic
                  (initial opts) eq_refl) as H.
    pose proof (initLocalStream_outsideAudio E (Some u) _ (initial opts)
                  eq_refl) as Hout.
    unfold exec in Hout.
    destruct (initLocalStream E (Some u) (initial opts)) as [[r|] w1];
      [|done].
    destruct H as (s & -> & Hl & _). simpl in Hout.
    injection Hout as _ _ _ _ _ Hsub _ _.
    rewrite bool_decide_eq_true_2 by (by eexists). simpl.
    destruct (rejects E (presence room u)); simpl; [done|].
    exists s. by rewrite Hsub.
  - rewrite initLocalStream_denied by done.
    rewrite bool_decide_eq_false_2; [done|]. by intros [? ?].
Qed.

(** X1. Who the hook listens to.  In every world reached from a freshly
    mounted hook the subscriptions are either none or exactly the four
    that [join] installs, on the roster of the own room and on the own
    three mailboxes, each holding the stream that is in
    [localStreamRef.current].  They are installed exactly when the hook has
    a room id and a user, the microphone is granted and Firestore accepts
    the presence record; no event adds or removes one. *)
Theorem subscriptions_after_join (E : Env) (roomId : option string)
    (user : option User) (opts : AudioProcessingOptions) (evs : list Event) :
  let w := run E roomId user evs
             (exec (joinEffect E roomId user) (initial opts)) in
  match truthy roomId, user with
  | Some room, Some u =>
      if bool_decide (is_Some (getUserMedia E))
         && negb (rejects E (presence room u))
      then ∃ stream, localStreamRef w = Some stream
                     ∧ subscriptions w = ownSubscriptions room u stream
      else subscriptions w = []
  | _, _ => subscriptions w = []
  end.
Proof.
  intros w.
  pose proof (run_settled E roomId user evs
                (exec (joinEffect E roomId user) (initial opts))) as Hs.
  fold w in Hs. unfold settled in Hs.
  injection Hs as _ Hl _ _ Hsub. rewrite Hl, Hsub.
  apply joinEffect_subscribed.
Qed.

(** ** What the connections send *)

Section Sends.
Variables (E : Env) (L : option MediaStream).
Hypothesis HE : keeps_senders E.

Lemma sends_frame w w' : pcs w' = pcs w → sends L w → sends L w'.
Proof. unfold sends. by intros ->. Qed.

Lemma sends_alter f h w :
  (∀ c, senders (f c) = senders c) →
  sends L w → sends L (set_pcs (alter (on_pc f) h (pcs w)) w).
Proof.
  intros Hf Hw h' l. simpl. destruct (decide (h' = h)) as [->|Hne].
  - rewrite list_lookup_alter_same.
    destruct (pcs w !! h) as [l0|] eqn:Hl; [|done]. simpl.
    intros [= <-]. simpl. rewrite Hf. by eapply Hw.
  - rewrite list_lookup_alter_other by done. apply Hw.
Qed.

Lemma createPeerConnection_sends id stream :
  Some stream = L → preserves (sends L) (createPeerConnection id stream).
Proof.
  intros Hs w Hw h l. unfold createPeerConnection. run_monad.
  intros [Hl|[_ Hl]]%lookup_app_Some; [by eapply Hw|].
  destruct (h - length (pcs w)); [|done]. by injection Hl as <-.
Qed.

Lemma pcMethod_sends c h op :
  (∀ c0 c', op c0 = Some c' → senders c' = senders c0) →
  preserves (sends L) (pcMethod c h op).
Proof.
  intros Hop w Hw. unfold pcMethod. run_monad.
  destruct (pcs w !! h) as [l|] eqn:Hl; simpl; [|done].
  destruct (op (pc l)) as [c'|] eqn:Hc; simpl; [|done].
  intros h' l'. simpl. destruct (decide (h' = h)) as [->|Hne].
  - rewrite list_lookup_insert_eq by (by eapply lookup_lt_Some).
    intros [= <-]. simpl. rewrite (Hop _ _ Hc). by eapply Hw.
  - rewrite list_lookup_insert_ne by congruence. apply Hw.
Qed.

Lemma connectionStateChange_sends h s :
  preserves (sends L) (connectionStateChange h s).
Proof.
  intros w Hw. unfold connectionStateChange, onconnectionstatechange,
    setTimeout, call. run_monad.
  destruct (pcs w !! h) as [l|] eqn:Hl; simpl; [|done].
  destruct (_ && _); simpl; [|done].
  rewrite list_lookup_alter_same, Hl. simpl.
  assert (H : sends L (set_pcs
                (alter (on_pc (with_connectionState s)) h (pcs w)) w))
    by (by apply sends_alter).
  destruct s; simpl; done.
Qed.

Ltac sends_step :=
  first
    [ apply createPeerConnection_sends; assumption
    | apply pcMethod_sends;
      let H := fresh in
      intros ? ? H; simpl in H; eapply HE; eauto
    | frame_step ltac:(first [ intros ? H; exact H
                             | intros ?; by apply sends_alter ]) ].

Ltac unfold_listeners :=
  unfold onRosterSnapshot, onRosterDoc, onOfferChange, onAnswerChange,
    onIceChange, onicecandidate, ontrack, advance, graceCallback, close,
    toggleMute, pcQuery, firestore, call.

Lemma listeners_send room u stream :
  Some stream = L →
  (∀ docs, preserves (sends L) (onRosterSnapshot E room u stream docs))
  ∧ (∀ box s change,
       sub_room s = room → sub_user s = u → sub_stream s = stream → 
       preserves (sends L) (onMailboxChange E box s change)).
Proof.
  intros Hs. split.
  - intros docs. unfold_listeners. repeat sends_step.
  - intros box s change <- <- <-. unfold onMailboxChange.
    destruct box; unfold_listeners; repeat sends_step.
Qed.

Lemma dispatch_sends roomId user ev w :
  (∀ s, s ∈ subscriptions w → Some (sub_stream s) = L) →
  sends L w → sends L (exec (dispatch E roomId user ev) w).
Proof.
  intros Hsub Hw. destruct ev; simpl.
  - unfold onSnapshotEvent. rewrite exec_bind. simpl.
    apply preserves_forEach_async; [|done].
    intros s [_ Hin]%list_elem_of_filter.
    destruct (listeners_send (sub_room s) (sub_user s) (sub_stream s)
                (Hsub s Hin)) as [Hroster _].
    apply Hroster.
  - unfold onSnapshotEvent. rewrite exec_bind. simpl.
    apply preserves_forEach_async; [|done].
    intros s [_ Hin]%list_elem_of_filter.
    apply preserves_forEach_async. intros change _.
    destruct (listeners_send (sub_room s) (sub_user s) (sub_stream s)
                (Hsub s Hin)) as [_ Hbox].
    by apply Hbox.
  - by apply connectionStateChange_sends.
  - revert w Hsub Hw. intros w _. revert w.
    change (preserves (sends L) (onicecandidate E roomId user h candidate)).
    unfold_listeners. repeat sends_step.
  - revert w Hsub Hw. intros w _. revert w.
    change (preserves (sends L) (ontrack h)).
    unfold_listeners. repeat sends_step.
  - revert w Hsub Hw. intros w _. revert w.
    change (preserves (sends L) (advance dt)).
    unfold_listeners. repeat sends_step.
  - revert w Hsub Hw. intros w _. revert w.
    change (preserves (sends L) (detached (toggleMute E roomId user))).
    unfold_listeners. repeat sends_step.
Qed.

End Sends.

(** The world the join effect leaves: no connection yet, and whatever is
    subscribed is one of the own four listeners, holding the local
    stream. *)
Lemma joinEffect_subscriptions E roomId user opts :
  let w1 := exec (joinEffect E roomId user) (initial opts) in
  pcs w1 = [] ∧ peerConnections w1 = ∅ ∧ timers w1 = []
  ∧ audioOptions w1 = opts
  ∧ ∀ s, s ∈ subscriptions w1 →
      ∃ room u stream,
        truthy roomId = Some room ∧ user = Some u
        ∧ localStreamRef w1 = Some stream
        ∧ s ∈ ownSubscriptions room u stream.
Proof.
  intros w1.
  assert (Hsig : signaling_is [] ∅ [] w1).
  { subst w1. unfold joinEffect.
    destruct (truthy roomId), user; try done.
    rewrite exec_detached. by apply join_signaling. }
  destruct Hsig as (Hp & Hm & Ht). split_and!; try done.
  { subst w1. unfold joinEffect.
    destruct (truthy roomId) as [room|], user as [u|]; try done.
    unfold exec, detached. simpl. rewrite join_world.
    pose proof (initLocalStream_outsideAudio E (Some u) _ (initial opts)
                  eq_refl) as Hout.
    unfold exec in Hout.
    destruct (initLocalStream E (Some u) (initial opts)) as [[[s|]|] w1];
      simpl in *; injection Hout as Ho _; try done.
    by destruct (rejects E _). }
  pose proof (joinEffect_subscribed E roomId user opts) as H.
  simpl in H. fold w1 in H. intros s Hin.
  destruct (truthy roomId) as [room|], user as [u|];
    try (rewrite H in Hin; by apply elem_of_nil in Hin).
  destruct (_ && _); [|rewrite H in Hin; by apply elem_of_nil in Hin].
  destruct H as (stream & Hl & Hsub). exists room, u, stream.
  by rewrite <- Hsub.
Qed.

Lemma ownSubscriptions_stream room u stream s :
  s ∈ ownSubscriptions room u stream →
  sub_room s = room ∧ sub_user s = u ∧ sub_stream s = stream.
Proof.
  unfold ownSubscriptions. intros (ref & -> & _)%list_elem_of_fmap. done.
Qed.

(** Every connection object of a reachable world sends the local stream. *)
Lemma reachable_sends E roomId user opts evs :
  keeps_senders E →
  let w := run E roomId user evs
             (exec (joinEffect E roomId user) (initial opts)) in
  sends (localStreamRef w) w.
Proof.
  intros HE w.
  set (w1 := exec (joinEffect E roomId user) (initial opts)) in *.
  destruct (joinEffect_subscriptions E roomId user opts)
    as (Hp & _ & _ & _ & Hsub). fold w1 in Hp, Hsub.
  assert (HK : settled w = settled w1 ∧ sends (localStreamRef w1) w).
  { apply (run_preserves E roomId user
             (λ w, settled w = settled w1 ∧ sends (localStreamRef w1) w)).
    - intros ev w0 [Hs Hw0]. split; [by apply dispatch_settled|].
      apply dispatch_sends; [done| |done].
      unfold settled in Hs. injection Hs as _ _ _ _ ->.
      intros s Hin. destruct (Hsub s Hin) as (room & u & stream & _ & _ & -> & Hown).
      by apply ownSubscriptions_stream in Hown as (_ & _ & ->).
    - split; [done|]. intros h l. by rewrite Hp, lookup_nil. }
  destruct HK as [Hs Hw]. unfold settled in Hs.
  injection Hs as _ -> _ _ _. done.
Qed.

(** [toggleMute], computed. *)
Lemma toggleMute_world E roomId user w :
  exec (toggleMute E roomId user) w =
    match localAudioTrack w with
    | Some t =>
        let ts := alter (λ tr, with_enabled (negb (enabled tr)) tr) t
                        (tracks w) in
        let muted := negb (default false (enabled <$> ts !! t)) in
        let w2 := set_isMuted muted (set_tracks ts w) in
        match truthy roomId, user with
        | Some room, Some u =>
            set_calls (calls w ++ [updateDoc (participantRef room (uid u))
                                             muted]) w2
        | _, _ => w2
        end
    | None => w
    end.
Proof.
  unfold localAudioTrack, toggleMute. run_monad.
  destruct (localStreamRef w) as [stream|]; simpl; [|done].
  destruct (head (getAudioTracks w stream)) as [t|]; simpl; [|done].
  destruct (truthy roomId), user; simpl; try done.
  by destruct (rejects E _).
Qed.

Lemma getAudioTracks_kinds w w' stream :
  (∀ i, kind <$> tracks w' !! i = kind <$> tracks w !! i) →
  getAudioTracks w' stream = getAudioTracks w stream.
Proof.
  intros Hk. unfold getAudioTracks. apply list_filter_iff.
  intros i. by rewrite Hk.
Qed.

Lemma toggled_kinds (t : nat) (ts : list MediaStreamTrack) (i : nat) :
  kind <$> alter (λ tr, with_enabled (negb (enabled tr)) tr) t ts !! i
  = kind <$> ts !! i.
Proof.
  destruct (decide (i = t)) as [->|Hne].
  - rewrite list_lookup_alter_same. by destruct (ts !! t).
  - by rewrite list_lookup_alter_other.
Qed.

(** X9. Mute reaches every peer.  Let the browser's methods leave the
    senders of a connection alone.  In every world reached from a freshly
    mounted hook, every connection object, whoever created it and in
    whatever state it is, sends the tracks of [localStreamRef.current];
    so after [toggleMute] the audio track that any connection sends is
    enabled exactly when [isMuted] is false. *)
Theorem mute_reaches_every_peer (E : Env) (roomId : option string)
    (user : option User) (opts : AudioProcessingOptions) (evs : list Event) :
  keeps_senders E →
  let w := run E roomId user evs
             (exec (joinEffect E roomId user) (initial opts)) in
  let w' := exec (toggleMute E roomId user) w in
  (∀ h l, pcs w !! h = Some l → localStreamRef w = Some (senders (pc l)))
  ∧ (∀ h l t,
       pcs w' !! h = Some l →
       head (getAudioTracks w' (senders (pc l))) = Some t →
       enabled <$> tracks w' !! t = Some (negb (isMuted w'))).
Proof.
  intros HE w w'.
  pose proof (reachable_sends E roomId user opts evs HE) as Hsends.
  simpl in Hsends. fold w in Hsends. split.
  { intros h l Hl. symmetry. by eapply Hsends. }
  intros h l t Hl Ht.
  assert (Hpcs : pcs w' = pcs w ∧ localStreamRef w' = localStreamRef w
                 ∧ ∀ i, kind <$> tracks w' !! i = kind <$> tracks w !! i).
  { subst w'. rewrite toggleMute_world.
    destruct (localAudioTrack w); [|done].
    destruct (truthy roomId), user; simpl; split_and!; try done;
      intros i; apply toggled_kinds. }
  destruct Hpcs as (Hp & Hloc & Hk).
  rewrite Hp in Hl. specialize (Hsends h l Hl).
  rewrite (getAudioTracks_kinds w w') in Ht by done.
  assert (Hlt : localAudioTrack w = Some t).
  { unfold localAudioTrack. by rewrite <- Hsends. }
  subst w'. rewrite toggleMute_world, Hlt.
  destruct (localAudioTrack_lookup w t Hlt) as [tr Htr].
  destruct (truthy roomId), user; simpl;
    rewrite list_lookup_alter_same, Htr; simpl; by rewrite negb_involutive.
Qed.

Lemma keeps_senders_cooperative : keeps_senders cooperative.
Proof.
  intros c s c' [H|[H|H]]; simpl in H.
  - destruct (signalingState c); by simplify_eq.
  - destruct (signalingState c); by simplify_eq.
  - destruct (remoteDescription c); by simplify_eq.
Qed.

Lemma mute_reaches_every_peer_witness :
  let w := run cooperative (Some "R") (Some alice)
             [RosterSnapshot "R" [rosterDoc alice; rosterDoc bob]]
             (exec (joinEffect cooperative (Some "R") (Some alice))
                   (initial defaultOptions)) in
  localStreamRef w = Some (senders (pc aliceBobLink)).
Proof.
  intros w.
  assert (Hl : pcs w !! 0 = Some aliceBobLink) by (vm_compute; reflexivity).
  pose proof (mute_reaches_every_peer cooperative (Some "R") (Some alice)
                defaultOptions
                [RosterSnapshot "R" [rosterDoc alice; rosterDoc bob]]
                keeps_senders_cooperative) as [H _].
  exact (H 0 aliceBobLink Hl).
Defined.

Lemma localAudioTrack_kinds w w' :
  localStreamRef w' = localStreamRef w →
  (∀ i, kind <$> tracks w' !! i = kind <$> tracks w !! i) →
  localAudioTrack w' = localAudioTrack w.
Proof.
  intros Hl Hk. unfold localAudioTrack. rewrite Hl.
  destruct (localStreamRef w) as [stream|]; [|done]. simpl.
  by rewrite (getAudioTracks_kinds w w').
Qed.

(** X10. Toggling twice.  When the local stream has an audio track, one
    [toggleMute] leaves [isMuted] equal to what the track's [enabled] flag
    was, and a second one gives the track back as it was and leaves
    [isMuted] the opposite; no other track is touched; and the two values
    are written to the own roster record in that order when the hook has
    a room id and a user.  The local change is made whether or not
    Firestore accepts the write. *)
Theorem toggleMute_twice (E : Env) (roomId : option string)
    (user : option User) (w : World) (t : nat) (tr : MediaStreamTrack) :
  localAudioTrack w = Some t → tracks w !! t = Some tr →
  let w1 := exec (toggleMute E roomId user) w in
  let w2 := exec (toggleMute E roomId user) w1 in
  tracks w1 = <[t := with_enabled (negb (enabled tr)) tr]> (tracks w)
  ∧ isMuted w1 = enabled tr
  ∧ tracks w2 = tracks w
  ∧ isMuted w2 = negb (enabled tr)
  ∧ newCalls w w2
    = match truthy roomId, user with
      | Some room, Some u =>
          [updateDoc (participantRef room (uid u)) (enabled tr);
           updateDoc (participantRef room (uid u)) (negb (enabled tr))]
      | _, _ => []
      end.
Proof.
  intros Ht Htr w1 w2.
  assert (Hlt : t < length (tracks w)) by (by eapply lookup_lt_Some).
  set (f := λ tr0, with_enabled (negb (enabled tr0)) tr0).
  assert (H1 : alter f t (tracks w)
               = <[t := with_enabled (negb (enabled tr)) tr]> (tracks w)).
  { apply list_eq. intros i. destruct (decide (i = t)) as [->|Hne].
    - by rewrite list_lookup_alter_same, list_lookup_insert_eq, Htr.
    - rewrite list_lookup_alter_other by done.
      rewrite list_lookup_insert_ne; [done|congruence]. }
  assert (H2 : alter f t (alter f t (tracks w)) = tracks w).
  { apply list_eq. intros i. destruct (decide (i = t)) as [->|Hne].
    - rewrite !list_lookup_alter_same, Htr. simpl. unfold f, with_enabled.
      simpl. rewrite negb_involutive. by destruct tr.
    - by rewrite !list_lookup_alter_other. }
  assert (Hw1 : w1 = match truthy roomId, user with
                     | Some room, Some u =>
                         set_calls (calls w ++ [updateDoc
                           (participantRef room (uid u)) (enabled tr)])
                           (set_isMuted (enabled tr)
                              (set_tracks (alter f t (tracks w)) w))
                     | _, _ => set_isMuted (enabled tr)
                                 (set_tracks (alter f t (tracks w)) w)
                     end).
  { subst w1. rewrite toggleMute_world, Ht. cbv zeta. fold f.
    rewrite list_lookup_alter_same, Htr. simpl. rewrite negb_involutive.
    done. }
  assert (Ht1 : localAudioTrack w1 = Some t).
  { rewrite <- Ht. apply localAudioTrack_kinds.
    - rewrite Hw1. by destruct (truthy roomId), user.
    - intros i. rewrite Hw1.
      destruct (truthy roomId), user; simpl; apply toggled_kinds. }
  assert (Htr1 : tracks w1 = alter f t (tracks w)).
  { rewrite Hw1. by destruct (truthy roomId), user. }
  assert (Hw2 : w2 = match truthy roomId, user with
                     | Some room, Some u =>
                         set_calls (calls w1 ++ [updateDoc
                           (participantRef room (uid u)) (negb (enabled tr))])
                           (set_isMuted (negb (enabled tr))
                              (set_tracks (tracks w) w1))
                     | _, _ => set_isMuted (negb (enabled tr))
                                 (set_tracks (tracks w) w1)
                     end).
  { subst w2. rewrite toggleMute_world, Ht1. cbv zeta. fold f.
    rewrite Htr1, H2, Htr. done. }
  split_and!.
  - by rewrite Htr1.
  - rewrite Hw1. by destruct (truthy roomId), user.
  - rewrite Hw2. by destruct (truthy roomId), user.
  - rewrite Hw2. by destruct (truthy roomId), user.
  - rewrite Hw2, Hw1. destruct (truthy roomId), user; simpl;
      try (by apply newCalls_unchanged).
    apply newCalls_app. simpl. by rewrite <- app_assoc.
Qed.

Lemma toggleMute_twice_witness :
  tracks (exec (toggleMute cooperative (Some "R") (Some alice))
            (exec (toggleMute cooperative (Some "R") (Some alice))
                  aliceJoined))
  = tracks aliceJoined.
Proof.
  apply (toggleMute_twice cooperative (Some "R") (Some alice) aliceJoined 1
           micTrack); vm_compute; reflexivity.
Defined.


Lemma forEach_close hs w :
  forEach hs close w
  = (Normal (),
     set_pcs (closeAll hs (pcs w))
             (set_calls (calls w ++ (pc_close <$> hs)) w)).
Proof.
  revert w. induction hs as [|h hs IH]; intros w.
  - simpl. rewrite app_nil_r. by destruct w.
  - simpl. unfold close at 1. run_monad. rewrite IH. simpl.
    by rewrite <- app_assoc.
Qed.

Lemma forEach_stop stream w :
  forEach stream stop w = (Normal (), set_tracks (stopAll stream (tracks w)) w).
Proof.
  revert w. induction stream as [|t stream IH]; intros w.
  - simpl. by destruct w.
  - simpl. unfold stop at 1. run_monad. by rewrite IH.
Qed.

Lemma closeAll_lookup hs ps (h : nat) :
  closeAll hs ps !! h
  = (if bool_decide (h ∈ hs) then on_pc closed else λ l, l) <$> ps !! h.
Proof.
  revert ps. induction hs as [|h0 hs IH]; intros ps; simpl.
  - by destruct (ps !! h).
  - rewrite IH. destruct (decide (h = h0)) as [->|Hne].
    + rewrite list_lookup_alter_same.
      rewrite (bool_decide_eq_true_2 (h0 ∈ h0 :: hs)) by left.
      destruct (ps !! h0) as [l|]; simpl; [|by case_bool_decide].
      case_bool_decide; done.
    + rewrite list_lookup_alter_other by done.
      destruct (ps !! h); simpl; [|by repeat case_bool_decide].
      repeat case_bool_decide; try done;
        rewrite elem_of_cons in *; tauto.
Qed.


Lemma forEach_fmap {A B} (g : A → B) (l : list A) (f : B → M unit) :
  forEach l (λ x, f (g x)) = forEach (g <$> l) f.
Proof. induction l as [|x l IH]; simpl; [done|]. by rewrite IH. Qed.

Lemma cleanup_world E roomId user w :
  cleanup E roomId user w
  = (Normal (),
     match truthy roomId, user with
     | Some room, Some u => cleanedUp room u w
     | _, _ => w
     end).
Proof.
  unfold cleanup. destruct (truthy roomId) as [room|], user as [u|]; try done.
  unfold cleanedUp, unsubscribe.
  rewrite bind_get. unfold mbind at 1, M_bind at 1.
  assert (H1 : (match localStreamRef w with
                | Some stream => forEach stream stop
                | None => mret ()
                end) w
               = (Normal (), set_tracks (stopAll (default [] (localStreamRef w))
                                                 (tracks w)) w)).
  { destruct (localStreamRef w) as [stream|]; simpl.
    - apply forEach_stop.
    - by destruct w. }
  rewrite H1. clear H1. rewrite bind_get.
  unfold mbind at 1, M_bind at 1.
  rewrite (forEach_fmap snd _ close), forEach_close.
  run_monad. destruct (rejects E _); simpl.
  all: fields; rewrite <- ?app_assoc; f_equal; f_equal.
  all: rewrite !list_filter_filter; apply list_filter_iff; intros s;
    unfold ownCollections; rewrite !not_elem_of_cons, elem_of_nil; tauto.
Qed.

(** ** Leaving closes and unsubscribes everything *)

Lemma reachable_consistent E roomId user opts evs :
  consistent (run E roomId user evs
                (exec (joinEffect E roomId user) (initial opts))).
Proof.
  apply run_preserves; [apply dispatch_consistent|apply joinEffect_consistent].
Qed.

Lemma reachable_subscriptions E roomId user opts evs s :
  let w := run E roomId user evs
             (exec (joinEffect E roomId user) (initial opts)) in
  s ∈ subscriptions w →
  ∃ room u stream,
    truthy roomId = Some room ∧ user = Some u
    ∧ localStreamRef w = Some stream ∧ s ∈ ownSubscriptions room u stream.
Proof.
  intros w.
  pose proof (run_settled E roomId user evs
                (exec (joinEffect E roomId user) (initial opts))) as Hs.
  fold w in Hs. unfold settled in Hs. injection Hs as _ Hl _ _ Hsub.
  rewrite Hl, Hsub.
  destruct (joinEffect_subscriptions E roomId user opts)
    as (_ & _ & _ & _ & H).
  apply H.
Qed.

Lemma ownSubscriptions_ref room u stream s :
  s ∈ ownSubscriptions room u stream → sub_ref s ∈ ownCollections room u.
Proof.
  unfold ownSubscriptions. intros (ref & -> & Hin)%list_elem_of_fmap. done.
Qed.

Lemma filter_none {A} (P : A → Prop) `{∀ x, Decision (P x)} (l : list A) :
  (∀ x, x ∈ l → ¬ P x) → filter P l = [].
Proof.
  intros Hno. destruct (filter P l) as [|x k] eqn:Hf; [done|].
  assert (Hx : x ∈ filter P l) by (rewrite Hf; left).
  apply list_elem_of_filter in Hx as [HP Hx]. by destruct (Hno x Hx).
Qed.

Lemma cleanedUp_released room u w :
  consistent w →
  (∀ s, s ∈ subscriptions w → sub_ref s ∈ ownCollections room u) →
  released (cleanedUp room u w).
Proof.
  intros Hc Hsub. split_and!.
  - unfold cleanedUp. simpl. apply filter_none. intros s Hin Hnot.
    by apply Hnot, Hsub.
  - intros h l. unfold cleanedUp. simpl. rewrite closeAll_lookup.
    destruct (pcs w !! h) as [l0|] eqn:Hl0; [|done]. simpl.
    case_bool_decide as Hin.
    + intros [= <-]. unfold live. simpl. by intros [].
    + intros [= <-] Hlive. apply Hin, list_elem_of_fmap.
      exists (targetUserId l0, h). split; [done|].
      apply elem_of_map_to_list. by apply (live_linked w Hc).
  - done.
Qed.

Lemma reachable_cleanedUp_released E roomId u room opts evs :
  truthy roomId = Some room →
  released (cleanedUp room u (run E roomId (Some u) evs
                           (exec (joinEffect E roomId (Some u))
                                 (initial opts)))).
Proof.
  intros Hroom. apply cleanedUp_released; [apply reachable_consistent|].
  intros s Hin.
  destruct (reachable_subscriptions E roomId (Some u) opts evs s Hin)
    as (room' & u' & stream & Hr & Hu & _ & Hown).
  rewrite Hroom in Hr. injection Hr as <-. injection Hu as <-.
  by eapply ownSubscriptions_ref.
Qed.


(** ** After leaving *)










(** ** The microphone's own track *)







Section Confined.
Variables (E : Env) (room : string) (u : User).

Lemma confined_call c w :
  ownWrite room u c = true → confined room u w →
  confined room u (set_calls (calls w ++ [c]) w).
Proof.
  intros Hc Hw. unfold confined. simpl. apply Forall_app. split; [done|].
  by apply Forall_singleton.
Qed.

Lemma confined_frame w w' :
  calls w' = calls w → confined room u w → confined room u w'.
Proof. unfold confined. by intros ->. Qed.

(** Walk through monadic code; a call must be shown to be confined, any
    other step leaves the call log alone. *)
Ltac confined_leaf :=
  first
    [ intros ? H; exact H
    | intros ? H; apply confined_call; [|exact H]; simpl;
      rewrite ?bool_decide_eq_true_2 by done; simpl;
      first [ reflexivity | assumption
            | apply bool_decide_eq_true_2; unfold ownCollections;
              rewrite !elem_of_cons; tauto ] ].

Ltac confined_step :=
  lazymatch goal with
  | |- preserves _ (mret _) => apply preserves_ret
  | |- preserves _ throw => apply preserves_throw
  | |- preserves _ get => apply preserves_get
  | |- preserves _ (modify _) => apply preserves_modify; confined_leaf
  | |- preserves _ (try_catch _ _) => apply preserves_try_catch
  | |- preserves _ (detached _) => apply preserves_detached
  | |- preserves _ (forM _ _) => apply preserves_forM; intros ?
  | |- preserves _ (forEach_async _ _) =>
      apply preserves_forEach_async; intros ? _
  | |- preserves _ (mbind _ _) => apply preserves_bind; [|intros ?]
  | |- preserves _ (let _ := _ in _) => cbv zeta
  | |- preserves _ (match ?x with _ => _ end) => destruct x eqn:?
  end.

Ltac unfold_all :=
  unfold onRosterSnapshot, onRosterDoc, onOfferChange, onAnswerChange,
    onIceChange, connectionStateChange, onconnectionstatechange, setTimeout,
    onicecandidate, ontrack, advance, graceCallback, close, toggleMute,
    createPeerConnection, pcQuery, pcMethod, firestore, call.

Lemma listeners_confined stream :
  (∀ docs, preserves (confined room u)
             (onRosterSnapshot E room u stream docs))
  ∧ (∀ box s change,
       sub_room s = room → sub_user s = u →
       preserves (confined room u) (onMailboxChange E box s change)).
Proof.
  split.
  - intros docs. unfold_all. repeat confined_step.
  - intros box s change Hr Hu. unfold onMailboxChange. rewrite Hr, Hu.
    destruct box; unfold_all; repeat confined_step.
Qed.

Lemma dispatch_confined roomId ev w :
  truthy roomId = Some room →
  (∀ s, s ∈ subscriptions w → sub_room s = room ∧ sub_user s = u) →
  confined room u w →
  confined room u (exec (dispatch E roomId (Some u) ev) w).
Proof.
  intros Hroom Hsub Hw. destruct ev; simpl.
  - unfold onSnapshotEvent. rewrite exec_bind. simpl.
    apply preserves_forEach_async; [|done].
    intros s [_ Hin]%list_elem_of_filter.
    destruct (Hsub s Hin) as [-> ->].
    destruct (listeners_confined (sub_stream s)) as [Hroster _].
    apply Hroster.
  - unfold onSnapshotEvent. rewrite exec_bind. simpl.
    apply preserves_forEach_async; [|done].
    intros s [_ Hin]%list_elem_of_filter.
    apply preserves_forEach_async. intros change _.
    destruct (Hsub s Hin) as [Hr Hu].
    destruct (listeners_confined (sub_stream s)) as [_ Hbox].
    by apply Hbox.
  - revert w Hsub Hw. intros w _. revert w.
    change (preserves (confined room u) (connectionStateChange h s)).
    unfold_all. repeat confined_step.
  - revert w Hsub Hw. intros w _. revert w.
    change (preserves (confined room u)
              (onicecandidate E roomId (Some u) h candidate)).
    unfold_all. rewrite Hroom. repeat confined_step.
  - revert w Hsub Hw. intros w _. revert w.
    change (preserves (confined room u) (ontrack h)).
    unfold_all. repeat confined_step.
  - revert w Hsub Hw. intros w _. revert w.
    change (preserves (confined room u) (advance dt)).
    unfold_all. repeat confined_step.
  - revert w Hsub Hw. intros w _. revert w.
    change (preserves (confined room u)
              (detached (toggleMute E roomId (Some u)))).
    unfold_all. rewrite Hroom. repeat confined_step.
Qed.

Lemma join_confined :
  preserves (confined room u) (join E room u).
Proof.
  unfold join, initLocalStream, enhancedGraph, fallbackGraph,
    useProcessedTrack, registerLocalAnalyser, allocTracks, connect, subscribe,
    firestore, call.
  repeat confined_step.
Qed.

End Confined.

Lemma cleanedUp_confined room u w :
  confined room u w → confined room u (cleanedUp room u w).
Proof.
  intros Hw. unfold confined, cleanedUp. simpl.
  apply Forall_app. split; [done|]. apply Forall_app. split.
  - apply Forall_fmap, Forall_forall. by intros h _.
  - apply Forall_singleton. simpl. by rewrite bool_decide_eq_true_2.
Qed.

(** X15. Writes stay with their owner.  In every world reached from a
    freshly mounted hook with room [room] and user [u], and also after its
    cleanup or its [beforeunload] handler has run, every Firestore call the
    hook has made is one of: the write
    or delete of its own presence record; a subscription to the roster of
    its room or to one of its own three mailboxes; the delete of a
    document of its own mailboxes; or a message put into a mailbox of its
    room that names [u] as the sender, an offer only into the mailbox of a
    participant whose id is larger than its own.  Without a room id or a
    user the hook makes no call at all. *)
Theorem writes_stay_with_their_owner (E : Env) (roomId : option string)
    (user : option User) (opts : AudioProcessingOptions) (evs : list Event) :
  let w := run E roomId user evs
             (exec (joinEffect E roomId user) (initial opts)) in
  match truthy roomId, user with
  | Some room, Some u =>
      confined room u w
      ∧ confined room u (exec (cleanup E roomId user) w)
      ∧ confined room u (exec (handleBeforeUnload E roomId user) w)
  | _, _ => calls w = []
  end.
Proof.
  intros w.
  destruct (truthy roomId) as [room|] eqn:Hroom, user as [u|].
  2,3,4: assert (Hidle : idle [] w)
    by (apply run_preserves; [intros ev; apply dispatch_idle|];
        unfold joinEffect; rewrite Hroom; done);
    by destruct Hidle as (_ & _ & _ & _ & _ & ?).
  assert (Hw : confined room u w).
  { set (w1 := exec (joinEffect E roomId (Some u)) (initial opts)).
    assert (HK : settled w = settled w1 ∧ confined room u w).
    { apply (run_preserves E roomId (Some u)
               (λ w, settled w = settled w1 ∧ confined room u w)).
      - intros ev w0 [Hs Hw0]. split; [by apply dispatch_settled|].
        apply dispatch_confined; [done| |done].
        unfold settled in Hs. injection Hs as _ Hl _ _ ->.
        intros s Hin.
        destruct (joinEffect_subscriptions E roomId (Some u) opts)
          as (_ & _ & _ & _ & Hsub).
        destruct (Hsub s Hin) as (room' & u' & stream & Hr & Hu & _ & Hown).
        rewrite Hroom in Hr. injection Hr as <-. injection Hu as <-.
        by apply ownSubscriptions_stream in Hown as (? & ? & _).
      - split; [done|]. subst w1. unfold joinEffect. rewrite Hroom.
        rewrite exec_detached. apply join_confined. by apply Forall_nil. }
    by destruct HK. }
  split_and!; [done| |].
  - unfold exec. rewrite cleanup_world, Hroom. simpl.
    by apply cleanedUp_confined.
  - unfold handleBeforeUnload. rewrite Hroom, exec_detached, exec_firestore.
    apply Forall_app. split; [done|]. apply Forall_singleton. simpl.
    by rewrite bool_decide_eq_true_2.
Qed.


(** X11. A grace timer acts on its own connection only.  In every world
    reached from a freshly mounted hook, the callback of a pending timer
    leaves every other connection object and every other registration as
    it is.  Either it changes nothing, or its connection was 'failed' and
    registered under the captured id, and it closes that connection and
    removes that registration; run again, or for another timer of the same
    connection, it then changes nothing: a connection is closed by its
    timers at most once, and a newer connection to the same peer is never
    unregistered by an old timer. *)
Theorem grace_timer_acts_on_its_own_connection (E : Env)
    (roomId : option string) (user : option User)
    (opts : AudioProcessingOptions) (evs : list Event) (t : Timer) :
  let w := run E roomId user evs
             (exec (joinEffect E roomId user) (initial opts)) in
  t ∈ timers w →
  let w' := exec (graceCallback t) w in
  (∀ h, h ≠ timer_pc t → pcs w' !! h = pcs w !! h)
  ∧ (∀ id h, peerConnections w !! id = Some h → h ≠ timer_pc t →
             peerConnections w' !! id = Some h)
  ∧ (w' = w
     ∨ ∃ l, pcs w !! timer_pc t = Some l
            ∧ connectionState (pc l) = conn_failed
            ∧ peerConnections w !! timer_target t = Some (timer_pc t)
            ∧ pcs w' !! timer_pc t = Some (on_pc closed l)
            ∧ peerConnections w' !! timer_target t = None
            ∧ newCalls w w' = [pc_close (timer_pc t)])
  ∧ (∀ t', timer_pc t' = timer_pc t → exec (graceCallback t') w' = w').
Proof.
  intros w Hin w'.
  pose proof (reachable_consistent E roomId user opts evs) as Hc.
  fold w in Hc.
  destruct (timers_target w Hc t Hin) as (l & Hl & Htarget).
  subst w'. unfold graceCallback, close. run_monad. rewrite Hl.
  case_decide as Hf; simpl.
  - assert (Hlive : live l) by (unfold live; by rewrite Hf).
    pose proof (live_linked w Hc _ _ Hl Hlive) as Hreg.
    rewrite Htarget in Hreg. split_and!.
    + intros h Hne. by apply list_lookup_alter_other.
    + intros id h Hid Hne. rewrite lookup_delete_ne; [done|].
      intros Heq. subst id. congruence.
    + right. exists l. split_and!; try done.
      * by rewrite list_lookup_alter_same, Hl.
      * apply lookup_delete_eq.
      * by apply newCalls_app.
    + intros t' Heq. by rewrite Heq, list_lookup_alter_same, Hl.
  - split_and!; try done; [by left|].
    intros t' Heq. rewrite Heq, Hl. by rewrite decide_False.
Qed.

Lemma grace_timer_acts_on_its_own_connection_witness :
  let w := run cooperative (Some "R") (Some alice)
             [RosterSnapshot "R" [rosterDoc alice; rosterDoc bob];
              ConnectionStateChange 0 conn_failed]
             (exec (joinEffect cooperative (Some "R") (Some alice))
                   (initial defaultOptions)) in
  exec (graceCallback aliceTimer) (exec (graceCallback aliceTimer) w)
  = exec (graceCallback aliceTimer) w.
Proof.
  intros w.
  assert (Hin : aliceTimer ∈ timers w).
  { assert (Hts : timers w = [aliceTimer]) by (vm_compute; reflexivity).
    rewrite Hts. left. }
  pose proof (grace_timer_acts_on_its_own_connection cooperative (Some "R")
                (Some alice) defaultOptions
                [RosterSnapshot "R" [rosterDoc alice; rosterDoc bob];
                 ConnectionStateChange 0 conn_failed]
                aliceTimer Hin) as (_ & _ & _ & H).
  exact (H aliceTimer eq_refl).
Defined.


Lemma fold_left_add_sum (l : list Z) (acc : Z) :
  fold_left Z.add l acc = (acc + foldr Z.add 0 l)%Z.
Proof.
  revert acc. induction l as [|x l IH]; intros acc; simpl; [lia|].
  rewrite IH. lia.
Qed.

(** X16. The speaking threshold.  An analyser counts as speaking exactly
    when the sum of its frequency bins exceeds ten times their number; an
    analyser with no bins never does; bins that are all at most 10 are
    silence, and bins that are all at least 11 are speech. *)
Theorem isAudioSpeaking_threshold (fd : AnalyserNode → list Z)
    (a : AnalyserNode) :
  let n := frequencyBinCount a in
  let bins := Uint8Array n (fd a) in
  (isAudioSpeaking fd a = true
   ↔ 0 < n ∧ (10 * Z.of_nat n < foldr Z.add 0 bins)%Z)
  ∧ (Forall (λ x, x ≤ 10)%Z bins → isAudioSpeaking fd a = false)
  ∧ (0 < n → Forall (λ x, 11 ≤ x)%Z bins → isAudioSpeaking fd a = true).
Proof.
  intros n bins.
  assert (Hlen : length bins = n).
  { subst bins. unfold Uint8Array. rewrite length_take, length_app,
      length_replicate. lia. }
  assert (Hiff : isAudioSpeaking fd a = true
                 ↔ 0 < n ∧ (10 * Z.of_nat n < foldr Z.add 0 bins)%Z).
  { unfold isAudioSpeaking. fold n. fold bins.
    rewrite fold_left_add_sum. simpl.
    destruct n as [|k] eqn:Hn; [split; [done|lia]|].
    assert (Hpos : Z.pos (Pos.of_nat (S k)) = Z.of_nat (S k)) by lia.
    destruct (Qlt_le_dec _ _) as [Hlt|Hle].
    - split; [|done]. intros _. split; [lia|].
      unfold Qlt in Hlt. simpl in Hlt. lia.
    - split; [done|]. intros [_ Hlt]. exfalso.
      unfold Qle in Hle. simpl in Hle. lia. }
  split_and!; [done| |].
  - intros Hall. apply not_true_is_false. rewrite Hiff. intros [_ Hlt].
    assert (Hsum : (foldr Z.add 0 bins ≤ 10 * Z.of_nat (length bins))%Z).
    { clear -Hall. induction Hall as [|x l Hx _ IH]; simpl; lia. }
    rewrite Hlen in Hsum. lia.
  - intros Hn Hall. apply Hiff. split; [lia|].
    assert (Hsum : (11 * Z.of_nat (length bins) ≤ foldr Z.add 0 bins)%Z).
    { clear -Hall. induction Hall as [|x l Hx _ IH]; simpl; lia. }
    rewrite Hlen in Hsum. lia.
Qed.

Lemma currentlySpeaking_fold fd (l : list (string * AnalyserNode))
    (acc : gset string) id :
  id ∈ fold_left
         (λ speaking entry,
            if isAudioSpeaking fd entry.2
            then speaking ∪ {[entry.1]} else speaking) l acc
  ↔ id ∈ acc ∨ ∃ a, (id, a) ∈ l ∧ isAudioSpeaking fd a = true.
Proof.
  revert acc. induction l as [|[id' a'] l IH]; intros acc; simpl.
  - split; [by left|]. intros [?|(a & Hin & _)]; [done|].
    by apply elem_of_nil in Hin.
  - rewrite IH. destruct (isAudioSpeaking fd a') eqn:Hsp.
    + rewrite elem_of_union, elem_of_singleton. split.
      * intros [[? | ->]|(a & Hin & Ha)]; [by left| |].
        -- right. exists a'. split; [left|done].
        -- right. exists a. split; [by right|done].
      * intros [?|(a & Hin & Ha)]; [by left; left|].
        apply elem_of_cons in Hin as [[= -> ->]|Hin]; [left; by right|].
        right. by exists a.
    + split.
      * intros [?|(a & Hin & Ha)]; [by left|].
        right. exists a. split; [by right|done].
      * intros [?|(a & Hin & Ha)]; [by left|].
        apply elem_of_cons in Hin as [[= -> ->]|Hin]; [congruence|].
        right. by exists a.
Qed.

(** X17. The set of speakers.  After [detectSpeaking], [speakingPeers] is
    the set of the ids whose analyser is speaking, the local one and the
    remote ones alike.  The test that decides whether the state is
    replaced holds exactly when the previous set and the new one are
    equal, so the state always has the new set as its value and is a new
    object only when the set of speakers changed. *)
Theorem speakingPeers_is_the_set_of_speakers (fd : AnalyserNode → list Z)
    (w : World) (prev : gset string) :
  let speaking := currentlySpeaking fd w in
  (∀ id, id ∈ speaking
         ↔ ∃ a, analysers w !! id = Some a ∧ isAudioSpeaking fd a = true)
  ∧ (isSame prev speaking = true ↔ prev = speaking)
  ∧ setSpeakingPeers prev speaking = speaking.
Proof.
  intros speaking.
  assert (Hsame : isSame prev speaking = true ↔ prev = speaking).
  { unfold isSame. rewrite andb_true_iff, bool_decide_eq_true, forallb_forall.
    split.
    - intros [Hsize Hall]. apply set_subseteq_size_eq; [|lia].
      intros x Hx. apply elem_of_elements, list_elem_of_In, Hall in Hx.
      by apply bool_decide_eq_true in Hx.
    - intros ->. split; [done|]. intros x Hx.
      apply bool_decide_eq_true. by apply elem_of_elements, list_elem_of_In. }
  split_and!; [|done|].
  - intros id. subst speaking. unfold currentlySpeaking.
    rewrite currentlySpeaking_fold. split.
    + intros [Hin|(a & Hin & Ha)]; [by apply elem_of_empty in Hin|].
      exists a. split; [|done]. by apply elem_of_map_to_list in Hin.
    + intros (a & Hin & Ha). right. exists a. split; [|done].
      by apply elem_of_map_to_list.
  - unfold setSpeakingPeers. destruct (isSame prev speaking) eqn:Hs; [|done].
    by apply Hsame.
Qed.


(** ** The handshake between two clients *)

Lemma own_listeners room u stream ref :
  filter (λ s, sub_ref s = ref) (ownSubscriptions room u stream)
  = if decide (ref ∈ ownCollections room u)
    then [{| sub_ref := ref; sub_room := room; sub_user := u;
             sub_stream := stream |}]
    else [].
Proof.
  unfold ownSubscriptions, ownCollections. simpl.
  rewrite !filter_cons, filter_nil. simpl.
  destruct (decide (ref ∈ _)) as [Hin|Hout].
  - rewrite !elem_of_cons, elem_of_nil in Hin.
    destruct Hin as [->|[->|[->|[->|[]]]]];
      repeat case_decide; congruence.
  - rewrite !not_elem_of_cons in Hout.
    repeat case_decide; try done; subst; tauto.
Qed.

Lemma dispatch_roster E roomId user room u stream docs w :
  subscriptions w = ownSubscriptions room u stream →
  exec (dispatch E roomId user (RosterSnapshot room docs)) w
  = exec (onRosterSnapshot E room u stream docs) w.
Proof.
  intros Hs. unfold dispatch, onSnapshotEvent. rewrite exec_bind. simpl.
  rewrite Hs, own_listeners, decide_True
    by (unfold ownCollections; rewrite !elem_of_cons; tauto).
  simpl. by rewrite exec_bind.
Qed.

Lemma dispatch_mailbox E roomId user room u stream box change w :
  subscriptions w = ownSubscriptions room u stream →
  exec (dispatch E roomId user
          (MailboxSnapshot room (uid u) box [change])) w
  = exec (onMailboxChange E box
            {| sub_ref := mailboxCollection room (uid u) box;
               sub_room := room; sub_user := u; sub_stream := stream |}
            change) w.
Proof.
  intros Hs. unfold dispatch, onSnapshotEvent. rewrite exec_bind. simpl.
  rewrite Hs, own_listeners, decide_True
    by (unfold ownCollections; rewrite !elem_of_cons; destruct box; tauto).
  simpl. unfold exec, detached, mbind, M_bind. simpl. done.
Qed.




(** ** Candidates are not kept for later *)





(** ** After the grace timer: who connects again *)

Lemma offerTo_other E room u doc h h0 w :
  h0 ≠ h → pcs (exec (offerTo E room u doc h) w) !! h0 = pcs w !! h0.
Proof.
  intros Hne. unfold offerTo. run_monad.
  destruct (pcs w !! h) as [l|] eqn:Hl; simpl; [|done].
  destruct (createOffer E (pc l)) as [offer|]; simpl; [|done].
  rewrite Hl. simpl.
  destruct (setLocalDescription E (pc l) offer) as [c|]; simpl; [|done].
  destruct (rejects E _); simpl; by rewrite list_lookup_insert_ne.
Qed.

(** X22. After the grace timer: who connects again.  Take a client that
    has joined and a connection of it that fails and is closed by its
    grace timer.  When the roster listener then sees the peer again, the
    client with the smaller id makes a new connection object, registers
    it for the peer and asks it for an offer, and the closed object stays
    as it is; the client with the larger id only replaces the displayed
    roster: it makes no connection and sends nothing, a new connection
    can only come from an offer of the peer. *)
Theorem roster_recreates_closed_connection (E : Env) (room : string)
    (u : User) (opts : AudioProcessingOptions) (evs : list Event)
    (h : nat) (l : PeerLink) (doc : RosterDoc) (dt : N) :
  truthy (Some room) = Some room →
  is_Some (getUserMedia E) →
  rejects E (presence room u) = false →
  let w := run E (Some room) (Some u) evs
             (exec (joinEffect E (Some room) (Some u)) (initial opts)) in
  pcs w !! h = Some l → live l →
  Forall (λ t, timer_pc t ≠ h) (timers w) →
  r_id doc = targetUserId l →
  (3000 ≤ Z.of_N dt)%Z →
  let w2 := exec (advance dt) (exec (connectionStateChange h conn_failed) w) in
  let w3 := exec (dispatch E (Some room) (Some u)
                    (RosterSnapshot room [doc])) w2 in
  let gone := on_pc closed (on_pc (with_connectionState conn_failed) l) in
  pcs w2 !! h = Some gone
  ∧ peerConnections w2 !! r_id doc = None
  ∧ if JsString.lt (uid u) (r_id doc)
    then peerConnections w3 !! r_id doc = Some (length (pcs w2))
         ∧ h < length (pcs w2)
         ∧ pcs w3 !! h = Some gone
         ∧ head (newCalls w2 w3) = Some (pc_createOffer (length (pcs w2)))
    else w3 = set_participants [participantOf doc] w2.
Proof.
  intros Hroom Hmic Hacc w Hl Hlive Hfresh Hid Hdt w2 w3 gone.
  assert (Hc : consistent w) by apply reachable_consistent.
  destruct (grace_expired w h l Hc Hl Hlive Hfresh dt Hdt) as (Hgone & Hreg & _).
  fold w2 in Hgone, Hreg. rewrite <- Hid in Hreg.
  (* the subscriptions are those of [join] *)
  assert (Hsub : ∃ stream, subscriptions w2 = ownSubscriptions room u stream).
  { pose proof (joinEffect_subscribed E (Some room) (Some u) opts) as H1.
    cbv zeta in H1. rewrite Hroom in H1.
    rewrite bool_decide_eq_true_2, Hacc in H1 by done. simpl in H1.
    destruct H1 as (stream & _ & H1). exists stream.
    assert (H2 : settled w2 = settled w).
    { apply (run_settled E (Some room) (Some u)
               [ConnectionStateChange h conn_failed; Advance dt]). }
    assert (H3 : settled w
                 = settled (exec (joinEffect E (Some room) (Some u))
                                 (initial opts))) by apply run_settled.
    rewrite H3 in H2. unfold settled in H2. injection H2 as _ _ _ _ ->.
    done. }
  destruct Hsub as [stream Hsub].
  assert (Hw3 : w3 = exec (onRosterSnapshot E room u stream [doc]) w2).
  { by apply dispatch_roster. }
  split_and!; [done|done|].
  destruct (JsString.lt (uid u) (r_id doc)) eqn:Hlt.
  - assert (Hdoc : exec (onRosterDoc E room u stream doc) w2
                   = exec (offerTo E room u doc (length (pcs w2)))
                          (exec (createPeerConnection (r_id doc) stream) w2))
      by by apply onRosterDoc_initiates.
    set (w' := exec (onRosterDoc E room u stream doc) w2) in *.
    assert (Hframe : pcs w3 = pcs w' ∧ peerConnections w3 = peerConnections w'
                     ∧ calls w3 = calls w').
    { rewrite Hw3. unfold onRosterSnapshot, w', exec. simpl.
      unfold mbind, M_bind.
      destruct (onRosterDoc E room u stream doc w2) as [[p|] w1]; done. }
    destruct Hframe as (Hp & Hm & Hcs).
    destruct (offerTo_calls E room u doc (length (pcs w2))
                (exec (createPeerConnection (r_id doc) stream) w2))
      as [Hm' [cs Hcs']].
    rewrite <- Hdoc in Hm', Hcs'.
    assert (Hh : h < length (pcs w2)) by by eapply lookup_lt_Some.
    split_and!.
    + rewrite Hm, Hm'. unfold createPeerConnection. run_monad.
      apply lookup_insert_eq.
    + done.
    + rewrite Hp, Hdoc, offerTo_other by lia.
      unfold createPeerConnection. run_monad.
      by rewrite lookup_app_l.
    + assert (Hnew : calls w3
                     = calls w2 ++ pc_createOffer (length (pcs w2)) :: cs).
      { rewrite Hcs. etransitivity; [exact Hcs'|].
        unfold createPeerConnection. by run_monad. }
      by rewrite (newCalls_app _ _ _ Hnew).
  - rewrite Hw3. unfold exec. rewrite onRosterSnapshot_skip; [done|].
    constructor; [|constructor]. by right; right.
Qed.

Lemma roster_recreates_closed_connection_witness :
  let w := run cooperative (Some "R") (Some alice)
             [RosterSnapshot "R" [rosterDoc alice; rosterDoc bob]]
             (exec (joinEffect cooperative (Some "R") (Some alice))
                   (initial defaultOptions)) in
  let w2 := exec (advance 3000)
              (exec (connectionStateChange 0 conn_failed) w) in
  peerConnections w2 !! "u2" = None.
Proof.
  intros w.
  assert (H1 : is_Some (getUserMedia cooperative)) by (by eexists).
  assert (H2 : pcs w !! 0 = Some aliceBobLink) by (vm_compute; reflexivity).
  assert (H3 : live aliceBobLink) by (by vm_compute).
  assert (H4 : Forall (λ t, timer_pc t ≠ 0) (timers w)).
  { assert (Hts : timers w = []) by (vm_compute; reflexivity).
    rewrite Hts. constructor. }
  assert (H5 : (3000 ≤ Z.of_N 3000)%Z) by lia.
  pose proof (roster_recreates_closed_connection cooperative "R" alice
                defaultOptions
                [RosterSnapshot "R" [rosterDoc alice; rosterDoc bob]]
                0 aliceBobLink (rosterDoc bob) 3000
                eq_refl H1 eq_refl H2 H3 H4 eq_refl H5) as (_ & H & _).
  exact H.
Defined.


(** ** The effect runs again *)

Lemma stopAll_length stream ts : length (stopAll stream ts) = length ts.
Proof.
  unfold stopAll. revert ts.
  induction stream as [|t stream IH]; intros ts; simpl; [done|].
  by rewrite IH, length_alter.
Qed.

Lemma preserves_result {A} (I : World → Prop) (m : M A) w c w' :
  preserves I m → I w → m w = (c, w') → I w'.
Proof.
  intros Hm Hw Heq. specialize (Hm w Hw). unfold exec in Hm.
  by rewrite Heq in Hm.
Qed.

(** X23. The effect runs again.  A hook that has joined and whose join
    effect is cleaned up and run again, for the same or another room and
    user, with the microphone granted, a destination that has an audio
    track and the presence record accepted: it ends with exactly the four
    listeners of the new room and user, all on the new processed track,
    which is as the browser delivered it; with no registration and no
    open connection; and with the presence record written as not muted.
    [isMuted] and the displayed participants are not reset: a client that
    was muted before is shown as muted while its new track is sent
    enabled. *)
Theorem rejoin_after_cleanup (E : Env) (roomId roomId' : option string)
    (u u' : User) (room room' : string) (opts : AudioProcessingOptions)
    (evs : list Event) (ts : list MediaStreamTrack) (d : MediaStreamTrack) :
  truthy roomId = Some room → truthy roomId' = Some room' →
  getUserMedia E = Some ts → destinationAudioTrack E = Some d →
  rejects E (presence room' u') = false →
  let w := run E roomId (Some u) evs
             (exec (joinEffect E roomId (Some u)) (initial opts)) in
  let w' := exec (cleanup E roomId (Some u)) w in
  let w'' := exec (joinEffect E roomId' (Some u')) w' in
  let t := length (tracks w) + length ts in
  localStreamRef w'' = Some [t]
  ∧ tracks w'' !! t = Some d
  ∧ subscriptions w'' = ownSubscriptions room' u' [t]
  ∧ audioContextRef w'' = true
  ∧ peerConnections w'' = ∅
  ∧ (∀ h l, pcs w'' !! h = Some l → ¬ live l)
  ∧ isMuted w'' = isMuted w
  ∧ participants w'' = participants w
  ∧ setDoc (participantRef room' (uid u')) (displayName u') false
    ∈ newCalls w' w''.
Proof.
  intros Hroom Hroom' Hmic Hdest Hacc w w' w'' t.
  assert (Hw' : w' = cleanedUp room u w).
  { unfold w', exec. by rewrite cleanup_world, Hroom. }
  assert (Hrel : released w').
  { rewrite Hw'. by apply reachable_cleanedUp_released. }
  destruct Hrel as (Hsub' & Hdead' & _).
  assert (Hlen : length (tracks w') = length (tracks w)).
  { rewrite Hw'. unfold cleanedUp. simpl. apply stopAll_length. }
  assert (Hreg' : peerConnections w' = ∅) by by rewrite Hw'.
  assert (Hmut' : isMuted w' = isMuted w) by by rewrite Hw'.
  assert (Hpar' : participants w' = participants w) by by rewrite Hw'.
  pose proof (initLocalStream_granted E (Some u') w' ts Hmic w' eq_refl) as Hb.
  pose proof (join_world E room' u' w') as Hj.
  destruct (initLocalStream E (Some u') w') as [[r|] w1] eqn:Hinit; [|done].
  destruct Hb as (s & -> & Hl1 & Ht1 & Hc1 & Hd1). rewrite Hdest in Hd1.
  destruct Hd1 as (-> & Hctx1 & Han1).
  assert (Hout : outsideAudio w1 = outsideAudio w').
  { by apply (preserves_result _ _ _ _ _
                (initLocalStream_outsideAudio E (Some u') (outsideAudio w'))
                eq_refl Hinit). }
  unfold outsideAudio in Hout.
  injection Hout as _ Hpar1 Hmut1 Hpcs1 Hreg1 Hsub1 _ _.
  rewrite Hacc in Hj.
  assert (Hw'' : w'' = set_subscriptions
                         (subscriptions w1
                            ++ ownSubscriptions room' u' [length (tracks w' ++ ts)])
                         (set_calls
                            (calls w1 ++ presence room' u'
                               :: (onSnapshot ∘ sub_ref
                                     <$> ownSubscriptions room' u'
                                           [length (tracks w' ++ ts)]))
                            w1)).
  { unfold w'', joinEffect. rewrite Hroom', exec_detached. unfold exec.
    by rewrite Hj. }
  assert (Ht : length (tracks w' ++ ts) = t).
  { rewrite length_app, Hlen. done. }
  rewrite Ht in *.
  split_and!.
  - by rewrite Hw''.
  - rewrite Hw''. simpl. rewrite Ht1.
    unfold destinationAudioTrack in Hdest.
    destruct (destinationTrack E) as [d'|]; [|done].
    case_decide; [|done]. injection Hdest as ->. simpl.
    by rewrite lookup_app_r, <- Ht, Nat.sub_diag by (rewrite Ht; lia).
  - rewrite Hw''. simpl. by rewrite Hsub1, Hsub'.
  - by rewrite Hw''.
  - rewrite Hw''. simpl. by rewrite Hreg1.
  - rewrite Hw''. simpl. rewrite Hpcs1. apply Hdead'.
  - rewrite Hw''. simpl. by rewrite Hmut1.
  - rewrite Hw''. simpl. by rewrite Hpar1.
  - rewrite Hw''. unfold newCalls. simpl. rewrite Hc1, <- app_assoc.
    rewrite drop_app_length. simpl. unfold presence.
    rewrite !elem_of_cons. tauto.
Qed.

Lemma rejoin_after_cleanup_witness :
  let w := run cooperative (Some "R") (Some alice)
             [RosterSnapshot "R" [rosterDoc alice; rosterDoc bob]; ToggleMute]
             (exec (joinEffect cooperative (Some "R") (Some alice))
                   (initial defaultOptions)) in
  let w' := exec (cleanup cooperative (Some "R") (Some alice)) w in
  let w'' := exec (joinEffect cooperative (Some "S") (Some alice)) w' in
  isMuted w'' = isMuted w.
Proof.
  pose proof (rejoin_after_cleanup cooperative (Some "R") (Some "S")
                alice alice "R" "S" defaultOptions
                [RosterSnapshot "R" [rosterDoc alice; rosterDoc bob];
                 ToggleMute]
                [micTrack] micTrack eq_refl eq_refl eq_refl eq_refl eq_refl)
    as (_ & _ & _ & _ & _ & _ & H & _).
  exact H.
Defined.

(** ** A candidate on its way to the peer *)

(** X24. A candidate on its way to the peer.  When a connection of client
    [a], made for peer [b], reports a candidate, [a] makes one call: it
    adds the candidate to the [incoming_ice] of [b] under its own uid,
    and nothing else of [a] changes; the end of the candidates (null) is
    not sent.  When Firestore stores the message and [b] holds a
    connection for [a] with a remote description set, what Firestore
    shows [b] makes [b] call [addIceCandidate] with that candidate on
    exactly that connection and delete the message. *)
Theorem candidate_reaches_peer (EA EB : Env) (room : string) (a b : User)
    (sB : MediaStream) (wA wB : World) (hA hB : nat) (lA lB : PeerLink)
    (candidate id : string) :
  truthy (Some room) = Some room →
  pcs wA !! hA = Some lA → targetUserId lA = uid b →
  subscriptions wB = ownSubscriptions room b sB →
  peerConnections wB !! uid a = Some hB → pcs wB !! hB = Some lB →
  is_Some (remoteDescription (pc lB)) →
  let sent := addDoc (mailboxCollection room (uid b) incoming_ice)
                     candidate (uid a) in
  rejects EA sent = false →
  let wA1 := exec (dispatch EA (Some room) (Some a)
                     (IceCandidateEvent hA (Some candidate))) wA in
  let wB1 := run EB (Some room) (Some b)
               (flat_map (deliver EA id) (newCalls wA wA1)) wB in
  wA1 = set_calls (calls wA ++ [sent]) wA
  ∧ exec (dispatch EA (Some room) (Some a) (IceCandidateEvent hA None)) wA
    = wA
  ∧ newCalls wB wB1
    = [pc_addIceCandidate hB candidate;
       deleteDoc (mailboxDoc room (uid b) incoming_ice id)]
  ∧ pcs wB1 !! hB
    = Some (on_pc (λ c, default c (addIceCandidate EB c candidate)) lB)
  ∧ (∀ h, h ≠ hB → pcs wB1 !! h = pcs wB !! h).
Proof.
  intros Hroom HlA Hto HsB HkB HlB Hrd sent Hacc wA1 wB1.
  assert (HwA1 : wA1 = set_calls (calls wA ++ [sent]) wA).
  { unfold wA1, dispatch, onicecandidate. rewrite exec_bind. simpl.
    rewrite HlA. simpl in Hroom. rewrite Hroom, Hto.
    rewrite exec_detached. apply exec_firestore. }
  assert (HcA : newCalls wA wA1 = [sent]).
  { apply newCalls_app. by rewrite HwA1. }
  assert (HwB1 : wB1 = exec (onIceChange EB room b
                               (addedDoc {| docId := id; from := uid a;
                                            payload := candidate |})) wB).
  { unfold wB1. rewrite HcA. simpl. rewrite Hacc. simpl.
    by apply (dispatch_mailbox EB (Some room) (Some b) room b sB
                               incoming_ice). }
  pose proof (onIceChange_apply EB room b
                {| docId := id; from := uid a; payload := candidate |}
                wB hB lB HkB HlB Hrd) as HB.
  simpl in HB. rewrite <- HwB1 in HB.
  split_and!.
  - done.
  - unfold dispatch, onicecandidate. by rewrite exec_bind.
  - apply newCalls_app. by rewrite HB.
  - rewrite HB. unfold on_pc. simpl.
    destruct (addIceCandidate EB (pc lB) candidate); simpl.
    + by rewrite list_lookup_insert_eq by by eapply lookup_lt_Some.
    + rewrite HlB. by destruct lB.
  - intros h Hne. rewrite HB.
    destruct (addIceCandidate EB (pc lB) candidate); simpl; [|done].
    by rewrite list_lookup_insert_ne.
Qed.

Lemma candidate_reaches_peer_witness :
  let wA1 := exec (dispatch cooperative (Some "R") (Some alice)
                     (IceCandidateEvent 0 (Some "candidate"))) aliceOffered in
  newCalls bobAnswered
    (run cooperative (Some "R") (Some bob)
       (flat_map (deliver cooperative "c1") (newCalls aliceOffered wA1))
       bobAnswered)
  = [pc_addIceCandidate 0 "candidate";
     deleteDoc (mailboxDoc "R" "u2" incoming_ice "c1")].
Proof.
  assert (H1 : pcs aliceOffered !! 0 = Some aliceBobLink)
    by (vm_compute; reflexivity).
  assert (H2 : subscriptions bobAnswered = ownSubscriptions "R" bob [1])
    by (vm_compute; reflexivity).
  assert (H3 : peerConnections bobAnswered !! "u1" = Some 0)
    by (vm_compute; reflexivity).
  assert (H4 : pcs bobAnswered !! 0
               = Some {| targetUserId := "u1";
                         pc := with_signaling sig_stable (Some "answer")
                                 (Some "offer") (new_RTCPeerConnection [1]) |})
    by (vm_compute; reflexivity).
  pose proof (candidate_reaches_peer cooperative cooperative "R" alice bob
                [1] aliceOffered bobAnswered 0 0 aliceBobLink _
                "candidate" "c1" eq_refl H1 eq_refl H2 H3 H4
                (mk_is_Some _ _ eq_refl) eq_refl)
    as (_ & _ & H & _).
  exact H.
Defined.


(** ** The connection monitor *)

Section Monitor.
Import ConnectionMonitor.

Lemma monitor_lt_true x y : lessThan x y = true ↔ (x < y)%Q.
Proof.
  unfold lessThan. destruct (Qlt_le_dec x y) as [H|H]; [done|].
  split; [done|]. intros H'. by apply Qle_not_lt in H.
Qed.

Lemma monitor_lt_false x y : lessThan x y = false ↔ (y <= x)%Q.
Proof.
  unfold lessThan. destruct (Qlt_le_dec x y) as [H|H]; [|done].
  split; [done|]. intros H'. by apply Qle_not_lt in H'.
Qed.

End Monitor.

(** X20. The monitor on the room page.  The component shows "Waiting for
    others..." exactly when its participant count, 1 when the prop is
    left out, is at most 1, whatever the connection and the statistics
    are.  [Room.tsx] passes no participant count, so on the room page the
    monitor shows "Waiting for others..." always, also while a peer is
    connected.  Where the panel is shown, the client is connected: the
    label "Disconnected" is never displayed. *)
Theorem monitor_waits_in_Room (props : ConnectionMonitor.ConnectionMonitorProps)
    (stats : ConnectionMonitor.ConnectionStats) :
  (ConnectionMonitor.ConnectionMonitor props stats
     = ConnectionMonitor.Message "Waiting for others..."
   ↔ (default 1 (ConnectionMonitor.participantCount props) <= 1)%Q)
  ∧ (∀ activePeerConnection hasActiveConnection,
       ConnectionMonitor.ConnectionMonitor
         (ConnectionMonitor.inRoom activePeerConnection hasActiveConnection)
         stats
       = ConnectionMonitor.Message "Waiting for others...")
  ∧ (∀ color label l j p r,
       ConnectionMonitor.ConnectionMonitor props stats
         = ConnectionMonitor.Panel color label l j p r →
       ConnectionMonitor.isConnected props = true
       ∧ label ≠ "Disconnected"
       ∧ (1 < default 1 (ConnectionMonitor.participantCount props))%Q).
Proof.
  split_and!.
  - unfold ConnectionMonitor.ConnectionMonitor.
    destruct (Qle_bool _ 1) eqn:Hle.
    + split; [|done]. intros _. by apply Qle_bool_iff.
    + split.
      * destruct (default _ (ConnectionMonitor.connectionState props));
          destruct (ConnectionMonitor.isConnected props); done.
      * intros H%Qle_bool_iff. congruence.
  - done.
  - intros color label l j p r. unfold ConnectionMonitor.ConnectionMonitor.
    destruct (Qle_bool _ 1) eqn:Hle; [done|].
    destruct (default _ (ConnectionMonitor.connectionState props)); try done;
      destruct (ConnectionMonitor.isConnected props) eqn:Hc; try done;
      simpl; intros [= <- <- <- <- <- <-];
      (split_and!; [done| |]).
    all: try (apply Qnot_le_lt; intros H%Qle_bool_iff; congruence).
    all: unfold ConnectionMonitor.getQualityLabel; simpl;
      repeat (match goal with |- context [if ?b then _ else _] =>
                destruct b end); done.
Qed.

(** X21. Label and colour of the quality.  The colour is the one that
    belongs to the label, for every input.  A grade ("Excellent", "Good",
    "Fair", "Poor") is given exactly when the client is connected and the
    latency and the bitrate are not both 0; with both 0 the label is
    "Measuring...", however large the jitter.  The grade depends on the sum
    of latency and jitter only, with the bounds 50, 100 and 200, and a
    larger sum never gives a better grade. *)
Theorem quality_label_and_colour (isConnected : bool)
    (s s' : ConnectionMonitor.ConnectionStats) :
  let label := ConnectionMonitor.getQualityLabel isConnected in
  let delay := λ s, (ConnectionMonitor.latency s
                     + ConnectionMonitor.jitter s)%Q in
  ConnectionMonitor.getQualityColor isConnected s
    = ConnectionMonitor.colourOf (label s)
  ∧ (is_Some (ConnectionMonitor.grade (label s))
     ↔ isConnected = true
       ∧ ¬ (ConnectionMonitor.latency s == 0
            ∧ ConnectionMonitor.bitrate s == 0)%Q)
  ∧ (∀ g, ConnectionMonitor.grade (label s) = Some g →
       (g = 0 ↔ (delay s < 50)%Q)
       ∧ (g ≤ 1 ↔ (delay s < 100)%Q)
       ∧ (g ≤ 2 ↔ (delay s < 200)%Q)
       ∧ g ≤ 3)
  ∧ (∀ g g', ConnectionMonitor.grade (label s) = Some g →
             ConnectionMonitor.grade (label s') = Some g' →
             (delay s <= delay s')%Q → g ≤ g').
Proof.
  intros label delay.
  assert (Hgrade : ∀ t g, ConnectionMonitor.grade (label t) = Some g →
            (g = 0 ↔ (delay t < 50)%Q) ∧ (g ≤ 1 ↔ (delay t < 100)%Q)
            ∧ (g ≤ 2 ↔ (delay t < 200)%Q) ∧ g ≤ 3).
  { intros t g. unfold label, delay, ConnectionMonitor.getQualityLabel.
    destruct isConnected; simpl; [|done].
    destruct (_ && _); [done|].
    destruct (ConnectionMonitor.lessThan _ 50) eqn:H50;
      [|destruct (ConnectionMonitor.lessThan _ 100) eqn:H100;
        [|destruct (ConnectionMonitor.lessThan _ 200) eqn:H200]];
      intros [= <-];
      rewrite ?monitor_lt_true, ?monitor_lt_false in *;
      (split_and!; [split|split|split|]); intros; try lia;
      try Lqa.lra. }
  split_and!.
  - unfold label, ConnectionMonitor.getQualityColor,
      ConnectionMonitor.getQualityLabel.
    destruct isConnected; simpl; [|done].
    destruct (_ && _); [done|].
    repeat (match goal with |- context [if ConnectionMonitor.lessThan ?a ?b then _ else _] =>
              destruct (ConnectionMonitor.lessThan a b) end); done.
  - unfold label, ConnectionMonitor.getQualityLabel, ConnectionMonitor.strictEquals.
    destruct isConnected; simpl.
    2:{ split; [by intros [? ?]|by intros [? _]]. }
    destruct (Qeq_bool (ConnectionMonitor.latency s) 0) eqn:Hl;
      destruct (Qeq_bool (ConnectionMonitor.bitrate s) 0) eqn:Hb; simpl.
    + split; [by intros [? ?]|]. intros [_ H]. exfalso. apply H.
      split; by apply Qeq_bool_iff.
    + split.
      * intros _. split; [done|]. intros [_ H%Qeq_bool_iff]. congruence.
      * intros _.
        repeat (match goal with |- context [if ConnectionMonitor.lessThan ?a ?b then _ else _] =>
                  destruct (ConnectionMonitor.lessThan a b) end); by eexists.
    + split.
      * intros _. split; [done|]. intros [H%Qeq_bool_iff _]. congruence.
      * intros _.
        repeat (match goal with |- context [if ConnectionMonitor.lessThan ?a ?b then _ else _] =>
                  destruct (ConnectionMonitor.lessThan a b) end); by eexists.
    + split.
      * intros _. split; [done|]. intros [H%Qeq_bool_iff _]. congruence.
      * intros _.
        repeat (match goal with |- context [if ConnectionMonitor.lessThan ?a ?b then _ else _] =>
                  destruct (ConnectionMonitor.lessThan a b) end); by eexists.
  - apply Hgrade.
  - intros g g' Hg Hg' Hle.
    destruct (Hgrade s g Hg) as (H0 & H1 & H2 & H3).
    destruct (Hgrade s' g' Hg') as (H0' & H1' & H2' & H3').
    destruct (decide (g ≤ g')) as [|Hgt]; [done|]. exfalso.
    assert (Hcases : g' = 0 ∨ (g' ≤ 1 ∧ ¬ g ≤ 1) ∨ (g' ≤ 2 ∧ ¬ g ≤ 2)) by lia.
    destruct Hcases as [Hc|[[Hc Hn]|[Hc Hn]]].
    + apply H0' in Hc. assert (g ≠ 0) as Hn by lia. apply Hn, H0. Lqa.lra.
    + apply H1' in Hc. apply Hn, H1. Lqa.lra.
    + apply H2' in Hc. apply Hn, H2. Lqa.lra.
Qed.
